(** * Turso3D octree: a shallow embedding of Renderer/Octree.cpp

    The octree is a pointer structure: octants live in a pool and refer to
    each other by address (parent and children), tracked objects hold a
    back-reference to their octant.  The embedding keeps this shape: a heap
    of octants indexed by address, a finite map for the objects'
    back-references, and the operations of Octree.cpp as functions on that
    state which fail ([None]) where the C++ would dereference a dead
    address or would not terminate.

    Coordinates are C++ [float]s in the source.  The definitions that
    follow take their arithmetic as exact, on rationals: what is proved
    of them holds of the code as far as no operation rounds.  The module
    [F32] further down has the same operations on binary32 numbers, with
    the rounding of the source, and the statements that depend on the
    rounding are made there. *)

From Stdlib Require Import QArith Lqa ZArith Lia.
From Stdlib Require SpecFloat.
From stdpp Require Import gmap list sorting.

Section Geometry.
Local Open Scope Q_scope.

(** ** Math types (Math/Vector3.h, Math/BoundingBox.h) *)

(** Modelled from the spec: the math types are not among the sources; a
    Vector3 has three coordinates and a BoundingBox a minimum and a
    maximum corner. *)
Record Vector3 := mkVector3 { vx : Q; vy : Q; vz : Q }.

Record BoundingBox := mkBoundingBox { bmin : Vector3; bmax : Vector3 }.

Inductive Intersection := OUTSIDE | INTERSECTS | INSIDE.

Definition Qltb (a b : Q) : bool :=
  match (a ?= b)%Q with Lt => true | _ => false end.

Definition Qleb (a b : Q) : bool :=
  match (a ?= b)%Q with Gt => false | _ => true end.

Definition v3add (a b : Vector3) : Vector3 :=
  mkVector3 (vx a + vx b) (vy a + vy b) (vz a + vz b).

Definition v3sub (a b : Vector3) : Vector3 :=
  mkVector3 (vx a - vx b) (vy a - vy b) (vz a - vz b).

Definition v3scale (a : Vector3) (k : Q) : Vector3 :=
  mkVector3 (vx a * k) (vy a * k) (vz a * k).

(** Modelled from the spec: Math/BoundingBox.h is not among the sources.
    [Center], [HalfSize] and [Size] are the derived geometry of a box;
    [IsInside] is the three-way test whose [INSIDE] answer is the spec's
    "cullingBox fully contains the box". *)
Definition Center (b : BoundingBox) : Vector3 := v3scale (v3add (bmax b) (bmin b)) (1#2).

Definition HalfSize (b : BoundingBox) : Vector3 := v3scale (v3sub (bmax b) (bmin b)) (1#2).

Definition Size (b : BoundingBox) : Vector3 := v3sub (bmax b) (bmin b).

Definition IsInside (this box : BoundingBox) : Intersection :=
  if Qltb (vx (bmax box)) (vx (bmin this)) || Qltb (vx (bmax this)) (vx (bmin box)) ||
     Qltb (vy (bmax box)) (vy (bmin this)) || Qltb (vy (bmax this)) (vy (bmin box)) ||
     Qltb (vz (bmax box)) (vz (bmin this)) || Qltb (vz (bmax this)) (vz (bmin box))
  then OUTSIDE
  else if Qltb (vx (bmin box)) (vx (bmin this)) || Qltb (vx (bmax this)) (vx (bmax box)) ||
          Qltb (vy (bmin box)) (vy (bmin this)) || Qltb (vy (bmax this)) (vy (bmax box)) ||
          Qltb (vz (bmin box)) (vz (bmin this)) || Qltb (vz (bmax this)) (vz (bmax box))
  then INTERSECTS
  else INSIDE.

(** The box [b] grown by [hs] on every side. *)
Definition expanded (b : BoundingBox) (hs : Vector3) : BoundingBox :=
  mkBoundingBox (v3sub (bmin b) hs) (v3add (bmax b) hs).

Definition is_INSIDE (i : Intersection) : bool :=
  match i with INSIDE => true | _ => false end.

(** [contains c b]: box [b] lies within box [c] on every axis. *)
Definition contains (c b : BoundingBox) : Prop :=
  vx (bmin c) <= vx (bmin b) /\ vx (bmax b) <= vx (bmax c) /\
  vy (bmin c) <= vy (bmin b) /\ vy (bmax b) <= vy (bmax c) /\
  vz (bmin c) <= vz (bmin b) /\ vz (bmax b) <= vz (bmax c).

(** A box is valid when its minimum does not exceed its maximum. *)
Definition valid_box (b : BoundingBox) : Prop :=
  vx (bmin b) <= vx (bmax b) /\ vy (bmin b) <= vy (bmax b) /\ vz (bmin b) <= vz (bmax b).

(** What the answer INSIDE of [IsInside] says on one axis. *)
Definition insideAxis (cmin cmax m M : Q) : Prop :=
  cmin <= m /\ m <= cmax /\ cmin <= M /\ M <= cmax.

End Geometry.

(** ** Octant *)

(** Octants are referred to by address; [ROOT] is the address of the
    [root] member of the Octree, every other octant comes from the pool
    allocator.  Tracked objects (pointers to OctreeNode) are referred to by address
    as well. *)
Abbreviation addr := nat (only parsing).
Abbreviation nodeid := nat (only parsing).

Definition ROOT : addr := 0%nat.

Definition NUM_OCTANTS : nat := 8%nat.

(** Modelled from the spec: struct Octant is declared in Octree.h, which
    is not among the sources; the fields are those that Octree.cpp reads
    and writes.  [numNodes] is a count; it is modelled as an integer
    without wrap-around. *)
Record Octant := mkOctant {
  cullingBox : BoundingBox;
  worldBoundingBox : BoundingBox;
  center : Vector3;
  halfSize : Vector3;
  level : Z;
  nodes : list nodeid;
  children : list (option addr);
  parent : option addr;
  numNodes : Z;
  sortDirty : bool
}.

Definition zeroV : Vector3 := mkVector3 0%Q 0%Q 0%Q.

(** Octant::Octant(): no parent, no objects, no children.  The geometry
    fields are not set by the constructor; every octant is initialized
    before use. *)
Definition Octant_new : Octant :=
  mkOctant (mkBoundingBox zeroV zeroV) (mkBoundingBox zeroV zeroV) zeroV zeroV 0%Z
           [] (replicate NUM_OCTANTS None) None 0%Z false.

(** Octant::Initialize *)
Definition Initialize (o : Octant) (parent_ : option addr) (boundingBox : BoundingBox)
    (level_ : Z) : Octant :=
  let hs := HalfSize boundingBox in
  mkOctant (expanded boundingBox hs)
           boundingBox (Center boundingBox) hs level_
           (nodes o) (children o) parent_ (numNodes o) (sortDirty o).

(** Octant::FitBoundingBox *)
Definition FitBoundingBox (o : Octant) (box : BoundingBox) (boxSize : Vector3) : bool :=
  if (level o <=? 1)%Z || Qleb (vx (halfSize o)) (vx boxSize)
     || Qleb (vy (halfSize o)) (vy boxSize) || Qleb (vz (halfSize o)) (vz boxSize)
  then true
  else if Qleb (vx (bmin box)) (vx (bmin (worldBoundingBox o)) - (1#2) * vx (halfSize o))%Q
          || Qleb (vy (bmin box)) (vy (bmin (worldBoundingBox o)) - (1#2) * vy (halfSize o))%Q
          || Qleb (vz (bmin box)) (vz (bmin (worldBoundingBox o)) - (1#2) * vz (halfSize o))%Q
          || Qleb (vx (bmax (worldBoundingBox o)) + (1#2) * vx (halfSize o))%Q (vx (bmax box))
          || Qleb (vy (bmax (worldBoundingBox o)) + (1#2) * vy (halfSize o))%Q (vy (bmax box))
          || Qleb (vz (bmax (worldBoundingBox o)) + (1#2) * vz (halfSize o))%Q (vz (bmax box))
  then true
  else false.

(** Modelled from the spec: Octant::ChildIndex is declared in Octree.h,
    which is not among the sources.  The index has one bit per axis, set
    when the position is not below the octant's center on that axis. *)
Definition ChildIndex (o : Octant) (position : Vector3) : nat :=
  ((if Qltb (vx position) (vx (center o)) then 0 else 1) +
   (if Qltb (vy position) (vy (center o)) then 0 else 2) +
   (if Qltb (vz position) (vz (center o)) then 0 else 4))%nat.

(** The bounding box that Octree::CreateChildOctant gives to child [index]. *)
Definition childBox (o : Octant) (index : nat) : BoundingBox :=
  let newMin := bmin (worldBoundingBox o) in
  let newMax := bmax (worldBoundingBox o) in
  let oldCenter := center o in
  let '(minx, maxx) := if Nat.testbit index 0 then (vx oldCenter, vx newMax)
                       else (vx newMin, vx oldCenter) in
  let '(miny, maxy) := if Nat.testbit index 1 then (vy oldCenter, vy newMax)
                       else (vy newMin, vy oldCenter) in
  let '(minz, maxz) := if Nat.testbit index 2 then (vz oldCenter, vz newMax)
                       else (vz newMin, vz oldCenter) in
  mkBoundingBox (mkVector3 minx miny minz) (mkVector3 maxx maxy maxz).

(** Field updates of an octant (assignments to one member). *)
Definition set_nodes (o : Octant) (l : list nodeid) : Octant :=
  mkOctant (cullingBox o) (worldBoundingBox o) (center o) (halfSize o) (level o)
           l (children o) (parent o) (numNodes o) (sortDirty o).

Definition set_children (o : Octant) (c : list (option addr)) : Octant :=
  mkOctant (cullingBox o) (worldBoundingBox o) (center o) (halfSize o) (level o)
           (nodes o) c (parent o) (numNodes o) (sortDirty o).

Definition set_numNodes (o : Octant) (k : Z) : Octant :=
  mkOctant (cullingBox o) (worldBoundingBox o) (center o) (halfSize o) (level o)
           (nodes o) (children o) (parent o) k (sortDirty o).

Definition set_sortDirty (o : Octant) (b : bool) : Octant :=
  mkOctant (cullingBox o) (worldBoundingBox o) (center o) (halfSize o) (level o)
           (nodes o) (children o) (parent o) (numNodes o) b.

Definition set_worldBoundingBox (o : Octant) (b : BoundingBox) : Octant :=
  mkOctant (cullingBox o) b (center o) (halfSize o) (level o)
           (nodes o) (children o) (parent o) (numNodes o) (sortDirty o).

(** ** Octree state *)

(** Modelled from the spec: class Octree is declared in Octree.h and
    OctreeNode in OctreeNode.h, which are not among the sources.  The
    state of an Octree together with the two members of each tracked
    object that only the Octree writes: the back-reference
    [node->impl->octant] (absent from [octantOf] when null) and the flag
    NF_OCTREE_UPDATE_QUEUED (membership in [queuedFlag]).  [octants] is the
    store of live octants: the root at [ROOT] and the pool. *)
Record Octree := mkOctree {
  octants : gmap addr Octant;
  updateQueue : list (option nodeid);
  sortDirtyOctants : list addr;
  octantOf : gmap nodeid addr;
  queuedFlag : gset nodeid;
  lastUpdateFrameNumber : gmap nodeid Z
}.

Definition set_octants (s : Octree) (h : gmap addr Octant) : Octree :=
  mkOctree h (updateQueue s) (sortDirtyOctants s) (octantOf s) (queuedFlag s)
           (lastUpdateFrameNumber s).

Definition DEFAULT_OCTREE_SIZE : Q := 1000%Q.
Definition DEFAULT_OCTREE_LEVELS : Z := 8%Z.
Definition MAX_OCTREE_LEVELS : Z := 256%Z.

Definition cube (lo hi : Q) : BoundingBox :=
  mkBoundingBox (mkVector3 lo lo lo) (mkVector3 hi hi hi).

(** Octree::Octree() *)
Definition Octree_new : Octree :=
  mkOctree {[ ROOT := Initialize Octant_new None
                        (cube (- DEFAULT_OCTREE_SIZE)%Q DEFAULT_OCTREE_SIZE)
                        DEFAULT_OCTREE_LEVELS ]}
           [] [] ∅ ∅ ∅.

(** The loops of the source that follow parent or child pointers have no
    bound of their own; in the model they run on fuel.  The root's level
    bounds the depth of the tree, so the operations use it as fuel and fail
    if it is exceeded. *)
Definition depthFuel (h : gmap addr Octant) : nat :=
  match h !! ROOT with
  | Some r => S (Z.to_nat (level r))
  | None => 0%nat
  end.

(** Modelled from the spec: the pool allocator (Base/Allocator.h) is not
    among the sources.  Allocator::Allocate gives an address that is not
    live; which free slot it hands out is left to [fresh]. *)
Definition Allocate (h : gmap addr Octant) : addr := fresh (dom h).

(** Octree::CreateChildOctant *)
Definition CreateChildOctant (h : gmap addr Octant) (a : addr) (index : nat)
    : option (gmap addr Octant * addr) :=
  o ← h !! a;
  match children o !! index with
  | Some (Some c) => Some (h, c)
  | Some None =>
      let c := Allocate h in
      let child := Initialize Octant_new (Some a) (childBox o index) (level o - 1) in
      Some (<[a := set_children o (<[index := Some c]> (children o))]> (<[c := child]> h), c)
  | None => None
  end.

(** Octree::DeleteChildOctant *)
Definition DeleteChildOctant (h : gmap addr Octant) (a : addr) (index : nat)
    : option (gmap addr Octant) :=
  o ← h !! a;
  match children o !! index with
  | Some (Some c) =>
      _ ← h !! c;
      let h1 := delete c h in
      o1 ← h1 !! a;
      Some (<[a := set_children o1 (<[index := None]> (children o1))]> h1)
  | _ => None
  end.

(** The loop at the end of Octree::AddNode: increment the object count in
    the whole parent branch. *)
Fixpoint incBranch (fuel : nat) (h : gmap addr Octant) (cur : option addr)
    : option (gmap addr Octant) :=
  match cur with
  | None => Some h
  | Some a =>
      match fuel with
      | O => None
      | S f =>
          o ← h !! a;
          incBranch f (<[a := set_numNodes o (numNodes o + 1)]> h) (parent o)
      end
  end.

(** Octree::AddNode *)
Definition AddNode (s : Octree) (node : nodeid) (a : addr) : option Octree :=
  o ← octants s !! a;
  let o1 := set_nodes o (nodes o ++ [node]) in
  let o2 := if sortDirty o1 then o1 else set_sortDirty o1 true in
  let dirty := if sortDirty o1 then sortDirtyOctants s else sortDirtyOctants s ++ [a] in
  h ← incBranch (depthFuel (octants s)) (<[a := o2]> (octants s)) (Some a);
  Some (mkOctree h (updateQueue s) dirty (<[node := a]> (octantOf s)) (queuedFlag s)
                 (lastUpdateFrameNumber s)).

(** The inner loop of Octree::RemoveNode(node, octant): decrement the
    object count in the whole parent branch and erase empty octants. *)
Fixpoint decBranch (fuel : nat) (h : gmap addr Octant) (cur : option addr)
    : option (gmap addr Octant) :=
  match cur with
  | None => Some h
  | Some a =>
      match fuel with
      | O => None
      | S f =>
          o ← h !! a;
          let o1 := set_numNodes o (numNodes o - 1) in
          let h1 := <[a := o1]> h in
          match parent o1 with
          | Some next =>
              if (numNodes o1 =? 0)%Z then
                po ← h1 !! next;
                h2 ← DeleteChildOctant h1 next (ChildIndex po (center o1));
                decBranch f h2 (Some next)
              else decBranch f h1 (Some next)
          | None => decBranch f h1 None
          end
      end
  end.

(** vector::erase at the first position holding [node]. *)
Fixpoint eraseFirst (node : nodeid) (l : list nodeid) : list nodeid :=
  match l with
  | [] => []
  | x :: l' => if decide (x = node) then l' else x :: eraseFirst node l'
  end.

(** Octree::RemoveNode(node, octant), the two-argument overload *)
Definition RemoveNodeFrom (h : gmap addr Octant) (node : nodeid) (octant : option addr)
    : option (gmap addr Octant) :=
  match octant with
  | None => Some h
  | Some a =>
      o ← h !! a;
      if decide (node ∈ nodes o) then
        decBranch (depthFuel h) (<[a := set_nodes o (eraseFirst node (nodes o))]> h) (Some a)
      else Some h
  end.

(** The first queue position holding [node] becomes a null pointer. *)
Fixpoint tombstone (node : nodeid) (q : list (option nodeid)) : list (option nodeid) :=
  match q with
  | [] => []
  | x :: q' => if decide (x = Some node) then None :: q' else x :: tombstone node q'
  end.

(** Octree::QueueUpdate *)
Definition QueueUpdate (s : Octree) (node : nodeid) : Octree :=
  mkOctree (octants s) (updateQueue s ++ [Some node]) (sortDirtyOctants s) (octantOf s)
           ({[node]} ∪ queuedFlag s) (lastUpdateFrameNumber s).

(** Octree::CancelUpdate *)
Definition CancelUpdate (s : Octree) (node : nodeid) : Octree :=
  mkOctree (octants s) (tombstone node (updateQueue s)) (sortDirtyOctants s) (octantOf s)
           (queuedFlag s ∖ {[node]}) (lastUpdateFrameNumber s).

(** Octree::RemoveNode(node) *)
Definition RemoveNode (s : Octree) (node : nodeid) : option Octree :=
  h ← RemoveNodeFrom (octants s) node (octantOf s !! node);
  let s1 := set_octants s h in
  let s2 := if decide (node ∈ queuedFlag s1) then CancelUpdate s1 node else s1 in
  Some (mkOctree (octants s2) (updateQueue s2) (sortDirtyOctants s2)
                 (delete node (octantOf s2)) (queuedFlag s2) (lastUpdateFrameNumber s2)).

(** The decision [insertHere] of Octree::Update. *)
Definition insertHere (isRoot : bool) (o : Octant) (box : BoundingBox) : bool :=
  if isRoot
  then negb (is_INSIDE (IsInside (cullingBox o) box)) || FitBoundingBox o box (Size box)
  else FitBoundingBox o box (Size box).

(** The reinsert loop of Octree::Update: from [newOctant] down to the
    octant that takes the box, creating child octants on the way. *)
Fixpoint descend (fuel : nat) (h : gmap addr Octant) (newOctant : addr) (box : BoundingBox)
    : option (gmap addr Octant * addr) :=
  match fuel with
  | O => None
  | S f =>
      o ← h !! newOctant;
      if insertHere (bool_decide (newOctant = ROOT)) o box then Some (h, newOctant)
      else
        '(h1, c) ← CreateChildOctant h newOctant (ChildIndex o (Center box));
        descend f h1 c box
  end.

(** The test "still fits the current octant" of Octree::Update. *)
Definition stillFits (h : gmap addr Octant) (oldOctant : option addr) (box : BoundingBox)
    : option bool :=
  match oldOctant with
  | None => Some false
  | Some a =>
      o ← h !! a;
      Some (is_INSIDE (IsInside (cullingBox o) box) && FitBoundingBox o box (Size box))
  end.

(** One iteration of the queue loop of Octree::Update, for a non-null
    entry.  [WorldBoundingBox] is the objects' accessor. *)
Definition updateNode (WorldBoundingBox : nodeid → BoundingBox) (frameNumber : Z)
    (s : Octree) (node : nodeid) : option Octree :=
  let s0 := mkOctree (octants s) (updateQueue s) (sortDirtyOctants s) (octantOf s)
                     (queuedFlag s ∖ {[node]})
                     (<[node := frameNumber]> (lastUpdateFrameNumber s)) in
  let box := WorldBoundingBox node in
  let oldOctant := octantOf s0 !! node in
  fits ← stillFits (octants s0) oldOctant box;
  if (fits : bool) then Some s0
  else
    '(h1, newOctant) ← descend (depthFuel (octants s0)) (octants s0) ROOT box;
    let s1 := set_octants s0 h1 in
    if decide (Some newOctant = oldOctant) then Some s1
    else
      s2 ← AddNode s1 node newOctant;
      h3 ← RemoveNodeFrom (octants s2) node oldOctant;
      Some (set_octants s2 h3).

Fixpoint updateLoop (WorldBoundingBox : nodeid → BoundingBox) (frameNumber : Z)
    (q : list (option nodeid)) (s : Octree) : option Octree :=
  match q with
  | [] => Some s
  | None :: q' => updateLoop WorldBoundingBox frameNumber q' s
  | Some node :: q' =>
      s1 ← updateNode WorldBoundingBox frameNumber s node;
      updateLoop WorldBoundingBox frameNumber q' s1
  end.

(** The loop over [sortDirtyOctants] of Octree::Update; std::sort orders
    the object pointers by address. *)
Fixpoint sortLoop (l : list addr) (h : gmap addr Octant) : option (gmap addr Octant) :=
  match l with
  | [] => Some h
  | a :: l' =>
      o ← h !! a;
      sortLoop l' (<[a := set_sortDirty (set_nodes o (merge_sort Nat.le (nodes o))) false]> h)
  end.

(** Octree::Update *)
Definition Update (WorldBoundingBox : nodeid → BoundingBox) (frameNumber : Z) (s : Octree)
    : option Octree :=
  s1 ← updateLoop WorldBoundingBox frameNumber (updateQueue s) s;
  h ← sortLoop (sortDirtyOctants s1) (octants s1);
  Some (mkOctree h [] [] (octantOf s1) (queuedFlag s1) (lastUpdateFrameNumber s1)).

(** Octree::CollectNodes(result, octant), the overload used by Resize *)
Fixpoint CollectNodes (fuel : nat) (h : gmap addr Octant) (a : addr) : option (list nodeid) :=
  match fuel with
  | O => None
  | S f =>
      o ← h !! a;
      rest ← mapM (λ c : option addr,
                     match c with
                     | Some ca => CollectNodes f h ca
                     | None => Some []
                     end) (children o);
      Some (nodes o ++ concat rest)
  end.

(** The first loop of Octree::DeleteChildOctants (deletingOctree = false):
    clear the back-reference and the queued flag of the octant's objects. *)
Definition detachNodes (s : Octree) (l : list nodeid) : Octree :=
  mkOctree (octants s) (updateQueue s) (sortDirtyOctants s)
           (foldr delete (octantOf s) l) (queuedFlag s ∖ list_to_set l)
           (lastUpdateFrameNumber s).

(** The loop over the children of Octree::DeleteChildOctants; [rec] is
    the recursive call. *)
Fixpoint deleteChildren (rec : addr → Octree → option Octree) (a : addr)
    (indices : list nat) (s : Octree) : option Octree :=
  match indices with
  | [] => Some s
  | i :: rest =>
      o ← octants s !! a;
      match children o !! i with
      | Some (Some c) =>
          s1 ← rec c s;
          o1 ← octants s1 !! a;
          deleteChildren rec a rest
            (set_octants s1 (<[a := set_children o1 (<[i := None]> (children o1))]> (octants s1)))
      | Some None => deleteChildren rec a rest s
      | None => None
      end
  end.

(** Octree::DeleteChildOctants with deletingOctree = false *)
Fixpoint DeleteChildOctants (fuel : nat) (a : addr) (s : Octree) : option Octree :=
  match fuel with
  | O => None
  | S f =>
      o ← octants s !! a;
      let s1 := detachNodes s (nodes o) in
      let s2 := set_octants s1 (<[a := set_numNodes (set_nodes o []) 0]> (octants s1)) in
      s3 ← deleteChildren (DeleteChildOctants f) a (seq 0 NUM_OCTANTS) s2;
      if decide (a = ROOT) then Some s3
      else
        _ ← octants s3 !! a;
        Some (set_octants s3 (delete a (octants s3)))
  end.

(** Modelled from the spec: Clamp is declared in Math/Math.h, which is not
    among the sources ("a level count clamped to [1, a hard maximum]"). *)
Definition Clamp (v lo hi : Z) : Z :=
  if (v <? lo)%Z then lo else if (hi <? v)%Z then hi else v.

(** Octree::Resize.  Allocator::Reset releases the whole pool: only the
    root stays live. *)
Definition Resize (s : Octree) (boundingBox : BoundingBox) (numLevels : Z) : option Octree :=
  collected ← CollectNodes (depthFuel (octants s)) (octants s) ROOT;
  let s1 := mkOctree (octants s) (Some <$> collected) (sortDirtyOctants s) (octantOf s)
                     (queuedFlag s) (lastUpdateFrameNumber s) in
  s2 ← DeleteChildOctants (depthFuel (octants s1)) ROOT s1;
  r ← octants s2 !! ROOT;
  let r1 := Initialize r None boundingBox (Clamp numLevels 1 MAX_OCTREE_LEVELS) in
  Some (set_octants s2 {[ ROOT := r1 ]}).

(** Octree::SetBoundingBoxAttr *)
Definition SetBoundingBoxAttr (s : Octree) (boundingBox : BoundingBox) : option Octree :=
  r ← octants s !! ROOT;
  Some (set_octants s (<[ROOT := set_worldBoundingBox r boundingBox]> (octants s))).

(** Octree::SetNumLevelsAttr *)
Definition SetNumLevelsAttr (s : Octree) (numLevels : Z) : option Octree :=
  r ← octants s !! ROOT;
  Resize s (worldBoundingBox r) numLevels.


(** ** Ray queries *)

(** Distances along a ray; [Infinity] is M_INFINITY. *)
Inductive Dist := Finite (q : Q) | Infinity.

Definition Dltb (a b : Dist) : bool :=
  match a, b with
  | Finite x, Finite y => Qltb x y
  | Finite _, Infinity => true
  | Infinity, _ => false
  end.

(** Modelled from the spec: Min is declared in Math/Math.h, which is not
    among the sources. *)
Definition Min (lhs rhs : Dist) : Dist := if Dltb lhs rhs then lhs else rhs.

(** Modelled from the spec: struct RaycastResult is declared in
    OctreeNode.h, which is not among the sources; the fields are those
    that RaycastSingle writes. *)
Record RaycastResult := mkRaycastResult {
  position : Vector3;
  normal : Vector3;
  distance : Dist;
  node : option nodeid;
  subObject : nat
}.

(** CompareRaycastResults and CompareNodeDistances *)
Definition CompareRaycastResults (lhs rhs : RaycastResult) : bool :=
  Dltb (distance lhs) (distance rhs).

Definition CompareNodeDistances (lhs rhs : nodeid * Dist) : bool :=
  Dltb (lhs.2) (rhs.2).

(** std::sort with a comparator [comp] leaves no later element strictly
    before an earlier one; [merge_sort] on the relation "not [comp y x]"
    stands for it. *)
Definition notAfter {A} (comp : A → A → bool) (x y : A) : Prop := comp y x = false.

Global Instance notAfter_dec {A} (comp : A → A → bool) (x y : A) : Decision (notAfter comp x y).
Proof. unfold notAfter. apply _. Defined.

Definition sortBy {A} (comp : A → A → bool) (l : list A) : list A :=
  merge_sort (notAfter comp) l.

Definition emptyRes : RaycastResult :=
  mkRaycastResult zeroV zeroV Infinity None 0.

Section RayQueries.
(** What a query reads from its collaborators, for one ray: the ray's
    hit distance to a box (Ray::HitDistance), each object's flags, layer
    mask and world bounding box, and the hits that the object's
    OnRaycast callback appends for a distance budget. *)
Variable HitDistance : BoundingBox → Dist.
Variable Flags : nodeid → Z.
Variable LayerMask : nodeid → Z.
Variable WorldBoundingBox : nodeid → BoundingBox.
Variable OnRaycast : nodeid → Dist → list RaycastResult.

Definition matchesMasks (n : nodeid) (nodeFlags layerMask : Z) : bool :=
  (Z.land (Flags n) nodeFlags =? nodeFlags)%Z && negb (Z.land (LayerMask n) layerMask =? 0)%Z.

(** The body of the loop over the objects of an octant, in the overload
    of CollectNodes for RaycastResult and in the overload for pairs of
    object and distance: what one object appends to [result]. *)
Definition raycastNode (n : nodeid) (nodeFlags : Z) (maxDistance : Dist) (layerMask : Z)
    : list RaycastResult :=
  if matchesMasks n nodeFlags layerMask then OnRaycast n maxDistance else [].

Definition distanceNode (n : nodeid) (nodeFlags : Z) (maxDistance : Dist) (layerMask : Z)
    : list (nodeid * Dist) :=
  if matchesMasks n nodeFlags layerMask
  then (let distance := HitDistance (WorldBoundingBox n) in
        if Dltb distance maxDistance then [(n, distance)] else [])
  else [].

(** Octree::CollectNodes(result, octant, ray, nodeFlags, maxDistance,
    layerMask) for RaycastResult: the hits appended to [result]. *)
Fixpoint CollectNodesRay (fuel : nat) (h : gmap addr Octant) (a : addr)
    (nodeFlags : Z) (maxDistance : Dist) (layerMask : Z) : option (list RaycastResult) :=
  match fuel with
  | O => None
  | S f =>
      o ← h !! a;
      if negb (Dltb (HitDistance (cullingBox o)) maxDistance) then Some []
      else
        let here := concat ((λ n, raycastNode n nodeFlags maxDistance layerMask)
                              <$> nodes o) in
        rest ← mapM (λ c : option addr,
                       match c with
                       | Some ca => CollectNodesRay f h ca nodeFlags maxDistance layerMask
                       | None => Some []
                       end) (children o);
        Some (here ++ concat rest)
  end.

(** The same overload for pairs of object and bounding-box distance. *)
Fixpoint CollectNodesDist (fuel : nat) (h : gmap addr Octant) (a : addr)
    (nodeFlags : Z) (maxDistance : Dist) (layerMask : Z) : option (list (nodeid * Dist)) :=
  match fuel with
  | O => None
  | S f =>
      o ← h !! a;
      if negb (Dltb (HitDistance (cullingBox o)) maxDistance) then Some []
      else
        let here := concat ((λ n, distanceNode n nodeFlags maxDistance layerMask)
                              <$> nodes o) in
        rest ← mapM (λ c : option addr,
                       match c with
                       | Some ca => CollectNodesDist f h ca nodeFlags maxDistance layerMask
                       | None => Some []
                       end) (children o);
        Some (here ++ concat rest)
  end.

(** Octree::Raycast *)
Definition Raycast (s : Octree) (nodeFlags : Z) (maxDistance : Dist) (layerMask : Z)
    : option (list RaycastResult) :=
  result ← CollectNodesRay (depthFuel (octants s)) (octants s) ROOT nodeFlags maxDistance layerMask;
  Some (sortBy CompareRaycastResults result).

(** The second phase of Octree::RaycastSingle: per-object ray tests with
    early-out. *)
Fixpoint closestLoop (initialRes : list (nodeid * Dist)) (finalRes : list RaycastResult)
    (closestHit maxDistance : Dist) : list RaycastResult :=
  match initialRes with
  | [] => finalRes
  | it :: rest =>
      if Dltb (it.2) (Min closestHit maxDistance) then
        let finalRes1 := finalRes ++ OnRaycast (it.1) maxDistance in
        let closestHit1 :=
          if (length finalRes <? length finalRes1)%nat then
            match last finalRes1 with
            | Some back => Min closestHit (distance back)
            | None => closestHit
            end
          else closestHit in
        closestLoop rest finalRes1 closestHit1 maxDistance
      else finalRes
  end.

(** Octree::RaycastSingle *)
Definition RaycastSingle (s : Octree) (nodeFlags : Z) (maxDistance : Dist) (layerMask : Z)
    : option RaycastResult :=
  initialRes ← CollectNodesDist (depthFuel (octants s)) (octants s) ROOT nodeFlags maxDistance
                                layerMask;
  let finalRes := closestLoop (sortBy CompareNodeDistances initialRes) [] Infinity maxDistance in
  match sortBy CompareRaycastResults finalRes with
  | front :: _ => Some front
  | [] => Some emptyRes
  end.
End RayQueries.

(** What the queries rely on in the objects' OnRaycast, which is not
    among the sources: the distance of a reported hit is not below the
    distance at which the ray hits the object's bounding box, and an
    object reports hits only when the ray hits its bounding box within
    the distance budget. *)
Definition lowerBound (HitDistance : BoundingBox → Dist)
    (WorldBoundingBox : nodeid → BoundingBox)
    (OnRaycast : nodeid → Dist → list RaycastResult) : Prop :=
  ∀ n maxDistance r, r ∈ OnRaycast n maxDistance →
    Dltb (distance r) (HitDistance (WorldBoundingBox n)) = false.

Definition withinBudget (HitDistance : BoundingBox → Dist)
    (WorldBoundingBox : nodeid → BoundingBox)
    (OnRaycast : nodeid → Dist → list RaycastResult) : Prop :=
  ∀ n maxDistance r, r ∈ OnRaycast n maxDistance →
    Dltb (HitDistance (WorldBoundingBox n)) maxDistance = true.

(** The invariant of the second phase of RaycastSingle: [closestHit],
    when it is below the budget, is the distance of a hit in [finalRes]. *)
Definition tracksHit (maxDistance : Dist) (finalRes : list RaycastResult)
    (closestHit : Dist) : Prop :=
  Dltb closestHit maxDistance = true → ∃ r0, r0 ∈ finalRes ∧ distance r0 = closestHit.

(** A result is a closest one of a list: it is in the list and no result
    of the list has a smaller distance. *)
Definition closestOf (res : RaycastResult) (l : list RaycastResult) : Prop :=
  res ∈ l ∧ ∀ r, r ∈ l → Dltb (distance r) (distance res) = false.

(** ** Sequences of calls *)

Inductive Op :=
| OpUpdate (WorldBoundingBox : nodeid → BoundingBox) (frameNumber : Z)
| OpResize (boundingBox : BoundingBox) (numLevels : Z)
| OpRemoveNode (node : nodeid)
| OpQueueUpdate (node : nodeid)
| OpCancelUpdate (node : nodeid).

Definition exec (op : Op) (s : Octree) : option Octree :=
  match op with
  | OpUpdate wb frameNumber => Update wb frameNumber s
  | OpResize boundingBox numLevels => Resize s boundingBox numLevels
  | OpRemoveNode node => RemoveNode s node
  | OpQueueUpdate node => Some (QueueUpdate s node)
  | OpCancelUpdate node => Some (CancelUpdate s node)
  end.

(** The states an Octree can be in: a new Octree, and what a call makes of
    a state it can be in. *)
Inductive reachable : Octree → Prop :=
| reachable_new : reachable Octree_new
| reachable_step s op s' : reachable s → exec op s = Some s' → reachable s'.

Fixpoint run (ops : list Op) (s : Octree) : option Octree :=
  match ops with
  | [] => Some s
  | op :: ops' => s1 ← exec op s; run ops' s1
  end.

(** The same with the attribute setters used when an Octree is
    deserialized. *)
Inductive AttrOp :=
| Call (op : Op)
| OpSetBoundingBoxAttr (boundingBox : BoundingBox)
| OpSetNumLevelsAttr (numLevels : Z).

Definition execAttr (op : AttrOp) (s : Octree) : option Octree :=
  match op with
  | Call op => exec op s
  | OpSetBoundingBoxAttr boundingBox => SetBoundingBoxAttr s boundingBox
  | OpSetNumLevelsAttr numLevels => SetNumLevelsAttr s numLevels
  end.

Inductive reachableAttr : Octree → Prop :=
| reachableAttr_new : reachableAttr Octree_new
| reachableAttr_step s op s' : reachableAttr s → execAttr op s = Some s' → reachableAttr s'.

(** ** Invariants *)

(** The derived geometry of an octant agrees with its worldBoundingBox. *)
Definition geomOK (o : Octant) : Prop :=
  center o = Center (worldBoundingBox o) ∧
  halfSize o = HalfSize (worldBoundingBox o) ∧
  cullingBox o = expanded (worldBoundingBox o) (halfSize o).

Definition hpos (o : Octant) : Prop :=
  (0 < vx (halfSize o))%Q ∧ (0 < vy (halfSize o))%Q ∧ (0 < vz (halfSize o))%Q.

(** [anc h b a]: [a] is [b] or an ancestor of [b], following parent
    pointers in [h]. *)
Inductive anc (h : gmap addr Octant) : addr → addr → Prop :=
| anc_refl a : anc h a a
| anc_step b o p a : h !! b = Some o → parent o = Some p → anc h p a → anc h b a.

(** The live octants form a tree below the root: parent and child
    pointers agree, a child sits in the slot that ChildIndex gives its
    center, and its level and box derive from its parent's. *)
Record shape (h : gmap addr Octant) : Prop := mkShape {
  shape_root : ∃ r, h !! ROOT = Some r ∧ parent r = None;
  shape_len : ∀ a o, h !! a = Some o → length (children o) = NUM_OCTANTS;
  shape_level : ∀ a o r, h !! a = Some o → h !! ROOT = Some r →
      (1 ≤ level o ≤ level r)%Z;
  shape_geom : ∀ a o, h !! a = Some o → geomOK o;
  shape_parent : ∀ a o, h !! a = Some o → a ≠ ROOT →
      ∃ p po, parent o = Some p ∧ h !! p = Some po ∧
              children po !! ChildIndex po (center o) = Some (Some a);
  shape_child : ∀ a o i c, h !! a = Some o → children o !! i = Some (Some c) →
      c ≠ ROOT ∧ hpos o ∧
      ∃ co, h !! c = Some co ∧ parent co = Some a ∧ level co = (level o - 1)%Z ∧
            worldBoundingBox co = childBox o i ∧ ChildIndex o (center co) = i
}.

Definition sumZ (l : list Z) : Z := foldr Z.add 0%Z l.

Definition childCount (h : gmap addr Octant) (c : option addr) : Z :=
  match c with
  | Some ca => match h !! ca with Some co => numNodes co | None => 0%Z end
  | None => 0%Z
  end.

(** [numNodes] counts the objects of the octant and of its children's
    branches; [counts_off h x d] lets the octant at [x] be off by [d], as
    it is in the middle of the loops over a parent branch. *)
Definition counts_off (h : gmap addr Octant) (x : option addr) (d : Z) : Prop :=
  ∀ a o, h !! a = Some o →
    (numNodes o + (if decide (x = Some a) then d else 0) =
     Z.of_nat (length (nodes o)) + sumZ (childCount h <$> children o))%Z.

(** No octant but the root is empty; [nonempty_upto h t] lets the octants
    from [t] upwards be empty, as they are while Update descends. *)
Definition nonempty_upto (h : gmap addr Octant) (t : option addr) : Prop :=
  ∀ a o, h !! a = Some o → a ≠ ROOT →
    (1 ≤ numNodes o)%Z ∨ (numNodes o = 0%Z ∧ ∃ t', t = Some t' ∧ anc h t' a).

Definition heapOK (h : gmap addr Octant) : Prop :=
  shape h ∧ counts_off h None 0 ∧ nonempty_upto h None.

(** Back-references and object lists agree. *)
Definition linked (h : gmap addr Octant) (m : gmap nodeid addr) : Prop :=
  (∀ n a, m !! n = Some a ↔ ∃ o, h !! a = Some o ∧ n ∈ nodes o) ∧
  (∀ a o, h !! a = Some o → NoDup (nodes o)).

Definition rootCount (h : gmap addr Octant) (k : Z) : Prop :=
  ∃ r, h !! ROOT = Some r ∧ numNodes r = k.

(** The invariant of the Octree between calls. *)
Record wf (s : Octree) : Prop := mkWf {
  wf_heap : heapOK (octants s);
  wf_linked : linked (octants s) (octantOf s);
  wf_total : rootCount (octants s) (Z.of_nat (size (octantOf s)));
  wf_clean : sortDirtyOctants s = [] ∧ ∀ a o, octants s !! a = Some o → sortDirty o = false
}.

(** [upath h box a]: the descent of Update for [box] passes through [a]. *)
Inductive upath (h : gmap addr Octant) (box : BoundingBox) : addr → Prop :=
| upath_root : upath h box ROOT
| upath_child a o p po :
    h !! a = Some o → parent o = Some p → h !! p = Some po →
    insertHere (bool_decide (p = ROOT)) po box = false →
    ChildIndex po (Center box) = ChildIndex po (center o) →
    upath h box p → upath h box a.

(** [target h box a]: the descent of Update for [box] ends at [a]. *)
Definition target (h : gmap addr Octant) (box : BoundingBox) (a : addr) : Prop :=
  upath h box a ∧ ∃ o, h !! a = Some o ∧ insertHere (bool_decide (a = ROOT)) o box = true.



(** Relations between the heap before and after an operation. *)
Definition heap_rel (R : Octant → Octant → Prop) (h h' : gmap addr Octant) : Prop :=
  ∀ b, option_Forall2 R (h !! b) (h' !! b).

(** Two octants agree on everything that places them in the tree. *)
Definition same_skel (o o' : Octant) : Prop :=
  cullingBox o' = cullingBox o ∧ worldBoundingBox o' = worldBoundingBox o ∧
  center o' = center o ∧ halfSize o' = halfSize o ∧ level o' = level o ∧
  children o' = children o ∧ parent o' = parent o.

(** Two octants differ at most in [numNodes]. *)
Definition same_but_count (o o' : Octant) : Prop := o' = set_numNodes o (numNodes o').

(** Two octants differ at most in the order of [nodes] and in [sortDirty]. *)
Definition same_but_order (o o' : Octant) : Prop :=
  same_skel o o' ∧ numNodes o' = numNodes o ∧ nodes o' ≡ₚ nodes o.

(** Two octants differ at most in [numNodes] and in child slots that were
    emptied. *)
Definition same_but_pruned (o o' : Octant) : Prop :=
  cullingBox o' = cullingBox o ∧ worldBoundingBox o' = worldBoundingBox o ∧
  center o' = center o ∧ halfSize o' = halfSize o ∧ level o' = level o ∧
  parent o' = parent o ∧ nodes o' = nodes o ∧ sortDirty o' = sortDirty o ∧
  length (children o') = length (children o) ∧
  ∀ i, children o' !! i = children o !! i ∨ children o' !! i = Some None.

(** What RemoveNode leaves of a heap: octants are kept, possibly with
    emptied child slots, or were freed while holding no object. *)
Definition prune_view (h h' : gmap addr Octant) : Prop :=
  ∀ b, match h' !! b with
       | Some o' => ∃ o, h !! b = Some o ∧ same_but_pruned o o'
       | None => ∀ o, h !! b = Some o → nodes o = [] ∧ b ≠ ROOT
       end.

(** Two octants differ at most in child slots that were filled. *)
Definition same_but_grown (o o' : Octant) : Prop :=
  cullingBox o' = cullingBox o ∧ worldBoundingBox o' = worldBoundingBox o ∧
  center o' = center o ∧ halfSize o' = halfSize o ∧ level o' = level o ∧
  parent o' = parent o ∧ nodes o' = nodes o ∧ numNodes o' = numNodes o ∧
  sortDirty o' = sortDirty o ∧
  length (children o') = length (children o) ∧
  ∀ i, children o' !! i = children o !! i ∨ children o !! i = Some None.

(** What the descent of Update leaves of a heap: octants are kept,
    possibly with new children, and the new octants are empty. *)
Definition grow_view (h h' : gmap addr Octant) : Prop :=
  ∀ b, match h !! b with
       | Some o => ∃ o', h' !! b = Some o' ∧ same_but_grown o o'
       | None => ∀ o', h' !! b = Some o' →
                   nodes o' = [] ∧ numNodes o' = 0%Z ∧ sortDirty o' = false ∧ b ≠ ROOT
       end.


(** ** The invariant inside Update *)

Definition fastOK (o : Octant) (box : BoundingBox) : bool :=
  is_INSIDE (IsInside (cullingBox o) box) && FitBoundingBox o box (Size box).

(** An object is settled when Update would leave it where it is: its
    octant passes the test "still fits", or is the target of its box. *)
Definition settled (h : gmap addr Octant) (m : gmap nodeid addr)
    (wb : nodeid → BoundingBox) (n : nodeid) : Prop :=
  ∃ a o, m !! n = Some a ∧ h !! a = Some o ∧
         (fastOK o (wb n) = true ∨ target h (wb n) a).

(** An object is at its target when it is held by the octant at which
    the descent of Update for its box ends. *)
Definition atTarget (h : gmap addr Octant) (m : gmap nodeid addr)
    (wb : nodeid → BoundingBox) (n : nodeid) : Prop :=
  ∃ a, m !! n = Some a ∧ target h (wb n) a.

(** The invariant of the queue loop of Update; [P] holds the objects
    that the loop has resolved. *)
Record uwf (wb : nodeid → BoundingBox) (P : gset nodeid) (s : Octree) : Prop := mkUwf {
  uwf_heap : heapOK (octants s);
  uwf_linked : linked (octants s) (octantOf s);
  uwf_total : rootCount (octants s) (Z.of_nat (size (octantOf s)));
  uwf_dirty1 : ∀ a o, octants s !! a = Some o → sortDirty o = true → a ∈ sortDirtyOctants s;
  uwf_dirty2 : ∀ a, a ∈ sortDirtyOctants s →
      ∃ o n, octants s !! a = Some o ∧ n ∈ nodes o ∧ n ∈ P;
  uwf_settled : ∀ n, n ∈ P → settled (octants s) (octantOf s) wb n
}.

(** What AddNode makes of the octant at [b] when it adds [n] to [t]. *)
Definition added (n : nodeid) (t b : addr) (o o' : Octant) : Prop :=
  same_skel o o' ∧
  nodes o' = (if decide (b = t) then nodes o ++ [n] else nodes o) ∧
  sortDirty o' = (if decide (b = t) then true else sortDirty o).

(** What RemoveNode leaves of a heap when it takes [n] out of [a]. *)
Definition removed_view (n : nodeid) (a : addr) (h h' : gmap addr Octant) : Prop :=
  ∀ b, match h' !! b with
       | Some o' => ∃ o, h !! b = Some o ∧
           cullingBox o' = cullingBox o ∧ worldBoundingBox o' = worldBoundingBox o ∧
           center o' = center o ∧ halfSize o' = halfSize o ∧ level o' = level o ∧
           parent o' = parent o ∧ sortDirty o' = sortDirty o ∧
           nodes o' = (if decide (b = a) then eraseFirst n (nodes o) else nodes o)
       | None => ∀ o, h !! b = Some o →
           b ≠ ROOT ∧ (if decide (b = a) then eraseFirst n (nodes o) else nodes o) = []
       end.

(** What one iteration of Update that moves [n] to [t] makes of the
    object list of the octant at [b]; [old] is the octant that held [n]. *)
Definition placeNodes (n : nodeid) (t : addr) (old : option addr) (b : addr)
    (l : list nodeid) : list nodeid :=
  if decide (b = t) then l ++ [n]
  else if decide (old = Some b) then eraseFirst n l else l.

Definition moved (n : nodeid) (t : addr) (old : option addr)
    (h h' : gmap addr Octant) : Prop :=
  ∀ b, match h' !! b with
       | Some o' => ∃ o, h !! b = Some o ∧
           cullingBox o' = cullingBox o ∧ worldBoundingBox o' = worldBoundingBox o ∧
           center o' = center o ∧ halfSize o' = halfSize o ∧ level o' = level o ∧
           parent o' = parent o ∧
           sortDirty o' = (if decide (b = t) then true else sortDirty o) ∧
           nodes o' = placeNodes n t old b (nodes o)
       | None => ∀ o, h !! b = Some o → b ≠ ROOT ∧ placeNodes n t old b (nodes o) = []
       end.

Definition dirty1 (h : gmap addr Octant) (dl : list addr) : Prop :=
  ∀ a o, h !! a = Some o → sortDirty o = true → a ∈ dl.

Definition dirty2 (h : gmap addr Octant) (dl : list addr) (P : gset nodeid) : Prop :=
  ∀ a, a ∈ dl → ∃ o n, h !! a = Some o ∧ n ∈ nodes o ∧ n ∈ P.

(** The objects with an entry in a queue. *)
Definition queueSet (q : list (option nodeid)) : gset nodeid := list_to_set (omap id q).

(** What the loop over [sortDirtyOctants] makes of the octant at [b]. *)
Definition resorted (dl : list addr) (b : addr) (o o' : Octant) : Prop :=
  same_skel o o' ∧ numNodes o' = numNodes o ∧ nodes o' ≡ₚ nodes o ∧
  sortDirty o' = (if decide (b ∈ dl) then false else sortDirty o).

(** [intact h s a]: the state [s] still holds the octants that are below
    [a] in the heap [h], with their children and objects. *)
Definition intact (h : gmap addr Octant) (s : Octree) (a : addr) : Prop :=
  ∀ b o, anc h b a → h !! b = Some o →
    ∃ o', octants s !! b = Some o' ∧ children o' = children o ∧ nodes o' = nodes o.

(** Back-references are only cleared. *)
Definition fading (m m' : gmap nodeid addr) : Prop :=
  ∀ n, m' !! n = None ∨ m' !! n = m !! n.

(** The root that DeleteChildOctants leaves. *)
Definition clearedRoot (r : Octant) : Octant :=
  set_children (set_numNodes (set_nodes r []) 0) (replicate NUM_OCTANTS None).

(** What DeleteChildOctants on [a] makes of a state whose octants below
    [a] are those of [h]. *)
Definition dco_post (h : gmap addr Octant) (a : addr) (s s' : Octree) : Prop :=
  (∀ b, ¬ anc h b a → octants s' !! b = octants s !! b) ∧
  fading (octantOf s) (octantOf s') ∧
  (∀ b ob n, anc h b a → h !! b = Some ob → n ∈ nodes ob → octantOf s' !! n = None) ∧
  updateQueue s' = updateQueue s ∧ sortDirtyOctants s' = sortDirtyOctants s ∧
  lastUpdateFrameNumber s' = lastUpdateFrameNumber s.

(** ** Notions used to state the properties *)

(** [placed s wb n]: the octant that the back-reference of [n] names is
    the root, or its cullingBox holds the box of [n]. *)
Definition placed (s : Octree) (wb : nodeid → BoundingBox) (n : nodeid) : Prop :=
  ∀ a, octantOf s !! n = Some a →
    a = ROOT ∨
    ∃ o, octants s !! a = Some o ∧ is_INSIDE (IsInside (cullingBox o) (wb n)) = true.

(** The octant that CreateChildOctant would make for the child that the
    centre of [box] selects. *)
Definition wouldBeChild (o : Octant) (box : BoundingBox) : Octant :=
  Initialize Octant_new None (childBox o (ChildIndex o (Center box))) (level o - 1).

(** [box] lies strictly inside [c] on every axis. *)
Definition strictlyInside (c box : BoundingBox) : Prop :=
  (vx (bmin c) < vx (bmin box) ∧ vx (bmax box) < vx (bmax c) ∧
   vy (bmin c) < vy (bmin box) ∧ vy (bmax box) < vy (bmax c) ∧
   vz (bmin c) < vz (bmin box) ∧ vz (bmax box) < vz (bmax c))%Q.

(** [box] passes the bounds of [region] by more than [margin] on some
    axis. *)
Definition outsideByMargin (region : BoundingBox) (margin : Vector3) (box : BoundingBox)
    : bool :=
  Qltb (vx (bmin box)) (vx (bmin region) - vx margin)%Q
  || Qltb (vy (bmin box)) (vy (bmin region) - vy margin)%Q
  || Qltb (vz (bmin box)) (vz (bmin region) - vz margin)%Q
  || Qltb (vx (bmax region) + vx margin)%Q (vx (bmax box))
  || Qltb (vy (bmax region) + vy margin)%Q (vy (bmax box))
  || Qltb (vz (bmax region) + vz margin)%Q (vz (bmax box)).

(** Clause (c) of the fit test in the words of the specification: the
    box is outside the expanded region of the would-be child [index] by
    more than half that child's half-size on some axis. *)
Definition fitsByMargin (o : Octant) (index : nat) (box : BoundingBox) : bool :=
  let child := Initialize Octant_new None (childBox o index) (level o - 1) in
  outsideByMargin (cullingBox child) (v3scale (halfSize child) (1#2)) box.

(** The fit test in the words of the specification, to compare with
    FitBoundingBox: (a) minimum subdivision level, or (b) an extent of
    the box that is at least the half-size, or (c) for the child that
    the centre of the box selects. *)
Definition FitBoundingBox_spec (o : Octant) (box : BoundingBox) (boxSize : Vector3) : bool :=
  (level o <=? 1)%Z
  || Qleb (vx (halfSize o)) (vx boxSize) || Qleb (vy (halfSize o)) (vy boxSize)
  || Qleb (vz (halfSize o)) (vz boxSize)
  || fitsByMargin o (ChildIndex o (Center box)) box.



(** The state after a sequence of calls on a new Octree. *)
Definition runFrom (ops : list Op) : Octree := default Octree_new (run ops Octree_new).



(** ** Scenarios *)

(** Boxes that the objects report: a point at the origin, a unit box far
    from the origin, a box larger than the default root. *)
Definition atOrigin : nodeid → BoundingBox := λ _, cube 0 0.
Definition farAway : nodeid → BoundingBox := λ _, cube 900 901.

(** Object 5 is inserted at the origin; it then moves, is queued, and
    the entry is cancelled. *)
Definition cancelledMove : list Op :=
  [OpQueueUpdate 5%nat; OpUpdate atOrigin 1; OpQueueUpdate 5%nat; OpCancelUpdate 5%nat].

(** Object 5 is inserted at the origin and is queued again. *)
Definition queuedMove : list Op :=
  [OpQueueUpdate 5%nat; OpUpdate atOrigin 1; OpQueueUpdate 5%nat].


(** Object 5 is in the tree when the Octree is resized. *)
Definition resizedWithObject : list Op :=
  [OpQueueUpdate 5%nat; OpUpdate atOrigin 1; OpResize (cube (-10) 10) 3].

(** Objects 5 and 7 are in the tree, in one level-1 octant. *)
Definition twoTracked : list Op :=
  [OpQueueUpdate 5%nat; OpQueueUpdate 7%nat; OpUpdate atOrigin 1].

(** An octant of level 2 with the box [-8,8]^3, a box of size 1 that
    passes its child's cullingBox by one half, and a box of size 1 near
    a corner. *)
Definition octant8 : Octant := Initialize Octant_new None (cube (-8) 8) 2.

Definition boxAtSeam : BoundingBox :=
  mkBoundingBox (mkVector3 (-(25#2)) 0 0)%Q (mkVector3 (-(23#2)) 1 1)%Q.

Definition boxInCorner : BoundingBox := cube (-7) (-6).

Definition boxInside : BoundingBox := cube 1 2.

(** A new Octree whose boundingBox attribute was set. *)
Definition rebounded : Octree :=
  default Octree_new (SetBoundingBoxAttr Octree_new (cube 0 10)).

(** The root of a new Octree. *)
Definition defaultRoot : Octant :=
  Initialize Octant_new None (cube (- DEFAULT_OCTREE_SIZE)%Q DEFAULT_OCTREE_SIZE)
             DEFAULT_OCTREE_LEVELS.

(** Object 5 is in the tree, in an octant of level 1. *)
Definition oneTracked : list Op := [OpQueueUpdate 5%nat; OpUpdate atOrigin 1].

(** A ray that hits every bounding box at distance 1, and objects that
    report one hit, at the distance of their bounding box, when it is
    within the budget. *)
Definition hitAtOne : BoundingBox → Dist := λ _, Finite 1.

Definition allFlags : nodeid → Z := λ _, 1%Z.

Definition reportBoxHit : nodeid → Dist → list RaycastResult :=
  λ n maxDistance,
    if Dltb (Finite 1) maxDistance
    then [mkRaycastResult zeroV zeroV (Finite 1) (Some n) 0] else [].

(** ** More views of the heap *)

(** Two octants agree on their geometry and on their parent. *)
Definition same_geom (o o' : Octant) : Prop :=
  cullingBox o' = cullingBox o ∧ worldBoundingBox o' = worldBoundingBox o ∧
  center o' = center o ∧ halfSize o' = halfSize o ∧ level o' = level o ∧
  parent o' = parent o.

(** What one iteration of the queue loop of Update, for the object [n],
    makes of the octants: an octant that stays keeps its geometry, and
    if it is not marked sortDirty afterwards it was not before and its
    object list is the old one, possibly without [n]; a new octant that
    is not marked sortDirty holds no object. *)
Definition stepView (n : nodeid) (h h' : gmap addr Octant) : Prop :=
  ∀ b o', h' !! b = Some o' →
    match h !! b with
    | Some o => same_geom o o' ∧
                (sortDirty o' = false →
                 sortDirty o = false ∧
                 (nodes o' = nodes o ∨ nodes o' = eraseFirst n (nodes o)))
    | None => sortDirty o' = false → nodes o' = []
    end.

(** The object lists that are not marked sortDirty are in ascending
    order of address. *)
Definition sortedLists (h : gmap addr Octant) : Prop :=
  ∀ a o, h !! a = Some o → sortDirty o = false → Sorted Nat.le (nodes o).

(** The octant of level 1 that holds the objects 5 and 7 of the scenario
    [twoTracked], and its address. *)
Definition leafAddr : addr := 7%nat.

Definition leafOctant : Octant :=
  default Octant_new (octants (runFrom twoTracked) !! leafAddr).

(** ** The attribute getters *)

(** Octree::BoundingBoxAttr *)
Definition BoundingBoxAttr (s : Octree) : option BoundingBox :=
  r ← octants s !! ROOT; Some (worldBoundingBox r).

(** Octree::NumLevelsAttr *)
Definition NumLevelsAttr (s : Octree) : option Z :=
  r ← octants s !! ROOT; Some (level r).


(** ** More of the queries *)




(** The state with the root's worldBoundingBox overwritten, as
    SetBoundingBoxAttr leaves it. *)
Definition withRootBox (boundingBox : BoundingBox) (s : Octree) : Octree :=
  set_octants s (alter (λ r, set_worldBoundingBox r boundingBox) ROOT (octants s)).

(** ** Objects whose OnRaycast does not keep to their bounding box *)

(** Object 5 is a point at (1,1,1) and object 7 a point at (3,3,3), both
    in the tree. *)
Definition boxesOnRay : nodeid → BoundingBox :=
  λ n, if decide (n = 5%nat) then cube 1 1 else cube 3 3.

Definition twoOnRay : list Op :=
  [OpQueueUpdate 5%nat; OpQueueUpdate 7%nat; OpUpdate boxesOnRay 1].

(** A ray that hits a box at the distance of its minimum x, and at
    distance 0 when that is negative. *)
Definition alongX : BoundingBox → Dist :=
  λ b, if Qltb (vx (bmin b)) 0 then Finite 0 else Finite (vx (bmin b)).

(** Object 7 reports a hit at distance 1/2, before the distance 3 of its
    bounding box; object 5 reports a hit at distance 5/2. *)
Definition hitBeforeBox : nodeid → Dist → list RaycastResult :=
  λ n _, if decide (n = 5%nat)
         then [mkRaycastResult zeroV zeroV (Finite (5#2)) (Some n) 0]
         else [mkRaycastResult zeroV zeroV (Finite (1#2)) (Some n) 0].

(** Every object reports a hit at distance 1, whatever the distance of
    its bounding box and the budget. *)
Definition hitAnyway : nodeid → Dist → list RaycastResult :=
  λ n _, [mkRaycastResult zeroV zeroV (Finite 1) (Some n) 0].


(** * The same operations in single precision

    The definitions above take the coordinate arithmetic of Octree.cpp as
    exact.  The module [F32] has the operations again with the arithmetic
    of the source: coordinates are IEEE 754 binary32 numbers (C++
    [float]), every addition, subtraction and multiplication rounds to
    nearest, ties to even, and comparisons are those of IEEE 754 (false
    on NaN).  The numbers and their operations are those of the Standard
    Library's [SpecFloat] at precision 24 and maximal exponent 128.  The
    pointer structure, the queue and the counters are modelled as above. *)
Module F32.

Definition float : Type := SpecFloat.spec_float.

Definition prec : Z := 24.
Definition emax : Z := 128.

Definition fadd (a b : float) : float := SpecFloat.SFadd prec emax a b.
Definition fsub (a b : float) : float := SpecFloat.SFsub prec emax a b.
Definition fmul (a b : float) : float := SpecFloat.SFmul prec emax a b.
Definition fltb (a b : float) : bool := SpecFloat.SFltb a b.
Definition fleb (a b : float) : bool := SpecFloat.SFleb a b.

(** The binary32 number nearest to [m * 2^e]; [ofZ] for an integer
    literal.  [half] is the literal 0.5f. *)
Definition dyadic (m e : Z) : float := SpecFloat.binary_normalize prec emax m e false.
Definition ofZ (z : Z) : float := dyadic z 0.
Definition half : float := dyadic 1 (-1).
Definition fzero : float := SpecFloat.S754_zero false.

(** ** Math types (Math/Vector3.h, Math/BoundingBox.h) *)

(** Modelled from the spec: the math types are not among the sources. *)
Record Vector3 := mkVector3 { vx : float; vy : float; vz : float }.

Record BoundingBox := mkBoundingBox { bmin : Vector3; bmax : Vector3 }.

Definition v3add (a b : Vector3) : Vector3 :=
  mkVector3 (fadd (vx a) (vx b)) (fadd (vy a) (vy b)) (fadd (vz a) (vz b)).

Definition v3sub (a b : Vector3) : Vector3 :=
  mkVector3 (fsub (vx a) (vx b)) (fsub (vy a) (vy b)) (fsub (vz a) (vz b)).

Definition v3scale (a : Vector3) (k : float) : Vector3 :=
  mkVector3 (fmul (vx a) k) (fmul (vy a) k) (fmul (vz a) k).

(** Modelled from the spec: Math/BoundingBox.h is not among the sources.
    [Center] is (max + min) * 0.5f, [HalfSize] is (max - min) * 0.5f and
    [Size] is max - min, each operation rounded. *)
Definition Center (b : BoundingBox) : Vector3 := v3scale (v3add (bmax b) (bmin b)) half.

Definition HalfSize (b : BoundingBox) : Vector3 := v3scale (v3sub (bmax b) (bmin b)) half.

Definition Size (b : BoundingBox) : Vector3 := v3sub (bmax b) (bmin b).

Definition IsInside (this box : BoundingBox) : Intersection :=
  if fltb (vx (bmax box)) (vx (bmin this)) || fltb (vx (bmax this)) (vx (bmin box)) ||
     fltb (vy (bmax box)) (vy (bmin this)) || fltb (vy (bmax this)) (vy (bmin box)) ||
     fltb (vz (bmax box)) (vz (bmin this)) || fltb (vz (bmax this)) (vz (bmin box))
  then OUTSIDE
  else if fltb (vx (bmin box)) (vx (bmin this)) || fltb (vx (bmax this)) (vx (bmax box)) ||
          fltb (vy (bmin box)) (vy (bmin this)) || fltb (vy (bmax this)) (vy (bmax box)) ||
          fltb (vz (bmin box)) (vz (bmin this)) || fltb (vz (bmax this)) (vz (bmax box))
  then INTERSECTS
  else INSIDE.

(** ** Octant *)

Record Octant := mkOctant {
  cullingBox : BoundingBox;
  worldBoundingBox : BoundingBox;
  center : Vector3;
  halfSize : Vector3;
  level : Z;
  nodes : list nodeid;
  children : list (option addr);
  parent : option addr;
  numNodes : Z;
  sortDirty : bool
}.

Definition zeroV : Vector3 := mkVector3 fzero fzero fzero.

(** Octant::Octant() *)
Definition Octant_new : Octant :=
  mkOctant (mkBoundingBox zeroV zeroV) (mkBoundingBox zeroV zeroV) zeroV zeroV 0%Z
           [] (replicate NUM_OCTANTS None) None 0%Z false.

(** Octant::Initialize *)
Definition Initialize (o : Octant) (parent_ : option addr) (boundingBox : BoundingBox)
    (level_ : Z) : Octant :=
  let center_ := Center boundingBox in
  let hs := HalfSize boundingBox in
  mkOctant (mkBoundingBox (v3sub (bmin boundingBox) hs) (v3add (bmax boundingBox) hs))
           boundingBox center_ hs level_
           (nodes o) (children o) parent_ (numNodes o) (sortDirty o).

(** Octant::FitBoundingBox *)
Definition FitBoundingBox (o : Octant) (box : BoundingBox) (boxSize : Vector3) : bool :=
  if (level o <=? 1)%Z || fleb (vx (halfSize o)) (vx boxSize)
     || fleb (vy (halfSize o)) (vy boxSize) || fleb (vz (halfSize o)) (vz boxSize)
  then true
  else if fleb (vx (bmin box))
               (fsub (vx (bmin (worldBoundingBox o))) (fmul half (vx (halfSize o))))
          || fleb (vy (bmin box))
                  (fsub (vy (bmin (worldBoundingBox o))) (fmul half (vy (halfSize o))))
          || fleb (vz (bmin box))
                  (fsub (vz (bmin (worldBoundingBox o))) (fmul half (vz (halfSize o))))
          || fleb (fadd (vx (bmax (worldBoundingBox o))) (fmul half (vx (halfSize o))))
                  (vx (bmax box))
          || fleb (fadd (vy (bmax (worldBoundingBox o))) (fmul half (vy (halfSize o))))
                  (vy (bmax box))
          || fleb (fadd (vz (bmax (worldBoundingBox o))) (fmul half (vz (halfSize o))))
                  (vz (bmax box))
  then true
  else false.

(** Modelled from the spec: Octant::ChildIndex is declared in Octree.h,
    which is not among the sources.  The index has one bit per axis, set
    when the position is not below the octant's center on that axis. *)
Definition ChildIndex (o : Octant) (position : Vector3) : nat :=
  ((if fltb (vx position) (vx (center o)) then 0 else 1) +
   (if fltb (vy position) (vy (center o)) then 0 else 2) +
   (if fltb (vz position) (vz (center o)) then 0 else 4))%nat.

(** The bounding box that Octree::CreateChildOctant gives to child [index]. *)
Definition childBox (o : Octant) (index : nat) : BoundingBox :=
  let newMin := bmin (worldBoundingBox o) in
  let newMax := bmax (worldBoundingBox o) in
  let oldCenter := center o in
  let '(minx, maxx) := if Nat.testbit index 0 then (vx oldCenter, vx newMax)
                       else (vx newMin, vx oldCenter) in
  let '(miny, maxy) := if Nat.testbit index 1 then (vy oldCenter, vy newMax)
                       else (vy newMin, vy oldCenter) in
  let '(minz, maxz) := if Nat.testbit index 2 then (vz oldCenter, vz newMax)
                       else (vz newMin, vz oldCenter) in
  mkBoundingBox (mkVector3 minx miny minz) (mkVector3 maxx maxy maxz).

Definition set_nodes (o : Octant) (l : list nodeid) : Octant :=
  mkOctant (cullingBox o) (worldBoundingBox o) (center o) (halfSize o) (level o)
           l (children o) (parent o) (numNodes o) (sortDirty o).

Definition set_children (o : Octant) (c : list (option addr)) : Octant :=
  mkOctant (cullingBox o) (worldBoundingBox o) (center o) (halfSize o) (level o)
           (nodes o) c (parent o) (numNodes o) (sortDirty o).

Definition set_numNodes (o : Octant) (k : Z) : Octant :=
  mkOctant (cullingBox o) (worldBoundingBox o) (center o) (halfSize o) (level o)
           (nodes o) (children o) (parent o) k (sortDirty o).

Definition set_sortDirty (o : Octant) (b : bool) : Octant :=
  mkOctant (cullingBox o) (worldBoundingBox o) (center o) (halfSize o) (level o)
           (nodes o) (children o) (parent o) (numNodes o) b.

(** ** Octree state *)

Record Octree := mkOctree {
  octants : gmap addr Octant;
  updateQueue : list (option nodeid);
  sortDirtyOctants : list addr;
  octantOf : gmap nodeid addr;
  queuedFlag : gset nodeid;
  lastUpdateFrameNumber : gmap nodeid Z
}.

Definition set_octants (s : Octree) (h : gmap addr Octant) : Octree :=
  mkOctree h (updateQueue s) (sortDirtyOctants s) (octantOf s) (queuedFlag s)
           (lastUpdateFrameNumber s).

Definition DEFAULT_OCTREE_SIZE : float := ofZ 1000.

Definition cube (lo hi : float) : BoundingBox :=
  mkBoundingBox (mkVector3 lo lo lo) (mkVector3 hi hi hi).

(** Octree::Octree() *)
Definition Octree_new : Octree :=
  mkOctree {[ ROOT := Initialize Octant_new None
                        (cube (SpecFloat.SFopp DEFAULT_OCTREE_SIZE) DEFAULT_OCTREE_SIZE)
                        DEFAULT_OCTREE_LEVELS ]}
           [] [] ∅ ∅ ∅.

Definition depthFuel (h : gmap addr Octant) : nat :=
  match h !! ROOT with
  | Some r => S (Z.to_nat (level r))
  | None => 0%nat
  end.

(** Modelled from the spec: the pool allocator (Base/Allocator.h) is not
    among the sources; as above. *)
Definition Allocate (h : gmap addr Octant) : addr := fresh (dom h).

(** Octree::CreateChildOctant *)
Definition CreateChildOctant (h : gmap addr Octant) (a : addr) (index : nat)
    : option (gmap addr Octant * addr) :=
  o ← h !! a;
  match children o !! index with
  | Some (Some c) => Some (h, c)
  | Some None =>
      let c := Allocate h in
      let child := Initialize Octant_new (Some a) (childBox o index) (level o - 1) in
      Some (<[a := set_children o (<[index := Some c]> (children o))]> (<[c := child]> h), c)
  | None => None
  end.

(** Octree::DeleteChildOctant *)
Definition DeleteChildOctant (h : gmap addr Octant) (a : addr) (index : nat)
    : option (gmap addr Octant) :=
  o ← h !! a;
  match children o !! index with
  | Some (Some c) =>
      _ ← h !! c;
      let h1 := delete c h in
      o1 ← h1 !! a;
      Some (<[a := set_children o1 (<[index := None]> (children o1))]> h1)
  | _ => None
  end.

Fixpoint incBranch (fuel : nat) (h : gmap addr Octant) (cur : option addr)
    : option (gmap addr Octant) :=
  match cur with
  | None => Some h
  | Some a =>
      match fuel with
      | O => None
      | S f =>
          o ← h !! a;
          incBranch f (<[a := set_numNodes o (numNodes o + 1)]> h) (parent o)
      end
  end.

(** Octree::AddNode *)
Definition AddNode (s : Octree) (node : nodeid) (a : addr) : option Octree :=
  o ← octants s !! a;
  let o1 := set_nodes o (nodes o ++ [node]) in
  let o2 := if sortDirty o1 then o1 else set_sortDirty o1 true in
  let dirty := if sortDirty o1 then sortDirtyOctants s else sortDirtyOctants s ++ [a] in
  h ← incBranch (depthFuel (octants s)) (<[a := o2]> (octants s)) (Some a);
  Some (mkOctree h (updateQueue s) dirty (<[node := a]> (octantOf s)) (queuedFlag s)
                 (lastUpdateFrameNumber s)).

(** The inner loop of Octree::RemoveNode(node, octant): the slot to
    erase is ChildIndex of the emptied octant's center in its parent. *)
Fixpoint decBranch (fuel : nat) (h : gmap addr Octant) (cur : option addr)
    : option (gmap addr Octant) :=
  match cur with
  | None => Some h
  | Some a =>
      match fuel with
      | O => None
      | S f =>
          o ← h !! a;
          let o1 := set_numNodes o (numNodes o - 1) in
          let h1 := <[a := o1]> h in
          match parent o1 with
          | Some next =>
              if (numNodes o1 =? 0)%Z then
                po ← h1 !! next;
                h2 ← DeleteChildOctant h1 next (ChildIndex po (center o1));
                decBranch f h2 (Some next)
              else decBranch f h1 (Some next)
          | None => decBranch f h1 None
          end
      end
  end.

(** Octree::RemoveNode(node, octant), the two-argument overload *)
Definition RemoveNodeFrom (h : gmap addr Octant) (node : nodeid) (octant : option addr)
    : option (gmap addr Octant) :=
  match octant with
  | None => Some h
  | Some a =>
      o ← h !! a;
      if decide (node ∈ nodes o) then
        decBranch (depthFuel h) (<[a := set_nodes o (eraseFirst node (nodes o))]> h) (Some a)
      else Some h
  end.

(** Octree::QueueUpdate *)
Definition QueueUpdate (s : Octree) (node : nodeid) : Octree :=
  mkOctree (octants s) (updateQueue s ++ [Some node]) (sortDirtyOctants s) (octantOf s)
           ({[node]} ∪ queuedFlag s) (lastUpdateFrameNumber s).

(** Octree::CancelUpdate *)
Definition CancelUpdate (s : Octree) (node : nodeid) : Octree :=
  mkOctree (octants s) (tombstone node (updateQueue s)) (sortDirtyOctants s) (octantOf s)
           (queuedFlag s ∖ {[node]}) (lastUpdateFrameNumber s).

(** Octree::RemoveNode(node) *)
Definition RemoveNode (s : Octree) (node : nodeid) : option Octree :=
  h ← RemoveNodeFrom (octants s) node (octantOf s !! node);
  let s1 := set_octants s h in
  let s2 := if decide (node ∈ queuedFlag s1) then CancelUpdate s1 node else s1 in
  Some (mkOctree (octants s2) (updateQueue s2) (sortDirtyOctants s2)
                 (delete node (octantOf s2)) (queuedFlag s2) (lastUpdateFrameNumber s2)).

(** The decision [insertHere] of Octree::Update; [boxSize] is box.Size()
    as Update computed it. *)
Definition insertHere (isRoot : bool) (o : Octant) (box : BoundingBox) (boxSize : Vector3)
    : bool :=
  if isRoot
  then negb (is_INSIDE (IsInside (cullingBox o) box)) || FitBoundingBox o box boxSize
  else FitBoundingBox o box boxSize.

(** The reinsert loop of Octree::Update; [boxCenter] is box.Center(). *)
Fixpoint descend (fuel : nat) (h : gmap addr Octant) (newOctant : addr) (box : BoundingBox)
    (boxSize boxCenter : Vector3) : option (gmap addr Octant * addr) :=
  match fuel with
  | O => None
  | S f =>
      o ← h !! newOctant;
      if insertHere (bool_decide (newOctant = ROOT)) o box boxSize then Some (h, newOctant)
      else
        '(h1, c) ← CreateChildOctant h newOctant (ChildIndex o boxCenter);
        descend f h1 c box boxSize boxCenter
  end.

(** The test "still fits the current octant" of Octree::Update. *)
Definition stillFits (h : gmap addr Octant) (oldOctant : option addr) (box : BoundingBox)
    (boxSize : Vector3) : option bool :=
  match oldOctant with
  | None => Some false
  | Some a =>
      o ← h !! a;
      Some (is_INSIDE (IsInside (cullingBox o) box) && FitBoundingBox o box boxSize)
  end.

(** One iteration of the queue loop of Octree::Update, for a non-null
    entry. *)
Definition updateNode (WorldBoundingBox : nodeid → BoundingBox) (frameNumber : Z)
    (s : Octree) (node : nodeid) : option Octree :=
  let s0 := mkOctree (octants s) (updateQueue s) (sortDirtyOctants s) (octantOf s)
                     (queuedFlag s ∖ {[node]})
                     (<[node := frameNumber]> (lastUpdateFrameNumber s)) in
  let box := WorldBoundingBox node in
  let boxSize := Size box in
  let oldOctant := octantOf s0 !! node in
  fits ← stillFits (octants s0) oldOctant box boxSize;
  if (fits : bool) then Some s0
  else
    let boxCenter := Center box in
    '(h1, newOctant) ← descend (depthFuel (octants s0)) (octants s0) ROOT box boxSize boxCenter;
    let s1 := set_octants s0 h1 in
    if decide (Some newOctant = oldOctant) then Some s1
    else
      s2 ← AddNode s1 node newOctant;
      h3 ← RemoveNodeFrom (octants s2) node oldOctant;
      Some (set_octants s2 h3).

Fixpoint updateLoop (WorldBoundingBox : nodeid → BoundingBox) (frameNumber : Z)
    (q : list (option nodeid)) (s : Octree) : option Octree :=
  match q with
  | [] => Some s
  | None :: q' => updateLoop WorldBoundingBox frameNumber q' s
  | Some node :: q' =>
      s1 ← updateNode WorldBoundingBox frameNumber s node;
      updateLoop WorldBoundingBox frameNumber q' s1
  end.

Fixpoint sortLoop (l : list addr) (h : gmap addr Octant) : option (gmap addr Octant) :=
  match l with
  | [] => Some h
  | a :: l' =>
      o ← h !! a;
      sortLoop l' (<[a := set_sortDirty (set_nodes o (merge_sort Nat.le (nodes o))) false]> h)
  end.

(** Octree::Update *)
Definition Update (WorldBoundingBox : nodeid → BoundingBox) (frameNumber : Z) (s : Octree)
    : option Octree :=
  s1 ← updateLoop WorldBoundingBox frameNumber (updateQueue s) s;
  h ← sortLoop (sortDirtyOctants s1) (octants s1);
  Some (mkOctree h [] [] (octantOf s1) (queuedFlag s1) (lastUpdateFrameNumber s1)).

(** Octree::CollectNodes(result, octant) *)
Fixpoint CollectNodes (fuel : nat) (h : gmap addr Octant) (a : addr) : option (list nodeid) :=
  match fuel with
  | O => None
  | S f =>
      o ← h !! a;
      rest ← mapM (λ c : option addr,
                     match c with
                     | Some ca => CollectNodes f h ca
                     | None => Some []
                     end) (children o);
      Some (nodes o ++ concat rest)
  end.

Definition detachNodes (s : Octree) (l : list nodeid) : Octree :=
  mkOctree (octants s) (updateQueue s) (sortDirtyOctants s)
           (foldr delete (octantOf s) l) (queuedFlag s ∖ list_to_set l)
           (lastUpdateFrameNumber s).

Fixpoint deleteChildren (rec : addr → Octree → option Octree) (a : addr)
    (indices : list nat) (s : Octree) : option Octree :=
  match indices with
  | [] => Some s
  | i :: rest =>
      o ← octants s !! a;
      match children o !! i with
      | Some (Some c) =>
          s1 ← rec c s;
          o1 ← octants s1 !! a;
          deleteChildren rec a rest
            (set_octants s1 (<[a := set_children o1 (<[i := None]> (children o1))]> (octants s1)))
      | Some None => deleteChildren rec a rest s
      | None => None
      end
  end.

(** Octree::DeleteChildOctants with deletingOctree = false *)
Fixpoint DeleteChildOctants (fuel : nat) (a : addr) (s : Octree) : option Octree :=
  match fuel with
  | O => None
  | S f =>
      o ← octants s !! a;
      let s1 := detachNodes s (nodes o) in
      let s2 := set_octants s1 (<[a := set_numNodes (set_nodes o []) 0]> (octants s1)) in
      s3 ← deleteChildren (DeleteChildOctants f) a (seq 0 NUM_OCTANTS) s2;
      if decide (a = ROOT) then Some s3
      else
        _ ← octants s3 !! a;
        Some (set_octants s3 (delete a (octants s3)))
  end.

(** Octree::Resize *)
Definition Resize (s : Octree) (boundingBox : BoundingBox) (numLevels : Z) : option Octree :=
  collected ← CollectNodes (depthFuel (octants s)) (octants s) ROOT;
  let s1 := mkOctree (octants s) (Some <$> collected) (sortDirtyOctants s) (octantOf s)
                     (queuedFlag s) (lastUpdateFrameNumber s) in
  s2 ← DeleteChildOctants (depthFuel (octants s1)) ROOT s1;
  r ← octants s2 !! ROOT;
  let r1 := Initialize r None boundingBox (Clamp numLevels 1 MAX_OCTREE_LEVELS) in
  Some (set_octants s2 {[ ROOT := r1 ]}).

(** ** Sequences of calls *)

Inductive Op :=
| OpUpdate (WorldBoundingBox : nodeid → BoundingBox) (frameNumber : Z)
| OpResize (boundingBox : BoundingBox) (numLevels : Z)
| OpRemoveNode (node : nodeid)
| OpQueueUpdate (node : nodeid)
| OpCancelUpdate (node : nodeid).

Definition exec (op : Op) (s : Octree) : option Octree :=
  match op with
  | OpUpdate wb frameNumber => Update wb frameNumber s
  | OpResize boundingBox numLevels => Resize s boundingBox numLevels
  | OpRemoveNode node => RemoveNode s node
  | OpQueueUpdate node => Some (QueueUpdate s node)
  | OpCancelUpdate node => Some (CancelUpdate s node)
  end.

Fixpoint run (ops : list Op) (s : Octree) : option Octree :=
  match ops with
  | [] => Some s
  | op :: ops' => s1 ← exec op s; run ops' s1
  end.

(** The state after a sequence of calls on a new Octree. *)
Definition runFrom (ops : list Op) : Octree := default Octree_new (run ops Octree_new).

(** The objects that are in the object list of a live octant. *)
Definition listed (s : Octree) (n : nodeid) : Prop :=
  ∃ a o, octants s !! a = Some o ∧ n ∈ nodes o.

(** ** FitBoundingBox in the words of the specification *)

(** The octant's worldBoundingBox grown on every side by half of its
    halfSize, as FitBoundingBox computes the bounds:
    worldBoundingBox.min - 0.5f * halfSize and
    worldBoundingBox.max + 0.5f * halfSize. *)
Definition marginBox (o : Octant) : BoundingBox :=
  mkBoundingBox
    (mkVector3 (fsub (vx (bmin (worldBoundingBox o))) (fmul half (vx (halfSize o))))
               (fsub (vy (bmin (worldBoundingBox o))) (fmul half (vy (halfSize o))))
               (fsub (vz (bmin (worldBoundingBox o))) (fmul half (vz (halfSize o)))))
    (mkVector3 (fadd (vx (bmax (worldBoundingBox o))) (fmul half (vx (halfSize o))))
               (fadd (vy (bmax (worldBoundingBox o))) (fmul half (vy (halfSize o))))
               (fadd (vz (bmax (worldBoundingBox o))) (fmul half (vz (halfSize o))))).

(** (a) the octant is at the minimum subdivision level. *)
Definition minimumLevel (o : Octant) : Prop := (level o ≤ 1)%Z.

(** (b) the size of the box is at least the octant's halfSize on some
    axis. *)
Definition atLeastHalfSize (o : Octant) (boxSize : Vector3) : Prop :=
  fleb (vx (halfSize o)) (vx boxSize) = true ∨
  fleb (vy (halfSize o)) (vy boxSize) = true ∨
  fleb (vz (halfSize o)) (vz boxSize) = true.

(** (c) the box reaches or passes a side of [marginBox] on some axis. *)
Definition reachesMargin (o : Octant) (box : BoundingBox) : Prop :=
  fleb (vx (bmin box)) (vx (bmin (marginBox o))) = true ∨
  fleb (vy (bmin box)) (vy (bmin (marginBox o))) = true ∨
  fleb (vz (bmin box)) (vz (bmin (marginBox o))) = true ∨
  fleb (vx (bmax (marginBox o))) (vx (bmax box)) = true ∨
  fleb (vy (bmax (marginBox o))) (vy (bmax box)) = true ∨
  fleb (vz (bmax (marginBox o))) (vz (bmax box)) = true.

Definition FitBoundingBox_spec (o : Octant) (box : BoundingBox) (boxSize : Vector3) : Prop :=
  minimumLevel o ∨ atLeastHalfSize o boxSize ∨ reachesMargin o box.

(** ** Scenarios *)

(** A tree of two levels over the box [16777218, 16777222]^3, whose
    corners are binary32 numbers two units in the last place apart, with
    object 5 a point at the minimum corner and object 7 a point at the
    maximum corner, both inserted by Update. *)
Definition cornerLo : float := ofZ 16777218.
Definition cornerHi : float := ofZ 16777222.

Definition atCorners : nodeid → BoundingBox :=
  λ n, if decide (n = 5%nat) then cube cornerLo cornerLo else cube cornerHi cornerHi.

Definition twoCorners : list Op :=
  [OpResize (cube cornerLo cornerHi) 2; OpQueueUpdate 5%nat; OpQueueUpdate 7%nat;
   OpUpdate atCorners 1].

(** A tree of eight levels over the box [0.1f, 1000.3f]^3 and an object
    with the box [988.57892, 996.39294]^3 (the binary32 numbers
    16196877 * 2^-14 and 16324902 * 2^-14), inserted by Update. *)
Definition offGridBox : BoundingBox := cube (dyadic 13421773 (-27)) (dyadic 16388915 (-14)).

Definition nearSeam : BoundingBox := cube (dyadic 16196877 (-14)) (dyadic 16324902 (-14)).

Definition offGrid : list Op :=
  [OpResize offGridBox 8; OpQueueUpdate 5%nat; OpUpdate (λ _, nearSeam) 1].

End F32.


(** * Geometry *)

Section GeometryFacts.
Local Open Scope Q_scope.

Lemma Qltb_lt a b : Qltb a b = true <-> a < b.
Proof. unfold Qltb. rewrite Qlt_alt. destruct (a ?= b)%Q; split; congruence. Qed.

Lemma Qltb_ge a b : Qltb a b = false <-> b <= a.
Proof.
  destruct (Qltb a b) eqn:E.
  - apply Qltb_lt in E. split; [discriminate | intros; lra].
  - split; [intros _ | done]. destruct (Qlt_le_dec a b) as [H|H]; [|done].
    apply Qltb_lt in H. congruence.
Qed.

Lemma Qleb_le a b : Qleb a b = true <-> a <= b.
Proof. unfold Qleb. rewrite Qle_alt. destruct (a ?= b)%Q; split; congruence. Qed.

Lemma Qleb_gt a b : Qleb a b = false <-> b < a.
Proof.
  destruct (Qleb a b) eqn:E.
  - apply Qleb_le in E. split; [discriminate | intros; lra].
  - split; [intros _ | done]. destruct (Qlt_le_dec b a) as [H|H]; [done|].
    apply Qleb_le in H. congruence.
Qed.

End GeometryFacts.

Ltac qbool :=
  repeat match goal with
  | H : negb _ = true |- _ => apply negb_true_iff in H
  | H : negb _ = false |- _ => apply negb_false_iff in H
  | H : _ && _ = true |- _ => apply andb_true_iff in H; destruct H as [? H]
  | H : _ || _ = false |- _ => apply orb_false_iff in H; destruct H as [? H]
  | H : Qltb _ _ = true |- _ => apply Qltb_lt in H
  | H : Qltb _ _ = false |- _ => apply Qltb_ge in H
  | H : Qleb _ _ = true |- _ => apply Qleb_le in H
  | H : Qleb _ _ = false |- _ => apply Qleb_gt in H
  | H : (_ <=? _)%Z = true |- _ => apply Z.leb_le in H
  | H : (_ <=? _)%Z = false |- _ => apply Z.leb_gt in H
  end.

Section GeometryFacts2.
Local Open Scope Q_scope.

Lemma IsInside_INSIDE c b :
  is_INSIDE (IsInside c b) = true <->
  insideAxis (vx (bmin c)) (vx (bmax c)) (vx (bmin b)) (vx (bmax b)) /\
  insideAxis (vy (bmin c)) (vy (bmax c)) (vy (bmin b)) (vy (bmax b)) /\
  insideAxis (vz (bmin c)) (vz (bmax c)) (vz (bmin b)) (vz (bmax b)).
Proof.
  unfold IsInside, insideAxis. split.
  - destruct (_ || _) eqn:E1; [discriminate|].
    destruct (_ || _) eqn:E2 in |- *; [discriminate|]. intros _.
    qbool. repeat split; lra.
  - intros [(?&?&?&?) [(?&?&?&?) (?&?&?&?)]].
    repeat match goal with
    | |- context [Qltb ?a ?b] =>
        let E := fresh in destruct (Qltb a b) eqn:E; [apply Qltb_lt in E; lra|clear E]
    end. reflexivity.
Qed.

Lemma INSIDE_contains c b : is_INSIDE (IsInside c b) = true -> contains c b.
Proof.
  rewrite IsInside_INSIDE. unfold insideAxis, contains. intuition.
Qed.

Lemma contains_INSIDE c b : contains c b -> valid_box b -> is_INSIDE (IsInside c b) = true.
Proof.
  rewrite IsInside_INSIDE. unfold insideAxis, contains, valid_box.
  intros (?&?&?&?&?&?) (?&?&?). repeat split; lra.
Qed.


(** What FitBoundingBox tests, as the source writes it. *)
Lemma FitBoundingBox_true o box boxSize :
  FitBoundingBox o box boxSize = true <->
  (level o <= 1)%Z \/
  (vx (halfSize o) <= vx boxSize \/ vy (halfSize o) <= vy boxSize \/
   vz (halfSize o) <= vz boxSize) \/
  (vx (bmin box) <= vx (bmin (worldBoundingBox o)) - (1#2) * vx (halfSize o) \/
   vy (bmin box) <= vy (bmin (worldBoundingBox o)) - (1#2) * vy (halfSize o) \/
   vz (bmin box) <= vz (bmin (worldBoundingBox o)) - (1#2) * vz (halfSize o) \/
   vx (bmax (worldBoundingBox o)) + (1#2) * vx (halfSize o) <= vx (bmax box) \/
   vy (bmax (worldBoundingBox o)) + (1#2) * vy (halfSize o) <= vy (bmax box) \/
   vz (bmax (worldBoundingBox o)) + (1#2) * vz (halfSize o) <= vz (bmax box)).
Proof.
  unfold FitBoundingBox.
  rewrite <- Z.leb_le, <- !Qleb_le.
  repeat match goal with
  | |- context [(?a <=? ?b)%Z] => destruct (a <=? b)%Z
  | |- context [Qleb ?a ?b] => destruct (Qleb a b)
  end; simpl; intuition congruence.
Qed.

Lemma FitBoundingBox_false o box :
  FitBoundingBox o box (Size box) = false ->
  (1 < level o)%Z /\
  (vx (bmax box) - vx (bmin box) < vx (halfSize o) /\
   vy (bmax box) - vy (bmin box) < vy (halfSize o) /\
   vz (bmax box) - vz (bmin box) < vz (halfSize o)) /\
  (vx (bmin (worldBoundingBox o)) - (1#2) * vx (halfSize o) < vx (bmin box) /\
   vy (bmin (worldBoundingBox o)) - (1#2) * vy (halfSize o) < vy (bmin box) /\
   vz (bmin (worldBoundingBox o)) - (1#2) * vz (halfSize o) < vz (bmin box) /\
   vx (bmax box) < vx (bmax (worldBoundingBox o)) + (1#2) * vx (halfSize o) /\
   vy (bmax box) < vy (bmax (worldBoundingBox o)) + (1#2) * vy (halfSize o) /\
   vz (bmax box) < vz (bmax (worldBoundingBox o)) + (1#2) * vz (halfSize o)).
Proof.
  unfold FitBoundingBox, Size, v3sub. simpl.
  destruct (_ || _) eqn:E1; [discriminate|].
  destruct (_ || _) eqn:E2 in |- *; [discriminate|]. intros _.
  qbool. repeat split; solve [lia | lra].
Qed.

Lemma ChildIndex_lt o p : (ChildIndex o p < NUM_OCTANTS)%nat.
Proof.
  unfold ChildIndex, NUM_OCTANTS.
  destruct (Qltb _ _), (Qltb _ _), (Qltb _ _); simpl; lia.
Qed.

(** The child created for slot [i] has its center on the side of the
    parent's center that ChildIndex maps to [i]. *)
Lemma ChildIndex_childBox o i :
  geomOK o -> hpos o -> (i < NUM_OCTANTS)%nat ->
  ChildIndex o (Center (childBox o i)) = i.
Proof.
  destruct o as [cb [[a1 a2 a3] [b1 b2 b3]] c hs lv ns ch pa nn sd].
  unfold geomOK, hpos. simpl. intros (-> & -> & _) (Hx & Hy & Hz) Hi.
  unfold NUM_OCTANTS in Hi. simpl in Hx, Hy, Hz.
  do 8 (destruct i as [|i]; [
    unfold ChildIndex, childBox; simpl;
    repeat match goal with
    | |- context [Qltb ?a ?b] =>
        let E := fresh in destruct (Qltb a b) eqn:E;
        [apply Qltb_lt in E|apply Qltb_ge in E]; simpl in E; try lra
    end; reflexivity |]).
  lia.
Qed.

Lemma Initialize_geomOK o p b l : geomOK (Initialize o p b l).
Proof. repeat split. Qed.

Lemma childBox_hpos o i child :
  geomOK o -> hpos o -> worldBoundingBox child = childBox o i -> geomOK child ->
  hpos child.
Proof.
  destruct o as [cb [[a1 a2 a3] [b1 b2 b3]] c hs lv ns ch pa nn sd].
  unfold geomOK, hpos. simpl. intros (-> & -> & _) (Hx & Hy & Hz) Hw (_ & -> & _).
  rewrite Hw. simpl in Hx, Hy, Hz. unfold childBox.
  destruct (Nat.testbit i 0), (Nat.testbit i 1), (Nat.testbit i 2); simpl;
    repeat split; lra.
Qed.

(** A box that the root would pass down lies in a root with positive
    extent. *)
Lemma root_hpos r box :
  geomOK r -> is_INSIDE (IsInside (cullingBox r) box) = true ->
  FitBoundingBox r box (Size box) = false -> hpos r.
Proof.
  intros Hg Hin Hfit.
  apply FitBoundingBox_false in Hfit. destruct Hfit as (_ & (S1 & S2 & S3) & _).
  apply IsInside_INSIDE in Hin. revert Hg Hin S1 S2 S3.
  destruct r as [cb [[a1 a2 a3] [b1 b2 b3]] c hs lv ns ch pa nn sd].
  destruct box as [[m1 m2 m3] [M1 M2 M3]].
  unfold geomOK, hpos, insideAxis. simpl.
  intros (-> & -> & ->). simpl.
  intros [(?&?&?&?) [(?&?&?&?) (?&?&?&?)]] ? ? ?.
  repeat split; lra.
Qed.

(** The step of the descent: a valid box that does not fit an octant lies
    inside the cullingBox of the child that its center selects. *)
Lemma child_contains o box child :
  geomOK o -> valid_box box ->
  FitBoundingBox o box (Size box) = false ->
  worldBoundingBox child = childBox o (ChildIndex o (Center box)) -> geomOK child ->
  is_INSIDE (IsInside (cullingBox child) box) = true.
Proof.
  intros Hg Hv Hfit Hw (_ & Hh' & Hk').
  apply FitBoundingBox_false in Hfit.
  destruct Hfit as (_ & (S1 & S2 & S3) & (L1 & L2 & L3 & U1 & U2 & U3)).
  apply IsInside_INSIDE. rewrite Hk', Hh', Hw. clear Hk' Hh' Hw.
  revert Hg Hv S1 S2 S3 L1 L2 L3 U1 U2 U3.
  destruct o as [cb [[a1 a2 a3] [b1 b2 b3]] c hs lv ns ch pa nn sd].
  destruct box as [[m1 m2 m3] [M1 M2 M3]].
  unfold geomOK, valid_box, insideAxis. simpl.
  intros (-> & -> & _) (V1 & V2 & V3). simpl. intros.
  unfold ChildIndex, childBox. simpl.
  repeat match goal with
  | |- context [Qltb ?a ?b] =>
      let E := fresh in destruct (Qltb a b) eqn:E;
      [apply Qltb_lt in E|apply Qltb_ge in E]; simpl in E
  end; simpl; repeat split; lra.
Qed.




End GeometryFacts2.


(** * The heap of octants *)

Lemma sumZ_cons x l : sumZ (x :: l) = (x + sumZ l)%Z.
Proof. done. Qed.

Lemma sumZ_fmap_cons (f : option nat → Z) y l : sumZ (f <$> y :: l) = (f y + sumZ (f <$> l))%Z.
Proof. done. Qed.

Lemma sumZ_pointwise (f f' : option nat → Z) (l l' : list (option nat)) :
  length l = length l' →
  (∀ j y y', l !! j = Some y → l' !! j = Some y' → f' y' = f y) →
  sumZ (f' <$> l') = sumZ (f <$> l).
Proof.
  revert l'. induction l as [|z l IH]; intros [|z' l'] Hlen H; try discriminate; [done|].
  rewrite !sumZ_fmap_cons. rewrite (H 0%nat z z'); [|done..]. f_equal.
  apply IH; [simpl in Hlen; lia|]. intros j ?? Hj Hj'. by apply (H (S j)).
Qed.

(** Changing one slot of a list changes the sum by the difference. *)
Lemma sumZ_change (f f' : option nat → Z) (l l' : list (option nat)) i x x' :
  length l = length l' → l !! i = Some x → l' !! i = Some x' →
  (∀ j y y', j ≠ i → l !! j = Some y → l' !! j = Some y' → f' y' = f y) →
  sumZ (f' <$> l') = (sumZ (f <$> l) - f x + f' x')%Z.
Proof.
  revert l' i. induction l as [|y l IH]; intros [|y' l'] i Hlen Hx Hx' Hother;
    try discriminate.
  rewrite !sumZ_fmap_cons. destruct i as [|i].
  - injection Hx as ->. injection Hx' as ->.
    rewrite (sumZ_pointwise f f' l l'); [lia|simpl in Hlen; lia|].
    intros j ?? Hj Hj'. by apply (Hother (S j)).
  - rewrite (Hother 0%nat y y'); [|done..].
    rewrite (IH l' i); [lia | simpl in Hlen; lia | done | done |].
    intros j ? ? ? Hj Hj'. apply (Hother (S j)); [lia|done..].
Qed.

Lemma sumZ_same (f f' : option nat → Z) (l : list (option nat)) :
  (∀ y, y ∈ l → f' y = f y) → sumZ (f' <$> l) = sumZ (f <$> l).
Proof.
  intros H. apply sumZ_pointwise; [done|]. intros j y y' Hj Hj'.
  assert (y = y') as <- by congruence. apply H. by eapply list_elem_of_lookup_2.
Qed.

Lemma sumZ_nonneg (f : option nat → Z) (l : list (option nat)) :
  (∀ y, y ∈ l → (0 ≤ f y)%Z) → (0 ≤ sumZ (f <$> l))%Z.
Proof.
  induction l as [|y l IH]; intros H; [done|]. rewrite sumZ_fmap_cons.
  assert (0 ≤ f y)%Z by (apply H; left).
  assert (0 ≤ sumZ (f <$> l))%Z by (apply IH; intros ??; apply H; by right). lia.
Qed.

Lemma sumZ_pos_elem (f : option nat → Z) (l : list (option nat)) y :
  (∀ y, y ∈ l → (0 ≤ f y)%Z) → y ∈ l → (f y ≤ sumZ (f <$> l))%Z.
Proof.
  induction l as [|z l IH]; intros H Hy; [by apply elem_of_nil in Hy|].
  rewrite sumZ_fmap_cons. assert (0 ≤ f z)%Z by (apply H; left).
  assert (0 ≤ sumZ (f <$> l))%Z by (apply sumZ_nonneg; intros ??; apply H; by right).
  apply elem_of_cons in Hy as [->|Hy]; [lia|].
  assert (f y ≤ sumZ (f <$> l))%Z; [|lia]. apply IH; [|done]. intros ??. apply H. by right.
Qed.

(** ** Relations between heaps *)

Lemma oF2_fwd (R : Octant → Octant → Prop) x y o :
  option_Forall2 R x y → x = Some o → ∃ o', y = Some o' ∧ R o o'.
Proof. intros H ->. inversion H; subst. eauto. Qed.

Lemma oF2_bwd (R : Octant → Octant → Prop) x y o' :
  option_Forall2 R x y → y = Some o' → ∃ o, x = Some o ∧ R o o'.
Proof. intros H ->. inversion H; subst. eauto. Qed.

Lemma oF2_None (R : Octant → Octant → Prop) x : option_Forall2 R x None → x = None.
Proof. intros H. by inversion H. Qed.


Lemma heap_rel_refl (R : Octant → Octant → Prop) h : (∀ o, R o o) → heap_rel R h h.
Proof. intros HR b. destruct (h !! b); constructor. apply HR. Qed.

Lemma heap_rel_trans (R : Octant → Octant → Prop) h1 h2 h3 :
  (∀ o1 o2 o3, R o1 o2 → R o2 o3 → R o1 o3) →
  heap_rel R h1 h2 → heap_rel R h2 h3 → heap_rel R h1 h3.
Proof.
  intros HR H12 H23 b. specialize (H12 b). specialize (H23 b).
  destruct H12 as [o1 o2 H12|]; inversion H23; subst; constructor. eauto.
Qed.

Lemma heap_rel_impl (R R' : Octant → Octant → Prop) h h' :
  (∀ o o', R o o' → R' o o') → heap_rel R h h' → heap_rel R' h h'.
Proof. intros HR H b. destruct (H b); constructor; auto. Qed.

Lemma heap_rel_fwd (R : Octant → Octant → Prop) h h' b o :
  heap_rel R h h' → h !! b = Some o → ∃ o', h' !! b = Some o' ∧ R o o'.
Proof. intros H Hb. specialize (H b). rewrite Hb in H. inversion H; subst. eauto. Qed.

Lemma heap_rel_bwd (R : Octant → Octant → Prop) h h' b o' :
  heap_rel R h h' → h' !! b = Some o' → ∃ o, h !! b = Some o ∧ R o o'.
Proof. intros H Hb. specialize (H b). rewrite Hb in H. inversion H; subst. eauto. Qed.

Lemma heap_rel_insert (R : Octant → Octant → Prop) h a o o' :
  (∀ o, R o o) → h !! a = Some o → R o o' → heap_rel R h (<[a := o']> h).
Proof.
  intros HR Ha Hoo b. destruct (decide (a = b)) as [<-|Hne].
  - rewrite lookup_insert_eq, Ha. by constructor.
  - rewrite lookup_insert_ne by done. destruct (h !! b); constructor. apply HR.
Qed.

Lemma same_skel_refl o : same_skel o o.
Proof. by repeat split. Qed.

Lemma same_skel_trans o1 o2 o3 : same_skel o1 o2 → same_skel o2 o3 → same_skel o1 o3.
Proof.
  intros (?&?&?&?&?&?&?) (?&?&?&?&?&?&?). repeat split; congruence.
Qed.

Lemma same_skel_sym o1 o2 : same_skel o1 o2 → same_skel o2 o1.
Proof. intros (?&?&?&?&?&?&?). repeat split; congruence. Qed.

Lemma same_but_count_refl o : same_but_count o o.
Proof. by destruct o. Qed.

Lemma same_but_count_trans o1 o2 o3 :
  same_but_count o1 o2 → same_but_count o2 o3 → same_but_count o1 o3.
Proof. unfold same_but_count. intros -> ->. by destruct o1. Qed.

Lemma same_but_count_skel o o' : same_but_count o o' → same_skel o o'.
Proof. intros ->. by repeat split. Qed.

Lemma heap_rel_sym_skel h h' : heap_rel same_skel h h' → heap_rel same_skel h' h.
Proof. intros H b. destruct (H b); constructor. by apply same_skel_sym. Qed.

(** ** Ancestors *)

Lemma anc_inv h b a :
  anc h b a → b = a ∨ ∃ o p, h !! b = Some o ∧ parent o = Some p ∧ anc h p a.
Proof. destruct 1; [by left|right; eauto]. Qed.

Lemma anc_parent h b o p a :
  h !! b = Some o → parent o = Some p → anc h b a → b = a ∨ anc h p a.
Proof.
  intros Hb Hp H. apply anc_inv in H as [->|(o'&p'&Hb'&Hp'&H)]; [by left|].
  right. congruence.
Qed.

Lemma anc_root_parentless h a o b :
  h !! a = Some o → parent o = None → anc h a b → b = a.
Proof.
  intros Ha Hp H. apply anc_inv in H as [->|(o'&p'&Hb'&Hp'&H)]; [done|]. congruence.
Qed.

Lemma anc_skel h h' b a : heap_rel same_skel h h' → anc h b a → anc h' b a.
Proof.
  intros Hrel. induction 1 as [|b o p a Hb Hp _ IH]; [constructor|].
  destruct (heap_rel_fwd _ _ _ _ _ Hrel Hb) as (o'&Hb'&Hs).
  eapply anc_step; [done| |done]. destruct Hs as (?&?&?&?&?&?&?). congruence.
Qed.

Lemma anc_trans h a b c : anc h a b → anc h b c → anc h a c.
Proof. induction 1; [done|]. intros. eapply anc_step; eauto. Qed.

(** ** Shape *)

Lemma shape_skel h h' : heap_rel same_skel h h' → shape h → shape h'.
Proof.
  intros Hrel [Hroot Hlen Hlev Hgeom Hpar Hch].
  assert (Hb : ∀ b o', h' !! b = Some o' → ∃ o, h !! b = Some o ∧ same_skel o o')
    by (intros; by eapply heap_rel_bwd).
  assert (Hf : ∀ b o, h !! b = Some o → ∃ o', h' !! b = Some o' ∧ same_skel o o')
    by (intros; by eapply heap_rel_fwd).
  split.
  - destruct Hroot as (r&Hr&Hp). destruct (Hf _ _ Hr) as (r'&Hr'&Hs).
    exists r'. split; [done|]. destruct Hs as (?&?&?&?&?&?&?). congruence.
  - intros a o' Ha. destruct (Hb _ _ Ha) as (o&Ho&Hs).
    destruct Hs as (?&?&?&?&?&->&?). eauto.
  - intros a o' r' Ha Hr'. destruct (Hb _ _ Ha) as (o&Ho&Hs).
    destruct (Hb _ _ Hr') as (r&Hr&Hsr).
    destruct Hs as (?&?&?&?&->&?&?). destruct Hsr as (?&?&?&?&->&?&?). eauto.
  - intros a o' Ha. destruct (Hb _ _ Ha) as (o&Ho&Hs).
    destruct Hs as (Hk&Hw&Hc&Hh&?&?&?). unfold geomOK. rewrite Hk, Hw, Hc, Hh.
    by eapply Hgeom.
  - intros a o' Ha Hne. destruct (Hb _ _ Ha) as (o&Ho&Hs).
    destruct (Hpar _ _ Ho Hne) as (p&po&Hp&Hpo&Hslot).
    destruct (Hf _ _ Hpo) as (po'&Hpo'&Hsp).
    exists p, po'. destruct Hs as (?&?&Hc&?&?&?&->). split; [done|]. split; [done|].
    destruct Hsp as (?&?&Hpc&?&?&->&?). rewrite Hc. unfold ChildIndex in *.
    by rewrite Hpc.
  - intros a o' i c Ha Hi. destruct (Hb _ _ Ha) as (o&Ho&Hs).
    assert (Hi' : children o !! i = Some (Some c)).
    { destruct Hs as (?&?&?&?&?&<-&?). done. }
    destruct (Hch _ _ _ _ Ho Hi') as (Hne&Hpos&co&Hco&Hcp&Hcl&Hcw&Hci).
    destruct (Hf _ _ Hco) as (co'&Hco'&Hsc).
    split; [done|]. split.
    { destruct Hs as (?&?&?&Hh&?&?&?). unfold hpos. by rewrite Hh. }
    exists co'. split; [done|].
    destruct Hs as (?&Hw&Hc&?&Hl&?&?). destruct Hsc as (?&Hcw'&Hcc'&?&Hcl'&?&Hcp').
    rewrite Hcp', Hcl', Hcw', Hcc', Hl. repeat split; try done.
    + rewrite Hcw. unfold childBox. by rewrite Hw, Hc.
    + rewrite <- Hci. unfold ChildIndex. by rewrite Hc.
Qed.

(** A child is not its own parent, and sits in one slot only. *)
Lemma shape_child_ne h a o i c :
  shape h → h !! a = Some o → children o !! i = Some (Some c) → c ≠ a.
Proof.
  intros Hs Ha Hi ->. destruct (shape_child _ Hs _ _ _ _ Ha Hi) as (_&_&co&Hco&_&Hl&_).
  rewrite Ha in Hco. injection Hco as <-. lia.
Qed.

Lemma shape_slot_unique h a o i j c :
  shape h → h !! a = Some o → children o !! i = Some (Some c) →
  children o !! j = Some (Some c) → i = j.
Proof.
  intros Hs Ha Hi Hj.
  destruct (shape_child _ Hs _ _ _ _ Ha Hi) as (_&_&co&Hco&_&_&_&Hci).
  destruct (shape_child _ Hs _ _ _ _ Ha Hj) as (_&_&co'&Hco'&_&_&_&Hcj).
  congruence.
Qed.

Lemma shape_child_parent h a o b ob c :
  shape h → h !! a = Some o → Some c ∈ children o →
  h !! c = Some ob → parent ob = Some b → b = a.
Proof.
  intros Hs Ha Hin Hc Hp. apply list_elem_of_lookup in Hin as (i&Hi).
  destruct (shape_child _ Hs _ _ _ _ Ha Hi) as (_&_&co&Hco&Hcp&_). congruence.
Qed.

Lemma shape_parent_level h a o p po :
  shape h → h !! a = Some o → parent o = Some p → h !! p = Some po →
  level o = (level po - 1)%Z ∧ a ≠ ROOT ∧ a ≠ p.
Proof.
  intros Hs Ha Hp Hpo.
  assert (a ≠ ROOT).
  { intros ->. destruct (shape_root _ Hs) as (r&Hr&Hrp). congruence. }
  destruct (shape_parent _ Hs _ _ Ha H) as (p'&po'&Hp'&Hpo'&Hslot).
  assert (p' = p) as -> by congruence. assert (po' = po) as -> by congruence.
  destruct (shape_child _ Hs _ _ _ _ Hpo Hslot) as (_&_&co&Hco&_&Hl&_).
  assert (co = o) as -> by congruence. split; [done|]. split; [done|].
  intros ->. assert (po = o) by congruence. subst. lia.
Qed.

Lemma shape_root_only_parentless h a o :
  shape h → h !! a = Some o → parent o = None → a = ROOT.
Proof.
  intros Hs Ha Hp. destruct (decide (a = ROOT)) as [|Hne]; [done|].
  destruct (shape_parent _ Hs _ _ Ha Hne) as (p&po&Hp'&_). congruence.
Qed.

(** Induction from the root downwards over the live octants. *)
Lemma live_ind h (P : nat → Prop) :
  shape h → P ROOT →
  (∀ a o p, h !! a = Some o → parent o = Some p → a ≠ ROOT → P p → P a) →
  ∀ a o, h !! a = Some o → P a.
Proof.
  intros Hs Hroot Hstep. destruct (shape_root _ Hs) as (r&Hr&Hrp).
  assert (H : ∀ k a o, h !! a = Some o → (Z.to_nat (level r - level o) < k)%nat → P a).
  { induction k as [|k IH]; intros a o Ha Hk; [lia|].
    destruct (decide (a = ROOT)) as [->|Hne]; [done|].
    destruct (shape_parent _ Hs _ _ Ha Hne) as (p&po&Hp&Hpo&_).
    eapply Hstep; [done..|]. eapply (IH _ po); [done|].
    destruct (shape_parent_level _ _ _ _ _ Hs Ha Hp Hpo) as (Hl&_).
    pose proof (shape_level _ Hs _ _ _ Hpo Hr). lia. }
  intros a o Ha. eapply (H _ a o Ha). apply Nat.lt_succ_diag_r.
Qed.

Lemma anc_to_root h a o : shape h → h !! a = Some o → anc h a ROOT.
Proof.
  intros Hs Ha. revert a o Ha. apply live_ind; [done|constructor|].
  intros a o p Ha Hp _ IH. eapply anc_step; eauto.
Qed.

Lemma anc_level h b a ob oa :
  shape h → anc h b a → h !! b = Some ob → h !! a = Some oa →
  (level ob ≤ level oa)%Z ∧ (level ob = level oa → b = a).
Proof.
  intros Hs H. revert ob. induction H as [a|b o p a Hb Hp H IH]; intros ob Hob Hoa.
  - assert (ob = oa) by congruence. subst. done.
  - assert (ob = o) as -> by congruence.
    destruct (decide (b = ROOT)) as [->|Hne].
    { destruct (shape_root _ Hs) as (r&Hr&Hrp). congruence. }
    destruct (shape_parent _ Hs _ _ Hb Hne) as (p'&po&Hp'&Hpo&_).
    assert (p' = p) as -> by congruence.
    destruct (shape_parent_level _ _ _ _ _ Hs Hb Hp Hpo) as (Hl&_).
    destruct (IH po Hpo Hoa) as (Hle&_). split; lia.
Qed.

Lemma anc_live h b a ob : shape h → anc h b a → h !! b = Some ob → is_Some (h !! a).
Proof.
  intros Hs H. revert ob. induction H as [a|b o p a Hb Hp H IH]; intros ob Hob; [eauto|].
  destruct (decide (b = ROOT)) as [->|Hne].
  { destruct (shape_root _ Hs) as (r&Hr&Hrp). congruence. }
  destruct (shape_parent _ Hs _ _ Hb Hne) as (p'&po&Hp'&Hpo&_).
  assert (p' = p) as -> by congruence. eauto.
Qed.

(** Two ancestors of an octant on the same level are the same octant. *)
Lemma anc_same_level h b a a' oa oa' ob :
  shape h → h !! b = Some ob → anc h b a → anc h b a' → h !! a = Some oa → h !! a' = Some oa' →
  level oa = level oa' → a = a'.
Proof.
  intros Hs Hob H. revert ob Hob a' oa'.
  induction H as [a|b o p a Hb Hp H IH]; intros ob Hob a' oa' H' Hoa Hoa' Hl.
  - assert (ob = oa) as -> by congruence.
    destruct (anc_level _ _ _ _ _ Hs H' Hoa Hoa') as (_&He). by rewrite He.
  - assert (ob = o) as -> by congruence.
    apply anc_inv in H' as [<-|(o'&p'&Hb'&Hp'&H')].
    + assert (oa' = o) as -> by congruence.
      assert (anc h b a) by (eapply anc_step; eauto).
      destruct (anc_level _ _ _ _ _ Hs H0 Hb Hoa) as (_&He). rewrite He; [done|congruence].
    + assert (o' = o) as -> by congruence. assert (p' = p) as -> by congruence.
      destruct (anc_live _ _ _ _ Hs (anc_step _ _ _ _ _ Hb Hp (anc_refl _ _)) Hb) as (po&Hpo).
      eapply (IH po); eauto.
Qed.


(** * Counting along a parent branch *)

Lemma childCount_insert_ne h a o' y :
  y ≠ Some a → childCount (<[a := o']> h) y = childCount h y.
Proof.
  intros Hne. destruct y as [c|]; [|done]. simpl.
  rewrite lookup_insert_ne; [done|]. congruence.
Qed.

Lemma childCount_insert_eq h a o' : childCount (<[a := o']> h) (Some a) = numNodes o'.
Proof. simpl. by rewrite lookup_insert_eq. Qed.

Lemma childCount_live h a o : h !! a = Some o → childCount h (Some a) = numNodes o.
Proof. intros H. simpl. by rewrite H. Qed.

(** Children counts are not negative when no octant is. *)
Lemma childCount_nonneg h t y :
  nonempty_upto h t → y ≠ Some ROOT → (0 ≤ childCount h y)%Z.
Proof.
  intros Hne Hy. destruct y as [c|]; simpl; [|lia].
  destruct (h !! c) as [co|] eqn:Hc; [|lia].
  destruct (Hne c co Hc) as [?|[? _]]; [congruence|lia..].
Qed.

(** Changing the count of [a] by [d] moves the offset from [a] to its
    parent. *)
Lemma counts_step_up h a o d :
  shape h → h !! a = Some o → counts_off h (Some a) d →
  counts_off (<[a := set_numNodes o (numNodes o + d)]> h) (parent o) d.
Proof.
  intros Hs Ha Hc b ob' Hb.
  destruct (decide (a = b)) as [<-|Hne].
  - rewrite lookup_insert_eq in Hb. injection Hb as <-. simpl.
    assert (parent o ≠ Some a).
    { intros Hp. destruct (decide (a = ROOT)) as [->|Hr].
      - destruct (shape_root _ Hs) as (r&Hr&Hrp). congruence.
      - destruct (shape_parent _ Hs _ _ Ha Hr) as (p&po&Hp'&Hpo&_).
        destruct (shape_parent_level _ _ _ _ _ Hs Ha Hp' Hpo) as (_&_&?). congruence. }
    rewrite decide_False by done.
    specialize (Hc a o Ha). rewrite decide_True in Hc by done.
    rewrite (sumZ_same (childCount h)); [lia|].
    intros y Hy. apply childCount_insert_ne. intros ->.
    apply list_elem_of_lookup in Hy as (i&Hi).
    by eapply shape_child_ne.
  - rewrite lookup_insert_ne in Hb by done.
    specialize (Hc b ob' Hb). rewrite decide_False in Hc by congruence.
    destruct (decide (parent o = Some b)) as [Hp|Hp].
    + assert (a ≠ ROOT).
      { intros ->. destruct (shape_root _ Hs) as (r&Hr&Hrp). congruence. }
      destruct (shape_parent _ Hs _ _ Ha H) as (p&po&Hp'&Hpo&Hslot).
      assert (p = b) as -> by congruence. assert (po = ob') as -> by congruence.
      rewrite (sumZ_change (childCount h) _ (children ob') (children ob')
                 (ChildIndex ob' (center o)) (Some a) (Some a)); [|done..|].
      * rewrite childCount_insert_eq, (childCount_live _ _ _ Ha). simpl. lia.
      * intros j y y' Hj Hy Hy'. assert (y = y') as <- by congruence.
        apply childCount_insert_ne. intros ->. apply Hj.
        by eapply shape_slot_unique.
    + rewrite (sumZ_same (childCount h)); [lia|].
      intros y Hy. apply childCount_insert_ne. intros ->.
      destruct (decide (a = ROOT)) as [->|Hr].
      * apply list_elem_of_lookup in Hy as (i&Hi).
        by destruct (shape_child _ Hs _ _ _ _ Hb Hi) as (?&_).
      * destruct (shape_parent _ Hs _ _ Ha Hr) as (p&po&Hp'&Hpo&_).
        apply Hp. rewrite Hp'. f_equal. by eapply shape_child_parent.
Qed.

Lemma set_numNodes_skel o k : same_skel o (set_numNodes o k).
Proof. by repeat split. Qed.

Lemma set_numNodes_sbc o k : same_but_count o (set_numNodes o k).
Proof. done. Qed.

Lemma incBranch_None f h : incBranch f h None = Some h.
Proof. by destruct f. Qed.

(** The loop of AddNode restores the counts, leaves no octant of the
    branch empty, and adds one at the root. *)
Lemma incBranch_ok f h a o r :
  shape h → counts_off h (Some a) 1 → nonempty_upto h (Some a) →
  h !! a = Some o → h !! ROOT = Some r →
  (Z.to_nat (level r - level o) < f)%nat →
  ∃ h', incBranch f h (Some a) = Some h' ∧ heap_rel same_but_count h h' ∧
        heapOK h' ∧ rootCount h' (numNodes r + 1).
Proof.
  revert h a o r. induction f as [|f IH]; intros h a o r Hs Hc Hne Ha Hr Hf; [lia|].
  simpl. rewrite Ha. simpl.
  set (o1 := set_numNodes o (numNodes o + 1)). set (h1 := <[a := o1]> h).
  assert (Hrel : heap_rel same_but_count h h1).
  { apply heap_rel_insert with o; [apply same_but_count_refl|done|done]. }
  assert (Hrels : heap_rel same_skel h h1).
  { eapply heap_rel_impl; [apply same_but_count_skel|done]. }
  assert (Hs1 : shape h1) by (by eapply shape_skel).
  assert (Hc1 : counts_off h1 (parent o) 1) by (by apply counts_step_up).
  destruct (parent o) as [p|] eqn:Hp.
  - assert (a ≠ ROOT).
    { intros ->. destruct (shape_root _ Hs) as (r'&Hr'&Hrp). congruence. }
    destruct (shape_parent _ Hs _ _ Ha H) as (p'&po&Hp'&Hpo&Hslot).
    assert (p' = p) as -> by congruence.
    destruct (shape_parent_level _ _ _ _ _ Hs Ha Hp Hpo) as (Hl&_&Hap).
    pose proof (shape_level _ Hs _ _ _ Hpo Hr) as Hlp.
    assert (Hpo1 : h1 !! p = Some po).
    { unfold h1. by rewrite lookup_insert_ne. }
    assert (Hr1 : h1 !! ROOT = Some r).
    { unfold h1. by rewrite lookup_insert_ne. }
    destruct (IH h1 p po r) as (h'&Hrun&Hrel'&Hok&Hroot); [done|done| |done|done|lia|].
    { intros b ob Hb Hbr. destruct (decide (a = b)) as [<-|Hab].
      - unfold h1 in Hb. rewrite lookup_insert_eq in Hb. injection Hb as <-. left.
        unfold o1. simpl. destruct (Hne a o Ha H) as [?|[? _]]; lia.
      - unfold h1 in Hb. rewrite lookup_insert_ne in Hb by done.
        destruct (Hne b ob Hb Hbr) as [?|[? (t&Ht&Hanc)]]; [by left|]. right.
        split; [done|]. exists p. split; [done|]. injection Ht as <-.
        eapply anc_skel; [done|].
        destruct (anc_parent _ _ _ _ _ Ha Hp Hanc); [congruence|done]. }
    exists h'. split; [done|]. split; [|done].
    eapply heap_rel_trans; [apply same_but_count_trans|done..].
  - assert (a = ROOT) as -> by apply (shape_root_only_parentless h a o Hs Ha Hp).
    exists h1. split; [apply incBranch_None|]. split; [done|].
    split; [split; [done|split; [done|]]|].
    + intros b ob Hb Hbr. left.
      unfold h1 in Hb. rewrite lookup_insert_ne in Hb by done.
      destruct (Hne b ob Hb Hbr) as [?|[? (t&Ht&Hanc)]]; [done|].
      injection Ht as <-. apply (anc_root_parentless _ _ _ _ Ha Hp) in Hanc. congruence.
    + exists o1. unfold h1. rewrite lookup_insert_eq. split; [done|].
      assert (o = r) as -> by congruence. done.
Qed.


(** * Removing along a parent branch *)

Lemma same_but_pruned_refl o : same_but_pruned o o.
Proof. repeat split; auto. Qed.

Lemma same_but_pruned_trans o1 o2 o3 :
  same_but_pruned o1 o2 → same_but_pruned o2 o3 → same_but_pruned o1 o3.
Proof.
  intros (?&?&?&?&?&?&?&?&?&H12) (?&?&?&?&?&?&?&?&?&H23).
  repeat split; try congruence. intros i.
  destruct (H23 i) as [-> | ->]; [apply H12|by right].
Qed.

Lemma prune_view_refl h : prune_view h h.
Proof.
  intros b. destruct (h !! b) as [o|] eqn:Hb; [|done].
  exists o. split; [done|apply same_but_pruned_refl].
Qed.

Lemma prune_view_trans h1 h2 h3 : prune_view h1 h2 → prune_view h2 h3 → prune_view h1 h3.
Proof.
  intros H12 H23 b. specialize (H12 b). specialize (H23 b).
  destruct (h3 !! b) as [o3|].
  - destruct H23 as (o2&Ho2&H23). rewrite Ho2 in H12. destruct H12 as (o1&Ho1&H12).
    exists o1. split; [done|]. by eapply same_but_pruned_trans.
  - intros o1 Ho1. destruct (h2 !! b) as [o2|] eqn:Ho2.
    + destruct H12 as (o1'&Ho1'&H12). assert (o1' = o1) as -> by congruence.
      destruct (H23 o2 eq_refl) as (Hn&?). split; [|done].
      destruct H12 as (?&?&?&?&?&?&Hnodes&_). congruence.
    + by apply H12.
Qed.

Lemma prune_view_count h a o k :
  h !! a = Some o → prune_view h (<[a := set_numNodes o k]> h).
Proof.
  intros Ha b. destruct (decide (a = b)) as [<-|Hne].
  - rewrite lookup_insert_eq. exists o. split; [done|]. repeat split; auto.
  - rewrite lookup_insert_ne by done. destruct (h !! b) as [ob|] eqn:Hb; [|done].
    exists ob. split; [done|apply same_but_pruned_refl].
Qed.

(** An octant whose count is zero holds no object and has no child. *)
Lemma empty_octant h x d a o :
  shape h → counts_off h x d → x ≠ Some a → h !! a = Some o → numNodes o = 0%Z →
  (∀ b ob, h !! b = Some ob → b ≠ ROOT → b ≠ a → (1 ≤ numNodes ob)%Z) →
  nodes o = [] ∧ ∀ i c, children o !! i ≠ Some (Some c).
Proof.
  intros Hs Hc Hx Ha Hz Hne. specialize (Hc a o Ha).
  rewrite decide_False in Hc by done.
  assert (Hnn : ∀ y, y ∈ children o → (0 ≤ childCount h y)%Z).
  { intros [c|] Hy; simpl; [|lia]. destruct (h !! c) as [co|] eqn:Hco; [|lia].
    apply list_elem_of_lookup in Hy as (i&Hi).
    destruct (shape_child _ Hs _ _ _ _ Ha Hi) as (Hcr&_).
    pose proof (shape_child_ne _ _ _ _ _ Hs Ha Hi).
    pose proof (Hne c co Hco Hcr H). lia. }
  pose proof (sumZ_nonneg _ _ Hnn) as Hsum.
  split.
  - destruct (nodes o); [done|]. simpl in Hc. lia.
  - intros i c Hi.
    destruct (shape_child _ Hs _ _ _ _ Ha Hi) as (Hcr&_&co&Hco&_).
    pose proof (shape_child_ne _ _ _ _ _ Hs Ha Hi) as Hca.
    pose proof (Hne c co Hco Hcr Hca).
    assert (Hin : Some c ∈ children o) by (by eapply list_elem_of_lookup_2).
    pose proof (sumZ_pos_elem _ _ _ Hnn Hin) as Hle.
    rewrite (childCount_live _ _ _ Hco) in Hle. lia.
Qed.

(** Freeing an empty octant keeps the tree in shape and the counts of its
    parent as they were. *)
Lemma prune_one h a o p po d :
  shape h → h !! a = Some o → parent o = Some p → h !! p = Some po →
  numNodes o = 0%Z → counts_off h (Some p) d →
  (∀ b ob, h !! b = Some ob → b ≠ ROOT → b ≠ a → (1 ≤ numNodes ob)%Z) →
  let h2 := <[p := set_children po (<[ChildIndex po (center o) := None]> (children po))]>
              (delete a h) in
  DeleteChildOctant h p (ChildIndex po (center o)) = Some h2 ∧
  shape h2 ∧ counts_off h2 (Some p) d ∧ nonempty_upto h2 None ∧ nodes o = [].
Proof.
  intros Hs Ha Hp Hpo Hz Hc Hne h2.
  destruct (shape_parent_level _ _ _ _ _ Hs Ha Hp Hpo) as (Hl&Har&Hap).
  destruct (shape_parent _ Hs _ _ Ha Har) as (p'&po'&Hp'&Hpo'&Hslot).
  assert (p' = p) as -> by congruence. assert (po' = po) as -> by congruence.
  set (idx := ChildIndex po (center o)) in *.
  assert (Hpa : Some p ≠ Some a) by congruence.
  destruct (empty_octant _ _ _ _ _ Hs Hc Hpa Ha Hz Hne) as (Hnodes&Hnoch).
  set (po2 := set_children po (<[idx := None]> (children po))) in *.
  assert (Hlk : ∀ b, h2 !! b = if decide (b = p) then Some po2
                               else if decide (b = a) then None else h !! b).
  { intros b. unfold h2. destruct (decide (b = p)) as [->|Hbp].
    - by rewrite lookup_insert_eq.
    - rewrite lookup_insert_ne by done. destruct (decide (b = a)) as [->|Hba].
      + by rewrite lookup_delete_eq.
      + by rewrite lookup_delete_ne. }
  assert (Hidx : (idx < length (children po))%nat) by (by eapply lookup_lt_Some).
  (* every live octant of h2 agrees with h on all but the freed slot *)
  assert (Hback : ∀ b ob2, h2 !! b = Some ob2 → b ≠ a ∧ ∃ ob, h !! b = Some ob ∧
            cullingBox ob2 = cullingBox ob ∧ worldBoundingBox ob2 = worldBoundingBox ob ∧
            center ob2 = center ob ∧ halfSize ob2 = halfSize ob ∧ level ob2 = level ob ∧
            parent ob2 = parent ob ∧ nodes ob2 = nodes ob ∧ numNodes ob2 = numNodes ob ∧
            sortDirty ob2 = sortDirty ob ∧
            children ob2 = (if decide (b = p) then <[idx := None]> (children ob)
                            else children ob)).
  { intros b ob2. rewrite Hlk. destruct (decide (b = p)) as [->|Hbp].
    - intros [= <-]. split; [done|]. by exists po.
    - destruct (decide (b = a)) as [->|Hba]; [done|]. intros Hb. split; [done|].
      by exists ob2. }
  assert (Hfwd : ∀ b ob, h !! b = Some ob → b ≠ a → ∃ ob2, h2 !! b = Some ob2 ∧
            cullingBox ob2 = cullingBox ob ∧ worldBoundingBox ob2 = worldBoundingBox ob ∧
            center ob2 = center ob ∧ halfSize ob2 = halfSize ob ∧ level ob2 = level ob ∧
            parent ob2 = parent ob ∧ numNodes ob2 = numNodes ob).
  { intros b ob Hb Hba. rewrite Hlk. destruct (decide (b = p)) as [->|Hbp].
    - exists po2. assert (ob = po) as -> by congruence. done.
    - destruct (decide (b = a)); [done|]. by exists ob. }
  split; [|split; [|split; [|split]]]; [| | | |done].
  - unfold DeleteChildOctant. rewrite Hpo. simpl. fold idx. rewrite Hslot, Ha. simpl.
    rewrite lookup_delete_ne by done. rewrite Hpo. done.
  - split.
    + destruct (shape_root _ Hs) as (r&Hr&Hrp).
      destruct (Hfwd ROOT r Hr) as (r2&Hr2&?&?&?&?&?&Hpr&?); [congruence|].
      exists r2. split; [done|congruence].
    + intros b ob2 Hb. destruct (Hback _ _ Hb) as (_&ob&Hob&?&?&?&?&?&?&?&?&?&Hch).
      rewrite Hch. destruct (decide (b = p)); [rewrite length_insert|];
        by eapply (shape_len _ Hs).
    + intros b ob2 r2 Hb Hr2.
      destruct (Hback _ _ Hb) as (_&ob&Hob&?&?&?&?&Hlv&?).
      destruct (Hback _ _ Hr2) as (_&r&Hr&?&?&?&?&Hlr&?).
      rewrite Hlv, Hlr. by eapply (shape_level _ Hs).
    + intros b ob2 Hb. destruct (Hback _ _ Hb) as (_&ob&Hob&Hk&Hw&Hce&Hh&?).
      unfold geomOK. rewrite Hk, Hw, Hce, Hh. by eapply (shape_geom _ Hs).
    + intros b ob2 Hb Hbr.
      destruct (Hback _ _ Hb) as (Hba&ob&Hob&_&_&Hce&_&_&Hpar&_).
      destruct (shape_parent _ Hs _ _ Hob Hbr) as (q&qo&Hq&Hqo&Hqslot).
      assert (Hqa : q ≠ a).
      { intros ->. assert (qo = o) as -> by congruence. by eapply Hnoch. }
      destruct (Hfwd q qo Hqo Hqa) as (qo2&Hqo2&_&_&Hqc&_).
      exists q, qo2. split; [congruence|]. split; [done|].
      destruct (Hback _ _ Hqo2) as (_&qo'&Hqo'&_&_&_&_&_&_&_&_&_&Hch).
      assert (qo' = qo) as -> by congruence.
      rewrite Hch, Hce. replace (ChildIndex qo2 (center ob)) with (ChildIndex qo (center ob))
        by (unfold ChildIndex; by rewrite Hqc).
      destruct (decide (q = p)) as [->|]; [|done].
      assert (qo = po) as -> by congruence.
      rewrite list_lookup_insert_ne; [done|]. intros He. apply Hba.
      rewrite <- He in Hqslot. congruence.
    + intros b ob2 i c Hb Hi.
      destruct (Hback _ _ Hb) as (Hba&ob&Hob&_&Hw&Hce&Hh&Hlv&_&_&_&_&Hch).
      assert (Hi' : children ob !! i = Some (Some c) ∧ (b = p → i ≠ idx)).
      { rewrite Hch in Hi. destruct (decide (b = p)) as [->|]; [|done].
        destruct (decide (i = idx)) as [->|Hi'].
        - rewrite list_lookup_insert_eq in Hi; [done|]. congruence.
        - by rewrite list_lookup_insert_ne in Hi. }
      destruct Hi' as (Hi'&Hidx').
      destruct (shape_child _ Hs _ _ _ _ Hob Hi') as (Hcr&Hpos&co&Hco&Hcp&Hcl&Hcw&Hci).
      assert (Hca : c ≠ a).
      { intros ->. assert (co = o) as -> by congruence.
        assert (b = p) as -> by congruence. assert (ob = po) as -> by congruence.
        apply Hidx'; [done|]. by symmetry. }
      destruct (Hfwd c co Hco Hca) as (co2&Hco2&_&Hw2&Hc2&_&Hl2&Hp2&_).
      split; [done|]. split; [unfold hpos; by rewrite Hh|].
      exists co2. split; [done|]. rewrite Hp2, Hl2, Hw2, Hc2, Hlv.
      repeat split; try done.
      * rewrite Hcw. unfold childBox. by rewrite Hw, Hce.
      * rewrite <- Hci. unfold ChildIndex. by rewrite Hce.
  - intros b ob2 Hb.
    destruct (Hback _ _ Hb) as (Hba&ob&Hob&_&_&_&_&_&_&Hn&Hnum&_&Hch).
    rewrite Hn, Hnum. specialize (Hc b ob Hob).
    assert (Hcc : ∀ y, y ≠ Some a → childCount h2 y = childCount h y).
    { intros [c|] Hy; [|done]. simpl. assert (c ≠ a) by congruence.
      destruct (h !! c) as [co|] eqn:Hco.
      - destruct (Hfwd c co Hco H) as (co2&->&_&_&_&_&_&_&?). done.
      - rewrite Hlk. rewrite decide_False by congruence. rewrite decide_False by done.
        by rewrite Hco. }
    rewrite Hch. destruct (decide (b = p)) as [->|Hbp].
    + assert (ob = po) as -> by congruence.
      rewrite (sumZ_change (childCount h) _ (children po) _ idx (Some a) None);
        [ | by rewrite length_insert | done | by rewrite list_lookup_insert_eq | ].
      * rewrite (childCount_live _ _ _ Ha), Hz. simpl. rewrite decide_True in Hc by done.
        rewrite decide_True by done. lia.
      * intros j y y' Hj Hy Hy'. rewrite list_lookup_insert_ne in Hy' by done.
        assert (y = y') as <- by congruence. apply Hcc. intros ->. apply Hj.
        by eapply shape_slot_unique.
    + rewrite decide_False in Hc by congruence. rewrite decide_False by congruence.
      rewrite (sumZ_same (childCount h)); [done|]. intros y Hy. apply Hcc. intros ->.
      apply Hbp. symmetry. by eapply shape_child_parent.
  - intros b ob2 Hb Hbr. left.
    destruct (Hback _ _ Hb) as (Hba&ob&Hob&_&_&_&_&_&_&_&Hnum&_).
    rewrite Hnum. by eapply Hne.
Qed.

Lemma decBranch_None f h : decBranch f h None = Some h.
Proof. by destruct f. Qed.

Lemma counts_off_None h d : counts_off h None d → counts_off h None 0.
Proof. intros H a o Ha. specialize (H a o Ha). by rewrite decide_False in * by done. Qed.

(** Ancestors are kept by a change of the heap that keeps the octants of
    the branch and their parents. *)
Lemma anc_keep h h' x b :
  (∀ c oc, h !! c = Some oc → anc h x c → ∃ oc', h' !! c = Some oc' ∧ parent oc' = parent oc) →
  anc h x b → anc h' x b.
Proof.
  intros Hk H. induction H as [|x o p b Hx Hp H IH]; [constructor|].
  destruct (Hk x o Hx (anc_refl _ _)) as (o'&Hx'&Hp').
  eapply anc_step; [done|by rewrite Hp'|]. apply IH.
  intros c oc Hc Hanc. apply Hk; [done|]. eapply anc_step; eauto.
Qed.

Lemma prune_view_delete h a o p po cs :
  h !! a = Some o → nodes o = [] → a ≠ ROOT → a ≠ p → h !! p = Some po →
  length cs = length (children po) →
  (∀ i, cs !! i = children po !! i ∨ cs !! i = Some None) →
  prune_view h (<[p := set_children po cs]> (delete a h)).
Proof.
  intros Ha Hn Har Hap Hpo Hlen Hcs b. destruct (decide (b = p)) as [->|Hbp].
  - rewrite lookup_insert_eq. exists po. split; [done|]. repeat split; auto.
  - rewrite lookup_insert_ne by done. destruct (decide (b = a)) as [->|Hba].
    + rewrite lookup_delete_eq. intros o' Ho'. assert (o' = o) as -> by congruence. done.
    + rewrite lookup_delete_ne by done. destruct (h !! b) as [ob|] eqn:Hb; [|done].
      exists ob. split; [done|apply same_but_pruned_refl].
Qed.

(** The loop of RemoveNode restores the counts, frees the octants of the
    branch that became empty, and takes one off at the root. *)
Lemma decBranch_ok f h a o r :
  shape h → counts_off h (Some a) (-1) → nonempty_upto h None →
  h !! a = Some o → h !! ROOT = Some r →
  (Z.to_nat (level r - level o) < f)%nat →
  ∃ h', decBranch f h (Some a) = Some h' ∧ heapOK h' ∧ prune_view h h' ∧
        rootCount h' (numNodes r - 1) ∧
        (∀ b ob, anc h a b → h !! b = Some ob →
           match h' !! b with
           | Some ob' => numNodes ob' = (numNodes ob - 1)%Z
           | None => numNodes ob = 1%Z ∧ b ≠ ROOT
           end) ∧
        (∀ b, ¬ anc h a b → h' !! b = h !! b).
Proof.
  revert h a o r. induction f as [|f IH]; intros h a o r Hs Hc Hne Ha Hr Hf; [lia|].
  simpl. rewrite Ha. simpl.
  set (o1 := set_numNodes o (numNodes o - 1)). set (h1 := <[a := o1]> h).
  assert (Hrels : heap_rel same_skel h h1).
  { apply heap_rel_insert with o; [apply same_skel_refl|done|apply set_numNodes_skel]. }
  assert (Hs1 : shape h1) by (by eapply shape_skel).
  assert (Hc1 : counts_off h1 (parent o) (-1)) by (by apply (counts_step_up h a o (-1))).
  assert (Ha1 : h1 !! a = Some o1) by (unfold h1; by rewrite lookup_insert_eq).
  assert (Hv1 : prune_view h h1) by (by apply prune_view_count).
  destruct (parent o) as [p|] eqn:Hp.
  - assert (Har : a ≠ ROOT).
    { intros ->. destruct (shape_root _ Hs) as (r'&Hr'&Hrp). congruence. }
    destruct (shape_parent _ Hs _ _ Ha Har) as (p'&po&Hp'&Hpo&Hslot).
    assert (p' = p) as -> by congruence.
    destruct (shape_parent_level _ _ _ _ _ Hs Ha Hp Hpo) as (Hl&_&Hap).
    pose proof (shape_level _ Hs _ _ _ Hpo Hr) as Hlp.
    assert (Hpo1 : h1 !! p = Some po) by (unfold h1; by rewrite lookup_insert_ne).
    assert (Hr1 : h1 !! ROOT = Some r) by (unfold h1; by rewrite lookup_insert_ne).
    assert (Hpos : (1 ≤ numNodes o)%Z).
    { destruct (Hne a o Ha Har) as [?|[_ (?&?&_)]]; [done|done]. }
    assert (Hnanc : ¬ anc h p a).
    { intros Hanc. destruct (anc_level _ _ _ _ _ Hs Hanc Hpo Ha). lia. }
    destruct (numNodes o - 1 =? 0)%Z eqn:Hz.
    + (* the octant became empty and is freed *)
      apply Z.eqb_eq in Hz. rewrite Hpo1. simpl.
      destruct (prune_one h1 a o1 p po (-1)) as (Hdel&Hs2&Hc2&Hne2&Hnodes);
        [done|done|done|done|done|done| |].
      { intros b ob Hb Hbr Hba. unfold h1 in Hb. rewrite lookup_insert_ne in Hb by done.
        destruct (Hne b ob Hb Hbr) as [?|[_ (?&?&_)]]; done. }
      change (center o1) with (center o) in *.
      set (idx := ChildIndex po (center o)) in *.
      set (po2 := set_children po (<[idx := None]> (children po))) in *.
      set (h2 := <[p := po2]> (delete a h1)) in *.
      rewrite Hdel. simpl.
      assert (Hpo2 : h2 !! p = Some po2) by (unfold h2; by rewrite lookup_insert_eq).
      assert (Ha2 : h2 !! a = None).
      { unfold h2. rewrite lookup_insert_ne by done. by rewrite lookup_delete_eq. }
      assert (Hoth : ∀ b, b ≠ a → b ≠ p → h2 !! b = h !! b).
      { intros b ??. unfold h2, h1. rewrite lookup_insert_ne by done.
        rewrite lookup_delete_ne by done. by rewrite lookup_insert_ne. }
      assert (∃ r2, h2 !! ROOT = Some r2 ∧ numNodes r2 = numNodes r ∧ level r2 = level r)
        as (r2&Hr2&Hr2n&Hr2l).
      { destruct (decide (p = ROOT)) as [->|Hpr].
        - exists po2. split; [done|]. assert (po = r) as -> by congruence. done.
        - exists r. rewrite Hoth by done. done. }
      destruct (IH h2 p po2 r2) as (h'&Hrun&Hok&Hv&Hroot&Hanc&Hframe);
        [done|done|done|done|done| simpl; rewrite Hr2l; lia |].
      assert (Hv2 : prune_view h1 h2).
      { apply prune_view_delete with o1; try done.
        - by rewrite length_insert.
        - intros i. destruct (decide (i = idx)) as [->|Hi].
          + right. apply list_lookup_insert_eq. by eapply lookup_lt_Some.
          + left. by apply list_lookup_insert_ne. }
      assert (Hanc12 : ∀ b, anc h p b → anc h2 p b).
      { intros b Hb. eapply anc_keep; [|done]. intros c oc Hc' Hpc.
        assert (c ≠ a) by (intros ->; done).
        destruct (decide (c = p)) as [->|Hcp].
        - exists po2. split; [done|]. assert (oc = po) as -> by congruence. done.
        - exists oc. by rewrite Hoth. }
      assert (Hanc21 : ∀ b, anc h2 p b → anc h p b).
      { intros b Hb. eapply anc_keep; [|done]. intros c oc Hc' Hpc.
        assert (c ≠ a) by (intros ->; congruence).
        destruct (decide (c = p)) as [->|Hcp].
        - exists po. split; [done|]. assert (oc = po2) as -> by congruence. done.
        - exists oc. by rewrite <- Hoth. }
      assert (Hnanc2 : ¬ anc h2 p a).
      { intros Hx. destruct (anc_live _ _ _ _ Hs2 Hx Hpo2) as (?&?). congruence. }
      exists h'. split; [done|]. split; [done|]. split; [|split; [|split]].
      * apply prune_view_trans with h1; [done|]. by apply prune_view_trans with h2.
      * by rewrite <- Hr2n.
      * intros b ob Hb Hob. destruct (anc_parent _ _ _ _ _ Ha Hp Hb) as [<-|Hb'].
        -- rewrite (Hframe a Hnanc2), Ha2. assert (ob = o) as -> by congruence.
           split; [lia|done].
        -- assert (b ≠ a) by (intros ->; done).
           destruct (decide (b = p)) as [->|Hbp].
           ++ specialize (Hanc p po2 (anc_refl _ _) Hpo2).
              assert (ob = po) as -> by congruence. done.
           ++ apply (Hanc b ob); [by apply Hanc12|]. by rewrite Hoth.
      * intros b Hb.
        assert (b ≠ a) by (intros ->; apply Hb; constructor).
        assert (Hpb : ¬ anc h p b) by (intros ?; apply Hb; by eapply anc_step).
        assert (b ≠ p) by (intros ->; apply Hpb; constructor).
        rewrite Hframe; [by apply Hoth|]. intros ?. apply Hpb. by apply Hanc21.
    + (* the octant keeps objects *)
      apply Z.eqb_neq in Hz.
      destruct (IH h1 p po r) as (h'&Hrun&Hok&Hv&Hroot&Hanc&Hframe);
        [done|done| |done|done|lia|].
      { intros b ob Hb Hbr. left. destruct (decide (a = b)) as [<-|Hab].
        - assert (ob = o1) as -> by congruence. unfold o1 in *. simpl in *. lia.
        - unfold h1 in Hb. rewrite lookup_insert_ne in Hb by done.
          destruct (Hne b ob Hb Hbr) as [?|[_ (?&?&_)]]; done. }
      assert (Hnanc1 : ¬ anc h1 p a).
      { intros Hx. apply Hnanc. eapply anc_skel; [|done]. by apply heap_rel_sym_skel. }
      exists h'. split; [done|]. split; [done|]. split; [|split; [|split]].
      * by apply prune_view_trans with h1.
      * done.
      * intros b ob Hb Hob. destruct (anc_parent _ _ _ _ _ Ha Hp Hb) as [<-|Hb'].
        -- rewrite (Hframe a Hnanc1), Ha1. assert (ob = o) as -> by congruence. done.
        -- assert (b ≠ a) by (intros ->; done).
           apply (Hanc b ob); [by eapply anc_skel|].
           unfold h1. by rewrite lookup_insert_ne.
      * intros b Hb.
        assert (b ≠ a) by (intros ->; apply Hb; constructor).
        assert (Hpb : ¬ anc h p b) by (intros ?; apply Hb; by eapply anc_step).
        rewrite Hframe.
        -- unfold h1. by rewrite lookup_insert_ne.
        -- intros ?. apply Hpb. eapply anc_skel; [|done]. by apply heap_rel_sym_skel.
  - assert (a = ROOT) as -> by apply (shape_root_only_parentless h a o Hs Ha Hp).
    rewrite decBranch_None.
    exists h1. split; [done|]. split; [|split; [done|split; [|split]]].
    + split; [done|]. split; [by eapply counts_off_None|].
      intros b ob Hb Hbr. unfold h1 in Hb. rewrite lookup_insert_ne in Hb by done.
      destruct (Hne b ob Hb Hbr) as [?|[_ (?&?&_)]]; [by left|done].
    + exists o1. split; [done|]. assert (o = r) as -> by congruence. done.
    + intros b ob Hb Hob. apply (anc_root_parentless _ _ _ _ Ha Hp) in Hb as ->.
      rewrite Ha1. assert (ob = o) as -> by congruence. done.
    + intros b Hb. unfold h1. rewrite lookup_insert_ne; [done|].
      intros <-. apply Hb. constructor.
Qed.


(** * The descent of Update *)

Lemma same_but_grown_refl o : same_but_grown o o.
Proof. repeat split; auto. Qed.

Lemma same_but_grown_trans o1 o2 o3 :
  same_but_grown o1 o2 → same_but_grown o2 o3 → same_but_grown o1 o3.
Proof.
  intros (?&?&?&?&?&?&?&?&?&?&H12) (?&?&?&?&?&?&?&?&?&?&H23).
  repeat split; try congruence. intros i.
  destruct (H23 i) as [-> | Hx]; [apply H12|].
  destruct (H12 i) as [Hy | ?]; [right; by rewrite <- Hy|by right].
Qed.

Lemma grow_view_refl h : grow_view h h.
Proof.
  intros b. destruct (h !! b) as [o|] eqn:Hb; [|by intros ? [=]].
  exists o. split; [done|apply same_but_grown_refl].
Qed.

Lemma grow_view_trans h1 h2 h3 : grow_view h1 h2 → grow_view h2 h3 → grow_view h1 h3.
Proof.
  intros H12 H23 b. specialize (H12 b). specialize (H23 b).
  destruct (h1 !! b) as [o1|].
  - destruct H12 as (o2&Ho2&H12). rewrite Ho2 in H23. destruct H23 as (o3&Ho3&H23).
    exists o3. split; [done|]. by eapply same_but_grown_trans.
  - intros o3 Ho3. destruct (h2 !! b) as [o2|] eqn:Ho2.
    + destruct H23 as (o3'&Ho3'&H23). assert (o3' = o3) as -> by congruence.
      destruct (H12 o2 eq_refl) as (Hn&Hk&Hd&?).
      destruct H23 as (?&?&?&?&?&?&?&?&?&_). repeat split; congruence.
    + by apply H23.
Qed.

Lemma grow_view_fwd h h' b o :
  grow_view h h' → h !! b = Some o → ∃ o', h' !! b = Some o' ∧ same_but_grown o o'.
Proof. intros H Hb. specialize (H b). by rewrite Hb in H. Qed.

Lemma insertHere_ext isRoot o o' box :
  cullingBox o' = cullingBox o → worldBoundingBox o' = worldBoundingBox o →
  halfSize o' = halfSize o → level o' = level o →
  insertHere isRoot o' box = insertHere isRoot o box.
Proof.
  intros Hk Hw Hh Hl. unfold insertHere, FitBoundingBox. by rewrite Hk, Hw, Hh, Hl.
Qed.

Lemma ChildIndex_ext o' o p : center o' = center o → ChildIndex o' p = ChildIndex o p.
Proof. intros H. unfold ChildIndex. by rewrite H. Qed.

Lemma upath_grow h h' box a : grow_view h h' → upath h box a → upath h' box a.
Proof.
  intros Hg. induction 1 as [|a o p po Ha Hp Hpo Hins Hidx _ IH]; [constructor|].
  destruct (grow_view_fwd _ _ _ _ Hg Ha) as (o'&Ha'&?&?&Hc&?&?&Hpar&_).
  destruct (grow_view_fwd _ _ _ _ Hg Hpo) as (po'&Hpo'&?&?&Hpc&?&?&_).
  eapply (upath_child h' box a o' p po'); [done|congruence|done| | |done].
  - rewrite <- Hins. by apply insertHere_ext.
  - rewrite Hc, !(ChildIndex_ext po' po) by done. done.
Qed.

Lemma anc_grow h h' b a : grow_view h h' → anc h b a → anc h' b a.
Proof.
  intros Hg. induction 1 as [|b o p a Hb Hp _ IH]; [constructor|].
  destruct (grow_view_fwd _ _ _ _ Hg Hb) as (o'&Hb'&?&?&?&?&?&Hpar&_).
  eapply anc_step; [done| |done]. congruence.
Qed.

Lemma Allocate_fresh h : h !! Allocate h = None.
Proof. unfold Allocate. apply not_elem_of_dom. apply is_fresh. Qed.

Lemma replicate_None_lookup (n i : nat) (c : nat) :
  replicate n (@None nat) !! i ≠ Some (Some c).
Proof. intros H. apply lookup_replicate in H as [? _]. done. Qed.

Lemma sumZ_replicate_None h n : sumZ (childCount h <$> replicate n None) = 0%Z.
Proof. induction n as [|n IH]; [done|]. change (replicate (S n) None) with (@None nat :: replicate n None). by rewrite sumZ_fmap_cons, IH. Qed.

(** CreateChildOctant keeps the tree in shape; a new child is empty. *)
Lemma create_ok h a o i :
  shape h → counts_off h None 0 → nonempty_upto h (Some a) →
  h !! a = Some o → hpos o → (1 < level o)%Z → (i < NUM_OCTANTS)%nat →
  ∃ h' c co o', CreateChildOctant h a i = Some (h', c) ∧
    shape h' ∧ counts_off h' None 0 ∧ nonempty_upto h' (Some c) ∧ grow_view h h' ∧
    h' !! c = Some co ∧ parent co = Some a ∧ h' !! a = Some o' ∧
    children o' !! i = Some (Some c).
Proof.
  intros Hs Hc Hne Ha Hpos Hlv Hi.
  unfold CreateChildOctant. rewrite Ha. simpl.
  assert (Hlen := shape_len _ Hs _ _ Ha).
  destruct (children o !! i) as [[c|]|] eqn:Hslot.
  - (* the child exists *)
    destruct (shape_child _ Hs _ _ _ _ Ha Hslot) as (Hcr&_&co&Hco&Hcp&_).
    exists h, c, co, o. split; [done|]. split; [done|]. split; [done|].
    split; [|split; [apply grow_view_refl|done]].
    intros b ob Hb Hbr. destruct (Hne b ob Hb Hbr) as [?|[? (t&Ht&Hanc)]]; [by left|].
    right. split; [done|]. exists c. split; [done|]. injection Ht as <-.
    eapply anc_step; eauto.
  - (* a new child is allocated *)
    set (c := Allocate h).
    set (child := Initialize Octant_new (Some a) (childBox o i) (level o - 1)).
    set (o' := set_children o (<[i := Some c]> (children o))).
    set (h' := <[a := o']> (<[c := child]> h)).
    assert (Hcf : h !! c = None) by apply Allocate_fresh.
    assert (Hca : c ≠ a) by congruence.
    assert (Hcr : c ≠ ROOT).
    { destruct (shape_root _ Hs) as (r&Hr&_). congruence. }
    assert (Hlk : ∀ b, h' !! b = if decide (b = a) then Some o'
                                 else if decide (b = c) then Some child else h !! b).
    { intros b. unfold h'. destruct (decide (b = a)) as [->|Hba].
      - by rewrite lookup_insert_eq.
      - rewrite lookup_insert_ne by done. destruct (decide (b = c)) as [->|Hbc].
        + by rewrite lookup_insert_eq.
        + by rewrite lookup_insert_ne. }
    assert (Ha' : h' !! a = Some o') by (rewrite Hlk; by rewrite decide_True).
    assert (Hc' : h' !! c = Some child).
    { rewrite Hlk. rewrite decide_False by done. by rewrite decide_True. }
    assert (Hg : grow_view h h').
    { intros b. rewrite Hlk. destruct (decide (b = a)) as [->|Hba].
      - rewrite Ha. exists o'. split; [done|]. repeat split; try done.
        + unfold o'. simpl. by rewrite length_insert.
        + intros j. unfold o'. simpl. destruct (decide (j = i)) as [->|Hj].
          * by right.
          * left. by apply list_lookup_insert_ne.
      - destruct (decide (b = c)) as [->|Hbc].
        + rewrite Hcf. intros ? [= <-]. done.
        + destruct (h !! b) as [ob|]; [|by intros ? [=]].
          exists ob. split; [done|apply same_but_grown_refl]. }
    assert (Hback : ∀ b ob', h' !! b = Some ob' → b ≠ c →
              ∃ ob, h !! b = Some ob ∧ same_but_grown ob ob' ∧
                    children ob' = if decide (b = a) then <[i := Some c]> (children ob)
                                   else children ob).
    { intros b ob'. rewrite Hlk. destruct (decide (b = a)) as [->|Hba].
      - intros [= <-] _. exists o. split; [done|]. split; [|done].
        specialize (Hg a). rewrite Ha, Ha' in Hg. destruct Hg as (?&[= <-]&?). done.
      - destruct (decide (b = c)) as [->|Hbc]; [done|]. intros Hb _.
        exists ob'. split; [done|]. split; [apply same_but_grown_refl|done]. }
    assert (Hcidx : ChildIndex o (center child) = i).
    { unfold child. simpl. apply ChildIndex_childBox; [|done..]. by eapply (shape_geom _ Hs). }
    assert (Hcc : ∀ y, y ≠ Some c → childCount h' y = childCount h y).
    { intros [b|] Hy; [|done]. simpl. rewrite Hlk.
      destruct (decide (b = a)) as [->|]; [by rewrite Ha|].
      rewrite decide_False; [done|congruence]. }
    assert (Hlive : ∀ b ob j, h !! b = Some ob → children ob !! j ≠ Some (Some c)).
    { intros b ob j Hb Hj. destruct (shape_child _ Hs _ _ _ _ Hb Hj) as (_&_&?&?&_).
      congruence. }
    exists h', c, child, o'. split; [done|].
    split; [|split; [|split; [|split; [done|split; [done|split; [done|split; [done|]]]]]]].
    + split.
      * destruct (shape_root _ Hs) as (r&Hr&Hrp).
        destruct (grow_view_fwd _ _ _ _ Hg Hr) as (r'&Hr'&?&?&?&?&?&Hpr&_).
        exists r'. split; [done|congruence].
      * intros b ob' Hb. destruct (decide (b = c)) as [->|Hbc].
        -- assert (ob' = child) as -> by congruence. done.
        -- destruct (Hback _ _ Hb Hbc) as (ob&Hob&(?&?&?&?&?&?&?&?&?&Hl&_)&_).
           rewrite Hl. by eapply (shape_len _ Hs).
      * intros b ob' r' Hb Hr'.
        destruct (Hback _ _ Hr' (not_eq_sym Hcr)) as (r&Hr&(?&?&?&?&Hlr&_)&_).
        rewrite Hlr. pose proof (shape_level _ Hs _ _ _ Ha Hr).
        destruct (decide (b = c)) as [->|Hbc].
        -- assert (ob' = child) as -> by congruence. unfold child. simpl. lia.
        -- destruct (Hback _ _ Hb Hbc) as (ob&Hob&(?&?&?&?&Hlb&_)&_).
           rewrite Hlb. by eapply (shape_level _ Hs).
      * intros b ob' Hb. destruct (decide (b = c)) as [->|Hbc].
        -- assert (ob' = child) as -> by congruence. apply Initialize_geomOK.
        -- destruct (Hback _ _ Hb Hbc) as (ob&Hob&(Hk&Hw&Hce&Hh&_)&_).
           unfold geomOK. rewrite Hk, Hw, Hce, Hh. by eapply (shape_geom _ Hs).
      * intros b ob' Hb Hbr. destruct (decide (b = c)) as [->|Hbc].
        -- assert (ob' = child) as -> by congruence. exists a, o'.
           split; [done|]. split; [done|].
           rewrite (ChildIndex_ext o' o) by done. rewrite Hcidx. unfold o'. simpl.
           apply list_lookup_insert_eq. by eapply lookup_lt_Some.
        -- destruct (Hback _ _ Hb Hbc) as (ob&Hob&(_&_&Hce&_&_&Hpar&_)&_).
           destruct (shape_parent _ Hs _ _ Hob Hbr) as (q&qo&Hq&Hqo&Hqs).
           destruct (grow_view_fwd _ _ _ _ Hg Hqo) as (qo'&Hqo'&(_&_&Hqc&_)).
           exists q, qo'. split; [congruence|]. split; [done|].
           rewrite Hce, (ChildIndex_ext qo' qo) by done.
           assert (Hqc' : q ≠ c) by congruence.
           destruct (Hback _ _ Hqo' Hqc') as (qo2&Hqo2&_&Hch).
           assert (qo2 = qo) as -> by congruence. rewrite Hch.
           destruct (decide (q = a)) as [->|]; [|done].
           assert (qo = o) as -> by congruence.
           rewrite list_lookup_insert_ne; [done|]. intros He. rewrite He in Hslot. congruence.
      * intros b ob' j c' Hb Hj. destruct (decide (b = c)) as [->|Hbc].
        { assert (ob' = child) as -> by congruence.
          exfalso. exact (replicate_None_lookup NUM_OCTANTS j c' Hj). }
        destruct (Hback _ _ Hb Hbc) as (ob&Hob&(_&Hw&Hce&Hh&Hlb&_)&Hch).
        rewrite Hch in Hj.
        assert (Hcase : (b = a ∧ j = i ∧ c' = c) ∨ children ob !! j = Some (Some c')).
        { destruct (decide (b = a)) as [->|]; [|by right].
          assert (ob = o) as -> by congruence.
          destruct (decide (j = i)) as [->|Hji].
          - left. rewrite list_lookup_insert_eq in Hj by (by eapply lookup_lt_Some).
            split; [done|]. split; [done|]. congruence.
          - right. by rewrite list_lookup_insert_ne in Hj. }
        destruct Hcase as [(->&->&->)|Hj'].
        -- assert (ob = o) as -> by congruence.
           split; [done|]. split; [unfold hpos; by rewrite Hh|].
           exists child. split; [done|]. rewrite Hlb, (ChildIndex_ext ob' o) by done.
           repeat split; try done. unfold child. simpl. unfold childBox. by rewrite Hw, Hce.
        -- destruct (shape_child _ Hs _ _ _ _ Hob Hj') as (Hc'r&Hpos'&co&Hco&Hcp&Hcl&Hcw&Hci).
           destruct (grow_view_fwd _ _ _ _ Hg Hco) as (co'&Hco'&(_&Hw'&Hc2&_&Hl'&Hp'&_)).
           split; [done|]. split; [unfold hpos; by rewrite Hh|].
           exists co'. split; [done|]. rewrite Hp', Hl', Hw', Hc2, Hlb.
           rewrite (ChildIndex_ext ob' ob) by done.
           repeat split; try done. rewrite Hcw. unfold childBox. by rewrite Hw, Hce.
    + intros b ob' Hb. rewrite decide_False by done.
      destruct (decide (b = c)) as [->|Hbc].
      { assert (ob' = child) as -> by congruence.
        change (children child) with (replicate NUM_OCTANTS (@None nat)).
        by rewrite sumZ_replicate_None. }
      destruct (Hback _ _ Hb Hbc) as (ob&Hob&(_&_&_&_&_&_&Hn&Hk&_)&Hch).
      specialize (Hc b ob Hob). rewrite decide_False in Hc by done.
      rewrite Hn, Hk, Hch. destruct (decide (b = a)) as [->|Hba].
      * assert (ob = o) as -> by congruence.
        rewrite (sumZ_change (childCount h) _ (children o) _ i None (Some c));
          [ | by rewrite length_insert | done
            | apply list_lookup_insert_eq; by eapply lookup_lt_Some | ].
        -- simpl. rewrite Hc'. unfold child. simpl. lia.
        -- intros j y y' Hj Hy Hy'. rewrite list_lookup_insert_ne in Hy' by done.
           assert (y = y') as <- by congruence. apply Hcc. intros ->. by eapply Hlive.
      * rewrite (sumZ_same (childCount h)); [done|]. intros y Hy. apply Hcc.
        intros ->. apply list_elem_of_lookup in Hy as (j&Hj). by eapply Hlive.
    + intros b ob' Hb Hbr. destruct (decide (b = c)) as [->|Hbc].
      { right. assert (ob' = child) as -> by congruence. split; [done|].
        exists c. split; [done|constructor]. }
      destruct (Hback _ _ Hb Hbc) as (ob&Hob&(_&_&_&_&_&_&_&Hk&_)&_).
      rewrite Hk. destruct (Hne b ob Hob Hbr) as [?|[? (t&Ht&Hanc)]]; [by left|].
      right. split; [done|]. exists c. split; [done|]. injection Ht as <-.
      eapply anc_step; [done|done|]. by eapply anc_grow.
    + unfold o'. simpl. apply list_lookup_insert_eq. by eapply lookup_lt_Some.
  - apply lookup_ge_None in Hslot. unfold NUM_OCTANTS in *. lia.
Qed.

Lemma insertHere_false_fit isRoot o box :
  insertHere isRoot o box = false → FitBoundingBox o box (Size box) = false.
Proof.
  unfold insertHere. destruct isRoot; [|done]. intros H. by apply orb_false_iff in H as [_ ?].
Qed.

Lemma insertHere_level o box isRoot : (level o ≤ 1)%Z → insertHere isRoot o box = true.
Proof.
  intros Hl. assert (FitBoundingBox o box (Size box) = true) as Hf.
  { apply FitBoundingBox_true. by left. }
  unfold insertHere. rewrite Hf. destruct isRoot; [apply orb_true_r|done].
Qed.

(** The descent ends, keeps the tree in shape, and ends at the target. *)
Lemma descend_ok f h a o box :
  shape h → counts_off h None 0 → nonempty_upto h (Some a) →
  h !! a = Some o → (a ≠ ROOT → hpos o) → (Z.to_nat (level o) ≤ f)%nat →
  upath h box a →
  ∃ h' t, descend f h a box = Some (h', t) ∧
    shape h' ∧ counts_off h' None 0 ∧ nonempty_upto h' (Some t) ∧ grow_view h h' ∧
    target h' box t.
Proof.
  revert h a o. induction f as [|f IH]; intros h a o Hs Hc Hne Ha Hpos Hf Hup.
  { destruct (shape_root _ Hs) as (r&Hr&_).
    pose proof (shape_level _ Hs _ _ _ Ha Hr). lia. }
  simpl. rewrite Ha. simpl.
  destruct (insertHere (bool_decide (a = ROOT)) o box) eqn:Hins.
  - exists h, a. split; [done|]. split; [done|]. split; [done|]. split; [done|].
    split; [apply grow_view_refl|]. split; [done|eauto].
  - pose proof (insertHere_false_fit _ _ _ Hins) as Hfit.
    destruct (FitBoundingBox_false _ _ Hfit) as (Hlv&_).
    assert (Hpos' : hpos o).
    { destruct (decide (a = ROOT)) as [->|Hne']; [|by apply Hpos].
      unfold insertHere in Hins. rewrite bool_decide_eq_true_2 in Hins by done.
      apply orb_false_iff in Hins as [Hin _]. apply negb_false_iff in Hin.
      eapply root_hpos; [by eapply (shape_geom _ Hs)|done..]. }
    set (i := ChildIndex o (Center box)).
    destruct (create_ok h a o i Hs Hc Hne Ha Hpos' Hlv (ChildIndex_lt _ _))
      as (h1&c&co&o'&Hcr&Hs1&Hc1&Hne1&Hg1&Hco&Hcp&Ha'&Hslot).
    rewrite Hcr. simpl.
    destruct (shape_child _ Hs1 _ _ _ _ Ha' Hslot) as (Hcroot&Hpos1&co'&Hco'&_&Hcl&Hcw&Hci).
    assert (co' = co) as -> by congruence.
    destruct (grow_view_fwd _ _ _ _ Hg1 Ha) as (o2&Ho2&Hk&Hw&Hce&Hh&Hl&_).
    assert (o2 = o') as -> by congruence.
    destruct (IH h1 c co) as (h'&t&Hrun&Hs'&Hc'&Hne'&Hg'&Ht); [done|done|done|done| | | |].
    + intros _. eapply childBox_hpos; [by eapply (shape_geom _ Hs1)|done|done|].
      by eapply (shape_geom _ Hs1).
    + rewrite Hcl, Hl. lia.
    + eapply (upath_child h1 box c co a o'); [done|done|done| | |by eapply upath_grow].
      * rewrite <- Hins. by apply insertHere_ext.
      * rewrite Hci. by apply ChildIndex_ext.
    + exists h', t. split; [done|]. split; [done|]. split; [done|]. split; [done|].
      split; [by eapply grow_view_trans|done].
Qed.

(** Along the path of a box, the descent from the root passes through
    every octant of the path. *)
Lemma descend_path h box a o r :
  shape h → upath h box a → h !! a = Some o → h !! ROOT = Some r →
  ∀ f, descend (f + Z.to_nat (level r - level o)) h ROOT box = descend f h a box.
Proof.
  intros Hs Hup. revert o. induction Hup as [|a o' p po Ha Hp Hpo Hins Hidx _ IH];
    intros o Ho Hr f.
  - assert (o = r) as -> by congruence. by rewrite Z.sub_diag, Nat.add_0_r.
  - assert (o' = o) as -> by congruence.
    destruct (shape_parent_level _ _ _ _ _ Hs Ha Hp Hpo) as (Hl&Har&_).
    destruct (shape_parent _ Hs _ _ Ha Har) as (p'&po'&Hp'&Hpo'&Hslot).
    assert (p' = p) as -> by congruence. assert (po' = po) as -> by congruence.
    pose proof (shape_level _ Hs _ _ _ Hpo Hr).
    replace (f + Z.to_nat (level r - level o)) with (S f + Z.to_nat (level r - level po)) by lia.
    rewrite (IH po Hpo Hr (S f)). simpl. rewrite Hpo. simpl. rewrite Hins.
    unfold CreateChildOctant. rewrite Hpo. simpl. rewrite Hidx, Hslot. done.
Qed.

(** Where the target of a box exists, the descent finds it and creates
    nothing. *)
Lemma descend_target h box t :
  shape h → target h box t → descend (depthFuel h) h ROOT box = Some (h, t).
Proof.
  intros Hs (Hup&o&Ho&Hins). destruct (shape_root _ Hs) as (r&Hr&_).
  pose proof (shape_level _ Hs _ _ _ Ho Hr).
  unfold depthFuel. rewrite Hr.
  replace (S (Z.to_nat (level r))) with
    (S (Z.to_nat (level o)) + Z.to_nat (level r - level o)) by lia.
  rewrite (descend_path h box t o r Hs Hup Ho Hr). simpl. rewrite Ho. simpl. by rewrite Hins.
Qed.



(** An octant with objects has no empty ancestor. *)
Lemma anc_nonempty h x t b ot ob :
  shape h → counts_off h None 0 → nonempty_upto h x →
  anc h t b → h !! t = Some ot → h !! b = Some ob → (1 ≤ numNodes ot)%Z →
  (1 ≤ numNodes ob)%Z.
Proof.
  intros Hs Hc Hne Hanc. revert ot.
  induction Hanc as [|t o p b Ht Hp _ IH]; intros ot Hot Hob Hpos.
  - assert (ob = ot) by congruence. by subst.
  - assert (ot = o) as -> by congruence.
    destruct (decide (t = ROOT)) as [->|Htr].
    { destruct (shape_root _ Hs) as (r&Hr&Hrp). congruence. }
    destruct (shape_parent _ Hs _ _ Ht Htr) as (p'&po&Hp'&Hpo&Hslot).
    assert (p' = p) as -> by congruence.
    apply (IH po); [done|done|].
    specialize (Hc p po Hpo). rewrite decide_False in Hc by done.
    assert (Hnn : ∀ y, y ∈ children po → (0 ≤ childCount h y)%Z).
    { intros y Hy. eapply childCount_nonneg; [done|]. intros ->.
      apply list_elem_of_lookup in Hy as (j&Hj).
      by destruct (shape_child _ Hs _ _ _ _ Hpo Hj). }
    assert (Hin : Some t ∈ children po) by (by eapply list_elem_of_lookup_2).
    pose proof (sumZ_pos_elem _ _ _ Hnn Hin) as Hle.
    rewrite (childCount_live _ _ _ Ht) in Hle. lia.
Qed.

Lemma nonempty_upto_drop h t ot :
  shape h → counts_off h None 0 → nonempty_upto h (Some t) →
  h !! t = Some ot → (t ≠ ROOT → (1 ≤ numNodes ot)%Z) → nonempty_upto h None.
Proof.
  intros Hs Hc Hne Ht Hpos b ob Hb Hbr.
  destruct (Hne b ob Hb Hbr) as [?|[Hz (t'&[= <-]&Hanc)]]; [by left|]. left.
  destruct (decide (t = ROOT)) as [->|Htr].
  - destruct (shape_root _ Hs) as (r&Hr&Hrp).
    apply (anc_root_parentless _ _ _ _ Hr Hrp) in Hanc. congruence.
  - eapply anc_nonempty; eauto.
Qed.

Lemma nonempty_upto_weaken h t : nonempty_upto h None → nonempty_upto h t.
Proof.
  intros Hne b ob Hb Hbr. destruct (Hne b ob Hb Hbr) as [?|[_ (?&?&_)]]; [by left|done].
Qed.


(** * Adding and removing objects *)

Lemma eraseFirst_length n l : n ∈ l → S (length (eraseFirst n l)) = length l.
Proof.
  induction l as [|x l IH]; intros Hin; [by apply elem_of_nil in Hin|].
  simpl. destruct (decide (x = n)) as [->|Hne]; [done|]. simpl.
  apply elem_of_cons in Hin as [->|Hin]; [done|]. by rewrite IH.
Qed.

Lemma eraseFirst_notin n l : n ∉ l → eraseFirst n l = l.
Proof.
  induction l as [|x l IH]; intros Hin; [done|]. simpl.
  apply not_elem_of_cons in Hin as [? ?]. rewrite decide_False by done. by rewrite IH.
Qed.

Lemma eraseFirst_other n m l : m ≠ n → m ∈ eraseFirst n l ↔ m ∈ l.
Proof.
  intros Hne. induction l as [|x l IH]; [done|]. simpl.
  destruct (decide (x = n)) as [->|Hx].
  - rewrite elem_of_cons. split; [by right|intros [?|?]; [congruence|done]].
  - rewrite !elem_of_cons, IH. done.
Qed.

Lemma eraseFirst_subset n m l : m ∈ eraseFirst n l → m ∈ l.
Proof.
  induction l as [|x l IH]; [done|]. simpl.
  destruct (decide (x = n)) as [->|Hx].
  - intros. by right.
  - rewrite !elem_of_cons. intros [?|?]; [by left|right; by apply IH].
Qed.

Lemma eraseFirst_NoDup n l : NoDup l → NoDup (eraseFirst n l) ∧ n ∉ eraseFirst n l.
Proof.
  induction 1 as [|x l Hx Hl IH]; [split; [constructor|apply not_elem_of_nil]|].
  simpl. destruct (decide (x = n)) as [->|Hne]; [done|].
  destruct IH as [IH1 IH2]. split.
  - constructor; [|done]. intros ?. apply Hx. by eapply eraseFirst_subset.
  - apply not_elem_of_cons. done.
Qed.

Lemma childCount_same_counts h h' :
  (∀ b, numNodes <$> h' !! b = numNodes <$> h !! b) →
  ∀ y, childCount h' y = childCount h y.
Proof.
  intros H [b|]; [|done]. simpl. specialize (H b).
  destruct (h' !! b), (h !! b); simpl in H; congruence.
Qed.

(** Replacing the object list of one octant moves the counts off by the
    change in length. *)
Lemma counts_set_nodes h a o l d :
  counts_off h None 0 → h !! a = Some o →
  (Z.of_nat (length l) = Z.of_nat (length (nodes o)) + d)%Z →
  ∀ o', same_skel o o' → numNodes o' = numNodes o → nodes o' = l →
  counts_off (<[a := o']> h) (Some a) d.
Proof.
  intros Hc Ha Hlen o' Hsk Hnum Hn b ob Hb.
  assert (Hcc : ∀ y, childCount (<[a := o']> h) y = childCount h y).
  { apply childCount_same_counts. intros c. destruct (decide (a = c)) as [<-|].
    - rewrite lookup_insert_eq, Ha. simpl. by rewrite Hnum.
    - by rewrite lookup_insert_ne. }
  destruct (decide (a = b)) as [<-|Hne].
  - rewrite lookup_insert_eq in Hb. injection Hb as <-.
    rewrite decide_True by done. specialize (Hc a o Ha). rewrite decide_False in Hc by done.
    destruct Hsk as (_&_&_&_&_&->&_).
    rewrite (sumZ_same (childCount h)) by (intros; apply Hcc). rewrite Hnum, Hn. lia.
  - rewrite lookup_insert_ne in Hb by done.
    rewrite decide_False by congruence. specialize (Hc b ob Hb).
    rewrite decide_False in Hc by done.
    rewrite (sumZ_same (childCount h)) by (intros; apply Hcc). done.
Qed.

Lemma nonempty_upto_skel h h' t :
  heap_rel same_skel h h' → (∀ b, numNodes <$> h' !! b = numNodes <$> h !! b) →
  nonempty_upto h t → nonempty_upto h' t.
Proof.
  intros Hrel Hnum Hne b ob' Hb Hbr.
  destruct (heap_rel_bwd _ _ _ _ _ Hrel Hb) as (ob&Hob&_).
  specialize (Hnum b). rewrite Hb, Hob in Hnum. simpl in Hnum. injection Hnum as ->.
  destruct (Hne b ob Hob Hbr) as [?|[? (t'&Ht&Hanc)]]; [by left|]. right.
  split; [done|]. exists t'. split; [done|]. by eapply anc_skel.
Qed.

Lemma depthFuel_bound h a o r :
  shape h → h !! a = Some o → h !! ROOT = Some r →
  (Z.to_nat (level r - level o) < S (Z.to_nat (level r)))%nat.
Proof. intros Hs Ha Hr. pose proof (shape_level _ Hs _ _ _ Ha Hr). lia. Qed.

(** AddNode on a heap in shape. *)
Lemma AddNode_ok s n t ot k :
  shape (octants s) → counts_off (octants s) None 0 → nonempty_upto (octants s) (Some t) →
  octants s !! t = Some ot → rootCount (octants s) k →
  ∃ h2, AddNode s n t =
          Some (mkOctree h2 (updateQueue s)
                  (if sortDirty ot then sortDirtyOctants s else sortDirtyOctants s ++ [t])
                  (<[n := t]> (octantOf s)) (queuedFlag s) (lastUpdateFrameNumber s)) ∧
        heapOK h2 ∧ rootCount h2 (k + 1) ∧
        ∀ b, option_Forall2 (added n t b) (octants s !! b) (h2 !! b).
Proof.
  intros Hs Hc Hne Ht (r&Hr&Hk).
  unfold AddNode. rewrite Ht. simpl.
  set (o1 := set_nodes ot (nodes ot ++ [n])).
  set (o2 := if sortDirty ot then o1 else set_sortDirty o1 true).
  set (hA := <[t := o2]> (octants s)).
  assert (Hsk : same_skel ot o2).
  { unfold o2, o1. destruct (sortDirty ot); by repeat split. }
  assert (Hnum : numNodes o2 = numNodes ot).
  { unfold o2, o1. by destruct (sortDirty ot). }
  assert (Hnodes : nodes o2 = nodes ot ++ [n]).
  { unfold o2, o1. by destruct (sortDirty ot). }
  assert (Hdirty : sortDirty o2 = true).
  { unfold o2, o1. by destruct (sortDirty ot) eqn:E. }
  assert (Hrel : heap_rel same_skel (octants s) hA).
  { apply heap_rel_insert with ot; [apply same_skel_refl|done|done]. }
  assert (Hcnt : ∀ b, numNodes <$> hA !! b = numNodes <$> octants s !! b).
  { intros b. unfold hA. destruct (decide (t = b)) as [<-|].
    - rewrite lookup_insert_eq, Ht. simpl. by rewrite Hnum.
    - by rewrite lookup_insert_ne. }
  assert (HsA : shape hA) by (by eapply shape_skel).
  assert (HcA : counts_off hA (Some t) 1).
  { apply (counts_set_nodes (octants s) t ot (nodes ot ++ [n]) 1); [done|done| |done|done|done].
    rewrite length_app. simpl. lia. }
  assert (HneA : nonempty_upto hA (Some t)) by (by eapply nonempty_upto_skel).
  assert (HtA : hA !! t = Some o2) by (unfold hA; by rewrite lookup_insert_eq).
  assert (∃ rA, hA !! ROOT = Some rA ∧ numNodes rA = k ∧ level rA = level r) as (rA&HrA&HkA&HlA).
  { destruct (heap_rel_fwd _ _ _ _ _ Hrel Hr) as (rA&HrA&(?&?&?&?&Hl&_)).
    exists rA. split; [done|]. split; [|done].
    specialize (Hcnt ROOT). rewrite HrA, Hr in Hcnt. simpl in Hcnt. congruence. }
  destruct (incBranch_ok (depthFuel (octants s)) hA t o2 rA) as (h2&Hrun&Hrel2&Hok&Hroot);
    [done|done|done|done|done| |].
  { unfold depthFuel. rewrite Hr, <- HlA. by eapply depthFuel_bound. }
  rewrite Hrun. simpl.
  exists h2. split; [done|]. split; [done|]. split; [by rewrite <- HkA|].
  intros b. specialize (Hrel2 b). unfold hA in Hrel2.
  destruct (decide (b = t)) as [->|Hbt].
  - rewrite lookup_insert_eq in Hrel2. rewrite Ht. inversion Hrel2 as [? o' Hsbc|]; subst.
    constructor. unfold added. rewrite Hsbc. simpl. case_decide; [|done].
    split; [|by rewrite Hnodes, Hdirty].
    eapply same_skel_trans; [done|]. apply set_numNodes_skel.
  - rewrite lookup_insert_ne in Hrel2 by done.
    destruct Hrel2 as [o o' Hsbc|]; constructor.
    unfold added. rewrite Hsbc. simpl. case_decide; [done|].
    split; [apply set_numNodes_skel|done].
Qed.

(** RemoveNode(node, octant) on a heap in shape, for an object that the
    octant holds. *)
Lemma RemoveNodeFrom_ok h n a o k :
  heapOK h → h !! a = Some o → n ∈ nodes o → rootCount h k →
  ∃ h3, RemoveNodeFrom h n (Some a) = Some h3 ∧ heapOK h3 ∧ rootCount h3 (k - 1) ∧
        removed_view n a h h3 ∧
        (∀ b ob, anc h a b → h !! b = Some ob →
           match h3 !! b with
           | Some ob' => numNodes ob' = (numNodes ob - 1)%Z
           | None => numNodes ob = 1%Z ∧ b ≠ ROOT
           end) ∧
        (∀ b, ¬ anc h a b → h3 !! b = h !! b).
Proof.
  intros (Hs&Hc&Hne) Ha Hin (r&Hr&Hk).
  unfold RemoveNodeFrom. rewrite Ha. simpl. rewrite decide_True by done.
  set (oE := set_nodes o (eraseFirst n (nodes o))).
  set (hE := <[a := oE]> h).
  assert (Hsk : same_skel o oE) by (by repeat split).
  assert (Hrel : heap_rel same_skel h hE).
  { apply heap_rel_insert with o; [apply same_skel_refl|done|done]. }
  assert (Hcnt : ∀ b, numNodes <$> hE !! b = numNodes <$> h !! b).
  { intros b. unfold hE. destruct (decide (a = b)) as [<-|].
    - by rewrite lookup_insert_eq, Ha.
    - by rewrite lookup_insert_ne. }
  assert (HsE : shape hE) by (by eapply shape_skel).
  assert (HcE : counts_off hE (Some a) (-1)).
  { apply (counts_set_nodes h a o (eraseFirst n (nodes o)) (-1)); [done|done| |done|done|done].
    pose proof (eraseFirst_length n (nodes o) Hin). lia. }
  assert (HneE : nonempty_upto hE None) by (by eapply nonempty_upto_skel).
  assert (HaE : hE !! a = Some oE) by (unfold hE; by rewrite lookup_insert_eq).
  assert (∃ rE, hE !! ROOT = Some rE ∧ numNodes rE = k ∧ level rE = level r) as (rE&HrE&HkE&HlE).
  { destruct (heap_rel_fwd _ _ _ _ _ Hrel Hr) as (rE&HrE&(?&?&?&?&Hl&_)).
    exists rE. split; [done|]. split; [|done].
    specialize (Hcnt ROOT). rewrite HrE, Hr in Hcnt. simpl in Hcnt. congruence. }
  destruct (decBranch_ok (depthFuel h) hE a oE rE) as (h3&Hrun&Hok&Hv&Hroot&Hanc&Hframe);
    [done|done|done|done|done| |].
  { unfold depthFuel. rewrite Hr, <- HlE. by eapply depthFuel_bound. }
  exists h3. split; [done|]. split; [done|]. split; [by rewrite <- HkE|].
  split; [|split].
  - intros b. specialize (Hv b). destruct (h3 !! b) as [o3|].
    + destruct Hv as (oe&Hoe&(?&?&?&?&?&?&Hn3&?&_)).
      unfold hE in Hoe. destruct (decide (b = a)) as [->|Hba].
      * rewrite lookup_insert_eq in Hoe. injection Hoe as <-. exists o. done.
      * rewrite lookup_insert_ne in Hoe by done. exists oe. done.
    + intros ob Hob. unfold hE in Hv. destruct (decide (b = a)) as [->|Hba].
      * rewrite lookup_insert_eq in Hv. assert (ob = o) as -> by congruence.
        destruct (Hv oE eq_refl) as (?&?). done.
      * rewrite lookup_insert_ne in Hv by done. destruct (Hv ob Hob). done.
  - intros b ob Hb Hob.
    destruct (heap_rel_fwd _ _ _ _ _ Hrel Hob) as (obE&HobE&_).
    assert (numNodes obE = numNodes ob) as <-.
    { specialize (Hcnt b). rewrite HobE, Hob in Hcnt. simpl in Hcnt. congruence. }
    apply (Hanc b obE); [by eapply anc_skel|done].
  - intros b Hb. rewrite Hframe.
    + unfold hE. rewrite lookup_insert_ne; [done|]. intros <-. apply Hb. constructor.
    + intros ?. apply Hb. eapply anc_skel; [|done]. by apply heap_rel_sym_skel.
Qed.


(** * One iteration of the queue loop of Update *)

Lemma fastOK_ext o o' box :
  cullingBox o' = cullingBox o → worldBoundingBox o' = worldBoundingBox o →
  halfSize o' = halfSize o → level o' = level o →
  fastOK o' box = fastOK o box.
Proof. intros Hk Hw Hh Hl. unfold fastOK, FitBoundingBox. by rewrite Hk, Hw, Hh, Hl. Qed.

(** ** The descent keeps what the loop knows *)

Lemma linked_grow h h' m : grow_view h h' → shape h → linked h m → linked h' m.
Proof.
  intros Hg Hs (Hl&Hnd). split.
  - intros n a. rewrite Hl. split.
    + intros (o&Ho&Hin). destruct (grow_view_fwd _ _ _ _ Hg Ho) as (o'&Ho'&Hsg).
      exists o'. split; [done|]. destruct Hsg as (_&_&_&_&_&_&->&_). done.
    + intros (o'&Ho'&Hin). specialize (Hg a). destruct (h !! a) as [o|].
      * destruct Hg as (o2&Ho2&Hsg). assert (o2 = o') as -> by congruence.
        exists o. split; [done|]. destruct Hsg as (_&_&_&_&_&_&<-&_). done.
      * destruct (Hg o' Ho') as (Hn&_). rewrite Hn in Hin. by apply elem_of_nil in Hin.
  - intros a o' Ho'. specialize (Hg a). destruct (h !! a) as [o|] eqn:Ho.
    + destruct Hg as (o2&Ho2&Hsg). assert (o2 = o') as -> by congruence.
      destruct Hsg as (_&_&_&_&_&_&->&_). by eapply Hnd.
    + destruct (Hg o' Ho') as (->&_). constructor.
Qed.

Lemma dirty1_grow h h' dl : grow_view h h' → dirty1 h dl → dirty1 h' dl.
Proof.
  intros Hg Hd a o' Ho' Hdirty. specialize (Hg a). destruct (h !! a) as [o|] eqn:Ho.
  - destruct Hg as (o2&Ho2&Hsg). assert (o2 = o') as -> by congruence.
    destruct Hsg as (_&_&_&_&_&_&_&_&Hsd&_). apply (Hd a o Ho). congruence.
  - destruct (Hg o' Ho') as (_&_&?&_). congruence.
Qed.

Lemma dirty2_grow h h' dl P : grow_view h h' → dirty2 h dl P → dirty2 h' dl P.
Proof.
  intros Hg Hd a Ha. destruct (Hd a Ha) as (o&n&Ho&Hin&HP).
  destruct (grow_view_fwd _ _ _ _ Hg Ho) as (o'&Ho'&Hsg).
  exists o', n. split; [done|]. destruct Hsg as (_&_&_&_&_&_&->&_). done.
Qed.

Lemma target_grow h h' box a : grow_view h h' → target h box a → target h' box a.
Proof.
  intros Hg (Hup&o&Ho&Hins). split; [by eapply upath_grow|].
  destruct (grow_view_fwd _ _ _ _ Hg Ho) as (o'&Ho'&?&?&?&?&?&_).
  exists o'. split; [done|]. rewrite <- Hins. by apply insertHere_ext.
Qed.

Lemma settled_grow h h' m wb n : grow_view h h' → settled h m wb n → settled h' m wb n.
Proof.
  intros Hg (a&o&Hm&Ho&Hcase).
  destruct (grow_view_fwd _ _ _ _ Hg Ho) as (o'&Ho'&?&?&?&?&?&_).
  exists a, o'. split; [done|]. split; [done|]. destruct Hcase as [Hf|Ht].
  - left. rewrite <- Hf. by apply fastOK_ext.
  - right. by eapply target_grow.
Qed.

(** ** Moving one object keeps what the loop knows about the others *)

Lemma placeNodes_other n t old b l m : m ≠ n → m ∈ placeNodes n t old b l ↔ m ∈ l.
Proof.
  intros Hne. unfold placeNodes. destruct (decide (b = t)).
  - rewrite elem_of_app, list_elem_of_singleton. split; [intros [?|?]; [done|congruence]|by left].
  - destruct (decide (old = Some b)); [by apply eraseFirst_other|done].
Qed.

Lemma moved_live n t old h h' b o m :
  moved n t old h h' → h !! b = Some o → m ≠ n → m ∈ nodes o →
  ∃ o', h' !! b = Some o' ∧ m ∈ nodes o' ∧
        cullingBox o' = cullingBox o ∧ worldBoundingBox o' = worldBoundingBox o ∧
        halfSize o' = halfSize o ∧ level o' = level o.
Proof.
  intros Hm Hb Hne Hin. specialize (Hm b). destruct (h' !! b) as [o'|].
  - destruct Hm as (o1&Ho1&?&?&?&?&?&?&?&Hn). assert (o1 = o) as -> by congruence.
    exists o'. split; [done|]. split; [|done]. rewrite Hn. by apply placeNodes_other.
  - destruct (Hm o Hb) as (_&He).
    assert (m ∈ placeNodes n t old b (nodes o)) as Hx by (by apply placeNodes_other).
    rewrite He in Hx. by apply elem_of_nil in Hx.
Qed.

Lemma upath_moved n t old h h' box x :
  moved n t old h h' → shape h' → upath h box x → is_Some (h' !! x) → upath h' box x.
Proof.
  intros Hm Hs. induction 1 as [|x o p po Hx Hp Hpo Hins Hidx _ IH]; [constructor|].
  intros (o'&Hx'). pose proof (Hm x) as Hmx. rewrite Hx' in Hmx.
  destruct Hmx as (o1&Ho1&_&_&Hc&_&_&Hpar&_). assert (o1 = o) as -> by congruence.
  assert (Hxr : x ≠ ROOT).
  { intros ->. destruct (shape_root _ Hs) as (r&Hr&Hrp). congruence. }
  destruct (shape_parent _ Hs _ _ Hx' Hxr) as (p'&po'&Hp'&Hpo'&_).
  assert (p' = p) as -> by congruence.
  pose proof (Hm p) as Hmp. rewrite Hpo' in Hmp.
  destruct Hmp as (po1&Hpo1&?&?&Hpc&?&?&_). assert (po1 = po) as -> by congruence.
  eapply (upath_child h' box x o' p po'); [done|done|done| | |eauto].
  - rewrite <- Hins. by apply insertHere_ext.
  - rewrite Hc, !(ChildIndex_ext po' po) by done. done.
Qed.

Lemma target_moved n t old h h' box x :
  moved n t old h h' → shape h' → target h box x → is_Some (h' !! x) → target h' box x.
Proof.
  intros Hm Hs (Hup&o&Ho&Hins) Hlive. split; [by eapply upath_moved|].
  destruct Hlive as (o'&Ho'). pose proof (Hm x) as Hmx. rewrite Ho' in Hmx.
  destruct Hmx as (o1&Ho1&?&?&?&?&?&_). assert (o1 = o) as -> by congruence.
  exists o'. split; [done|]. rewrite <- Hins. by apply insertHere_ext.
Qed.

Lemma settled_moved n t old h h' m wb x :
  moved n t old h h' → shape h' → linked h m → x ≠ n →
  settled h m wb x → settled h' (<[n := t]> m) wb x.
Proof.
  intros Hm Hs (Hl&_) Hne (a&o&Hx&Ho&Hcase).
  assert (Hin : x ∈ nodes o).
  { apply Hl in Hx as (o2&Ho2&?). congruence. }
  destruct (moved_live _ _ _ _ _ _ _ _ Hm Ho Hne Hin) as (o'&Ho'&_&?&?&?&?).
  exists a, o'. split; [by rewrite lookup_insert_ne|]. split; [done|].
  destruct Hcase as [Hf|Ht].
  - left. rewrite <- Hf. by apply fastOK_ext.
  - right. eapply target_moved; eauto.
Qed.

Lemma linked_moved n t old h h' m ot :
  moved n t old h h' → linked h m → m !! n = old → old ≠ Some t →
  h !! t = Some ot → is_Some (h' !! t) →
  linked h' (<[n := t]> m).
Proof.
  intros Hm (Hl&Hnd) Hold Hne Ht Hlive.
  assert (Hn_in : ∀ b o, h !! b = Some o → n ∈ nodes o → old = Some b).
  { intros b o Hb Hin. rewrite <- Hold. apply Hl. eauto. }
  split.
  - intros x a. destruct (decide (x = n)) as [->|Hx].
    + rewrite lookup_insert_eq. split.
      * intros [= <-]. destruct Hlive as (o'&Ho'). exists o'. split; [done|].
        pose proof (Hm t) as Hmt. rewrite Ho' in Hmt.
        destruct Hmt as (o1&Ho1&_&_&_&_&_&_&_&Hn). rewrite Hn. unfold placeNodes.
        rewrite decide_True by done. apply elem_of_app. right. by apply list_elem_of_singleton.
      * intros (o'&Ho'&Hin). pose proof (Hm a) as Hma. rewrite Ho' in Hma.
        destruct Hma as (o1&Ho1&_&_&_&_&_&_&_&Hn). rewrite Hn in Hin.
        unfold placeNodes in Hin. destruct (decide (a = t)) as [->|Hat]; [done|].
        exfalso. destruct (decide (old = Some a)) as [Ho|Ho].
        -- destruct (eraseFirst_NoDup n (nodes o1) (Hnd _ _ Ho1)) as [_ Hx]. done.
        -- apply Ho. by eapply Hn_in.
    + rewrite lookup_insert_ne by done. rewrite Hl. split.
      * intros (o&Ho&Hin).
        destruct (moved_live _ _ _ _ _ _ _ _ Hm Ho Hx Hin) as (o'&Ho'&?&_). eauto.
      * intros (o'&Ho'&Hin). pose proof (Hm a) as Hma. rewrite Ho' in Hma.
        destruct Hma as (o1&Ho1&_&_&_&_&_&_&_&Hn). exists o1. split; [done|].
        rewrite Hn in Hin. by apply placeNodes_other in Hin.
  - intros a o' Ho'. pose proof (Hm a) as Hma. rewrite Ho' in Hma.
    destruct Hma as (o1&Ho1&_&_&_&_&_&_&_&Hn). rewrite Hn. unfold placeNodes.
    pose proof (Hnd _ _ Ho1) as Hnd1.
    destruct (decide (a = t)) as [->|Hat].
    + apply NoDup_app. split; [done|]. split; [|apply NoDup_singleton].
      intros y Hy ->%list_elem_of_singleton. apply Hne. by eapply Hn_in.
    + destruct (decide (old = Some a)); [|done]. by apply eraseFirst_NoDup.
Qed.

Lemma dirty_moved n t old h h' m dl P ot :
  moved n t old h h' → linked h m → linked h' (<[n := t]> m) → n ∉ P →
  h !! t = Some ot → is_Some (h' !! t) →
  dirty1 h dl → dirty2 h dl P →
  let dl' := if sortDirty ot then dl else dl ++ [t] in
  dirty1 h' dl' ∧ dirty2 h' dl' ({[n]} ∪ P).
Proof.
  intros Hm (Hl&_) (Hl'&_) HnP Ht Hlive Hd1 Hd2 dl'. split.
  - intros a o' Ho' Hdirty. pose proof (Hm a) as Hma. rewrite Ho' in Hma.
    destruct Hma as (o1&Ho1&_&_&_&_&_&_&Hsd&_). unfold dl'.
    destruct (decide (a = t)) as [->|Hat].
    + assert (o1 = ot) as -> by congruence. destruct (sortDirty ot) eqn:E.
      * by apply (Hd1 t ot).
      * apply elem_of_app. right. by apply list_elem_of_singleton.
    + assert (a ∈ dl) by (apply (Hd1 a o1); congruence).
      destruct (sortDirty ot); [done|]. apply elem_of_app. by left.
  - assert (Hold : ∀ a, a ∈ dl → ∃ o x, h' !! a = Some o ∧ x ∈ nodes o ∧ x ∈ {[n]} ∪ P).
    { intros a Ha. destruct (Hd2 a Ha) as (o&x&Ho&Hin&HP).
      assert (x ≠ n) by (intros ->; done).
      destruct (moved_live _ _ _ _ _ _ _ _ Hm Ho H Hin) as (o'&Ho'&?&_).
      exists o', x. split; [done|]. split; [done|]. set_solver. }
    assert (Hnew : ∃ o x, h' !! t = Some o ∧ x ∈ nodes o ∧ x ∈ {[n]} ∪ P).
    { assert (<[n := t]> m !! n = Some t) as Hx by apply lookup_insert_eq.
      apply Hl' in Hx as (o'&Ho'&Hin). exists o', n. split; [done|]. split; [done|].
      set_solver. }
    intros a Ha. unfold dl' in Ha. destruct (sortDirty ot); [by apply Hold|].
    apply elem_of_app in Ha as [Ha|Ha]; [by apply Hold|].
    apply list_elem_of_singleton in Ha as ->. done.
Qed.

Lemma moved_of_add n t h1 h2 :
  (∀ b, option_Forall2 (added n t b) (h1 !! b) (h2 !! b)) → moved n t None h1 h2.
Proof.
  intros Ha b. specialize (Ha b). destruct (h2 !! b) as [o'|] eqn:E2.
  - destruct (oF2_bwd _ _ _ _ Ha eq_refl) as (o&Ho&((?&?&?&?&?&?&?)&Hn&Hsd)).
    exists o. split; [done|]. repeat split; try done.
  - intros o Ho. apply oF2_None in Ha. congruence.
Qed.

Lemma moved_of_add_remove n t a h1 h2 h3 :
  (∀ b, option_Forall2 (added n t b) (h1 !! b) (h2 !! b)) → removed_view n a h2 h3 →
  a ≠ t → moved n t (Some a) h1 h3.
Proof.
  intros Ha Hr Hat b. specialize (Ha b). specialize (Hr b).
  assert (Hpn : ∀ o1 o2, added n t b o1 o2 →
            (if decide (b = a) then eraseFirst n (nodes o2) else nodes o2) =
            placeNodes n t (Some a) b (nodes o1) ∨ (b = t ∧ nodes o2 = nodes o1 ++ [n])).
  { intros o1 o2 (_&Hn&_). unfold placeNodes. rewrite Hn.
    destruct (decide (b = t)) as [->|Hbt].
    - right. done.
    - left. destruct (decide (b = a)) as [->|Hba].
      + by rewrite decide_True.
      + rewrite decide_False; [done|congruence]. }
  destruct (h3 !! b) as [o3|].
  - destruct Hr as (o2&Ho2&?&?&?&?&?&?&Hsd&Hn).
    destruct (oF2_bwd _ _ _ _ Ha Ho2) as (o1&Ho1&Hadd).
    destruct (Hadd) as ((?&?&?&?&?&?&?)&Hn2&Hsd2).
    exists o1. split; [done|]. repeat split; try congruence.
    rewrite Hn. destruct (Hpn _ _ Hadd) as [->|(->&Hx)]; [done|].
    rewrite decide_False by done. unfold placeNodes. by rewrite decide_True.
  - intros o1 Ho1. destruct (oF2_fwd _ _ _ _ Ha Ho1) as (o2&Ho2&Hadd).
    destruct (Hr o2 Ho2) as (Hbr&He). split; [done|].
    destruct (Hpn _ _ Hadd) as [<-|(->&Hx)]; [done|].
    rewrite decide_False in He by done. rewrite Hx in He. by destruct (nodes o1).
Qed.

Lemma size_insert_case (m : gmap nat nat) n t :
  Z.of_nat (size (<[n := t]> m)) =
  (Z.of_nat (size m) + (if m !! n is Some _ then 0 else 1))%Z.
Proof.
  destruct (m !! n) as [a|] eqn:Hn.
  - rewrite map_size_insert_Some by eauto. lia.
  - rewrite map_size_insert_None by done. lia.
Qed.

(** One iteration of the queue loop keeps the invariant, resolves its
    object, and leaves an object that was resolved before where it is. *)
(** ** What one iteration leaves of the octants *)

Lemma stepView_refl n h : stepView n h h.
Proof.
  intros b o' Hb. rewrite Hb. split; [by repeat split|]. intros ?. split; [done|by left].
Qed.

Lemma stepView_grow n h h1 : grow_view h h1 → stepView n h h1.
Proof.
  intros Hg b o' Hb. pose proof (Hg b) as Hgb. destruct (h !! b) as [o|].
  - destruct Hgb as (o1&Ho1&?&?&?&?&?&?&Hn&_&Hsd&_). assert (o1 = o') as -> by congruence.
    split; [by repeat split|]. intros Hd. split; [congruence|by left].
  - destruct (Hgb o' Hb) as (?&_). done.
Qed.

Lemma stepView_moved n t old h h1 h3 :
  grow_view h h1 → moved n t old h1 h3 → stepView n h h3.
Proof.
  intros Hg Hmv b o' Hb. pose proof (Hmv b) as Hmb. rewrite Hb in Hmb.
  destruct Hmb as (o1&Ho1&Hc&Hw&Hce&Hh&Hl&Hp&Hsd&Hn).
  assert (Hbt : sortDirty o' = false → b ≠ t).
  { intros Hd ->. rewrite decide_True in Hsd by done. congruence. }
  pose proof (Hg b) as Hgb. destruct (h !! b) as [o|].
  - destruct Hgb as (o1'&Ho1'&?&?&?&?&?&?&Hn1&_&Hsd1&_).
    assert (o1' = o1) as -> by congruence.
    split; [repeat split; congruence|]. intros Hd. pose proof (Hbt Hd) as Hne.
    rewrite decide_False in Hsd by done. split; [congruence|].
    unfold placeNodes in Hn. rewrite decide_False in Hn by done.
    rewrite Hn, Hn1. case_decide; auto.
  - destruct (Hgb o1 Ho1) as (Hn1&_). intros Hd. pose proof (Hbt Hd) as Hne.
    unfold placeNodes in Hn. rewrite decide_False in Hn by done.
    rewrite Hn, Hn1. by case_decide.
Qed.

Lemma updateNode_ok wb frame P s n :
  uwf wb P s →
  ∃ s', updateNode wb frame s n = Some s' ∧ uwf wb ({[n]} ∪ P) s' ∧
    updateQueue s' = updateQueue s ∧ queuedFlag s' = queuedFlag s ∖ {[n]} ∧
    lastUpdateFrameNumber s' = <[n := frame]> (lastUpdateFrameNumber s) ∧
    (∀ m, m ≠ n → octantOf s' !! m = octantOf s !! m) ∧
    (n ∈ P → octants s' = octants s ∧ octantOf s' = octantOf s ∧
             sortDirtyOctants s' = sortDirtyOctants s) ∧
    (∀ m a o, m ≠ n → octantOf s !! m = Some a → octants s !! a = Some o →
       ∃ o', octants s' !! a = Some o' ∧ cullingBox o' = cullingBox o) ∧
    (∀ r, octants s !! ROOT = Some r →
       ∃ r', octants s' !! ROOT = Some r' ∧ cullingBox r' = cullingBox r ∧
             worldBoundingBox r' = worldBoundingBox r ∧ level r' = level r) ∧
    (∀ m, atTarget (octants s) (octantOf s) wb m → atTarget (octants s') (octantOf s') wb m) ∧
    (octantOf s !! n = None → atTarget (octants s') (octantOf s') wb n) ∧
    stepView n (octants s) (octants s').
Proof.
  intros [(Hs&Hc&Hne) Hlk Htot Hd1 Hd2 Hset].
  pose proof Hlk as (Hl&Hnd).
  unfold updateNode. simpl.
  set (h := octants s) in *. set (box := wb n).
  (* the test "still fits" *)
  assert (Hfits : ∃ fits, stillFits h (octantOf s !! n) box = Some fits ∧
            (fits = true → ∃ a o, octantOf s !! n = Some a ∧ h !! a = Some o ∧
                                  fastOK o box = true) ∧
            (fits = false → ∀ a o, octantOf s !! n = Some a → h !! a = Some o →
                                   fastOK o box = false)).
  { destruct (octantOf s !! n) as [a|] eqn:Hold; simpl.
    - apply Hl in Hold as (o&Ho&Hin). rewrite Ho. simpl. eexists. split; [done|].
      split; [intros ?; by exists a, o|]. intros ? a' o' [= <-] Ho'.
      assert (o' = o) as -> by congruence. done.
    - exists false. split; [done|]. split; [done|]. intros ? ? ? [=]. }
  destruct Hfits as (fits&Hfits&Hft&Hff). rewrite Hfits. simpl.
  destruct fits.
  { (* the object stays where it is *)
    destruct (Hft eq_refl) as (a&o&Hold&Ho&Hfast).
    eexists. split; [done|]. simpl.
    split_and!; try done; [|eauto..|intros; congruence|apply stepView_refl].
    split; simpl; try done.
    - intros a' Ha'. destruct (Hd2 a' Ha') as (o'&x&?&?&?). exists o', x. set_solver.
    - intros x [->%elem_of_singleton|Hx]%elem_of_union.
      + exists a, o. auto.
      + by apply Hset. }
  (* the descent *)
  destruct (shape_root _ Hs) as (r&Hr&Hrp).
  destruct (descend_ok (depthFuel h) h ROOT r box) as (h1&t&Hdesc&Hs1&Hc1&Hne1&Hg&Htgt);
    [done|done|by apply nonempty_upto_weaken|done|done| |constructor|].
  { unfold depthFuel. rewrite Hr. lia. }
  rewrite Hdesc. simpl.
  destruct Htgt as (Hup&ot&Hot&Hins).
  assert (Htgt : target h1 box t) by (split; eauto).
  assert (Hlk1 : linked h1 (octantOf s)) by (by eapply linked_grow).
  assert (Hroot1 : ∃ r1, h1 !! ROOT = Some r1 ∧ cullingBox r1 = cullingBox r ∧
            worldBoundingBox r1 = worldBoundingBox r ∧ level r1 = level r ∧
            numNodes r1 = numNodes r).
  { destruct (grow_view_fwd _ _ _ _ Hg Hr) as (r1&Hr1&?&?&?&?&?&?&?&?&_). exists r1. done. }
  destruct Hroot1 as (r1&Hr1&Hr1k&Hr1w&Hr1l&Hr1n).
  assert (Hkeep1 : ∀ m a o, octantOf s !! m = Some a → h !! a = Some o →
            ∃ o1, h1 !! a = Some o1 ∧ cullingBox o1 = cullingBox o ∧ nodes o1 = nodes o).
  { intros m a o _ Ho. destruct (grow_view_fwd _ _ _ _ Hg Ho) as (o1&Ho1&?&?&?&?&?&?&?&_).
    exists o1. done. }
  assert (HinP : n ∈ P → h1 = h ∧ octantOf s !! n = Some t).
  { intros HP. destruct (Hset n HP) as (a&o&Hold&Ho&[Hfast|Ht]).
    - pose proof (Hff eq_refl a o Hold Ho) as Hx. unfold box in Hx. congruence.
    - pose proof (descend_target h box a Hs Ht) as Hd.
      rewrite Hd in Hdesc. injection Hdesc as <- <-. done. }
  destruct (decide (Some t = octantOf s !! n)) as [Hsame|Hdiff].
  { (* the target is the octant that holds the object *)
    symmetry in Hsame. pose proof Hsame as Hold. apply Hlk1 in Hold as (ot'&Hot'&Hin).
    assert (ot' = ot) as -> by congruence.
    assert (Hok1 : nonempty_upto h1 None).
    { eapply nonempty_upto_drop; [done|done|done|done|]. intros _.
      specialize (Hc1 t ot Hot). rewrite decide_False in Hc1 by done.
      assert (0 ≤ sumZ (childCount h1 <$> children ot))%Z.
      { apply sumZ_nonneg. intros y Hy. eapply childCount_nonneg; [done|]. intros ->.
        apply list_elem_of_lookup in Hy as (j&Hj).
        by destruct (shape_child _ Hs1 _ _ _ _ Hot Hj). }
      destruct (nodes ot); [by apply elem_of_nil in Hin|]. simpl in Hc1. lia. }
    eexists. split; [done|]. simpl. split_and!; try done.
    - split; simpl.
      + done.
      + done.
      + destruct Htot as (r0&Hr0&Hk). assert (r0 = r) as -> by congruence.
        exists r1. split; [done|congruence].
      + by eapply dirty1_grow.
      + intros a' Ha'. destruct (dirty2_grow _ _ _ _ Hg Hd2 a' Ha') as (o'&x&?&?&?).
        exists o', x. set_solver.
      + intros x [->%elem_of_singleton|Hx]%elem_of_union.
        * exists t, ot. auto.
        * eapply settled_grow; [done|]. by apply Hset.
    - intros HP. by destruct (HinP HP) as (->&_).
    - intros m a o _ Hm Ho. destruct (Hkeep1 m a o Hm Ho) as (o1&?&?&_). eauto.
    - intros r0 Hr0. assert (r0 = r) as -> by congruence. exists r1. done.
    - intros m (a&Hm&Ht). exists a. split; [done|]. by eapply target_grow.
    - intros Hx. congruence.
    - by apply stepView_grow. }
  (* the object moves to the target *)
  assert (HnP : n ∉ P).
  { intros HP. destruct (HinP HP) as (_&?). congruence. }
  destruct Htot as (r0&Hr0&Hk). assert (r0 = r) as -> by congruence.
  set (s1 := set_octants _ h1).
  destruct (AddNode_ok s1 n t ot (numNodes r1)) as (h2&Hadd&Hok2&Hroot2&Hrel2);
    [done|done|done|done|by exists r1|].
  rewrite Hadd. simpl.
  assert (Ht2 : is_Some (h2 !! t)).
  { destruct (oF2_fwd _ _ _ _ (Hrel2 t) Hot) as (?&?&_). eauto. }
  assert (Hfin : ∃ h3, RemoveNodeFrom h2 n (octantOf s !! n) = Some h3 ∧ heapOK h3 ∧
            rootCount h3 (Z.of_nat (size (<[n := t]> (octantOf s)))) ∧
            moved n t (octantOf s !! n) h1 h3).
  { destruct (octantOf s !! n) as [a|] eqn:Hold.
    - pose proof Hold as Hold1. apply Hlk1 in Hold1 as (oa&Hoa&Hin).
      assert (Hat : a ≠ t) by congruence.
      destruct (oF2_fwd _ _ _ _ (Hrel2 a) Hoa) as (oa2&Hoa2&(_&Hn2&_)).
      rewrite decide_False in Hn2 by done.
      destruct (RemoveNodeFrom_ok h2 n a oa2 (numNodes r1 + 1)%Z Hok2 Hoa2)
        as (h3&Hrem&Hok3&Hroot3&Hv3&_); [congruence|done|].
      exists h3. split; [done|]. split; [done|]. split.
      + rewrite size_insert_case, Hold.
        replace (Z.of_nat (size (octantOf s)) + 0)%Z with (numNodes r1 + 1 - 1)%Z by lia. done.
      + by eapply moved_of_add_remove.
    - exists h2. split; [done|]. split; [done|]. split.
      + rewrite size_insert_case, Hold.
        replace (Z.of_nat (size (octantOf s)) + 1)%Z with (numNodes r1 + 1)%Z by lia. done.
      + by apply moved_of_add. }
  destruct Hfin as (h3&Hrem&(Hs3&Hc3&Hne3)&Hroot3&Hmv).
  rewrite Hrem. simpl.
  assert (Ht3 : is_Some (h3 !! t)).
  { pose proof (Hmv t) as Hmt. destruct (h3 !! t); [eauto|].
    destruct (Hmt ot Hot) as (_&He). unfold placeNodes in He.
    rewrite decide_True in He by done. by destruct (nodes ot). }
  assert (Hlk3 : linked h3 (<[n := t]> (octantOf s))).
  { eapply linked_moved; eauto; congruence. }
  destruct (dirty_moved n t (octantOf s !! n) h1 h3 (octantOf s) (sortDirtyOctants s) P ot)
    as (Hd13&Hd23); [done|done|done|done|done|done|by eapply dirty1_grow|by eapply dirty2_grow|].
  eexists. split; [done|]. simpl. split_and!; try done.
  - split; simpl; try done.
    intros x [->%elem_of_singleton|Hx]%elem_of_union.
    + destruct Ht3 as (o3&Ho3). exists t, o3. split; [apply lookup_insert_eq|].
      split; [done|]. right. eapply target_moved; eauto.
    + assert (x ≠ n) by (intros ->; done).
      eapply settled_moved; eauto. eapply settled_grow; [done|]. by apply Hset.
  - intros m Hm. by rewrite lookup_insert_ne.
  - intros m a o Hmn Hm Ho. destruct (Hkeep1 m a o Hm Ho) as (o1&Ho1&Hk1&Hn1).
    assert (m ∈ nodes o1).
    { rewrite Hn1. apply Hl in Hm as (o'&?&?). congruence. }
    destruct (moved_live _ _ _ _ _ _ _ _ Hmv Ho1 Hmn H) as (o3&Ho3&_&Hk3&_).
    exists o3. split; [done|congruence].
  - intros r' Hr'. assert (r' = r) as -> by congruence.
    destruct (shape_root _ Hs3) as (r3&Hr3&_). pose proof (Hmv ROOT) as Hmr.
    rewrite Hr3 in Hmr. destruct Hmr as (r1'&Hr1'&?&?&?&?&?&_).
    assert (r1' = r1) as -> by congruence. exists r3. split_and!; congruence.
  - intros m (a&Hm&Ht). destruct (decide (m = n)) as [->|Hmn].
    + pose proof (descend_target h box a Hs Ht) as Hd.
      rewrite Hd in Hdesc. injection Hdesc as <- <-. congruence.
    + exists a. split; [by rewrite lookup_insert_ne|].
      destruct (proj1 (Hl _ _) Hm) as (o&Ho&Hin).
      destruct (Hkeep1 m a o Hm Ho) as (o1&Ho1&_&Hn1).
      assert (Hin1 : m ∈ nodes o1) by (by rewrite Hn1).
      destruct (moved_live _ _ _ _ _ _ _ _ Hmv Ho1 Hmn Hin1) as (o3&Ho3&_).
      eapply target_moved; eauto. by eapply target_grow.
  - intros _. exists t. split; [apply lookup_insert_eq|]. eapply target_moved; eauto.
  - by eapply stepView_moved.
Qed.


(** * Update *)


Lemma queueSet_cons_Some n q : queueSet (Some n :: q) = {[n]} ∪ queueSet q.
Proof. done. Qed.

Lemma queueSet_cons_None q : queueSet (None :: q) = queueSet q.
Proof. done. Qed.

(** The queue loop keeps the invariant and resolves every object of the
    queue; objects without an entry keep their octant. *)
Lemma updateLoop_ok wb frame q : ∀ P s,
  uwf wb P s →
  ∃ s', updateLoop wb frame q s = Some s' ∧ uwf wb (queueSet q ∪ P) s' ∧
    updateQueue s' = updateQueue s ∧
    (∀ m, m ∉ queueSet q → octantOf s' !! m = octantOf s !! m) ∧
    (∀ m a o, m ∉ queueSet q → octantOf s !! m = Some a → octants s !! a = Some o →
       ∃ o', octants s' !! a = Some o' ∧ cullingBox o' = cullingBox o) ∧
    (∀ r, octants s !! ROOT = Some r →
       ∃ r', octants s' !! ROOT = Some r' ∧ cullingBox r' = cullingBox r ∧
             worldBoundingBox r' = worldBoundingBox r ∧ level r' = level r) ∧
    (∀ m, m ∈ queueSet q →
       (m ∉ queuedFlag s') ∧ lastUpdateFrameNumber s' !! m = Some frame) ∧
    (∀ m, m ∉ queueSet q →
       (m ∈ queuedFlag s' ↔ m ∈ queuedFlag s) ∧
       lastUpdateFrameNumber s' !! m = lastUpdateFrameNumber s !! m) ∧
    (∀ m, atTarget (octants s) (octantOf s) wb m → atTarget (octants s') (octantOf s') wb m) ∧
    (∀ m, m ∈ queueSet q → octantOf s !! m = None →
       atTarget (octants s') (octantOf s') wb m).
Proof.
  induction q as [|[n|] q IH]; intros P s Hu.
  - exists s. split; [done|]. replace (queueSet [] ∪ P) with P by set_solver.
    split_and!; try done; eauto.
  - simpl.
    destruct (updateNode_ok wb frame P s n Hu)
      as (s1&Hrun&Hu1&Hq1&Hf1&Hl1&Ho1&_&Hk1&Hr1&Ht1&Hn1&_).
    rewrite Hrun. simpl.
    destruct (IH _ s1 Hu1) as (s'&Hrun'&Hu'&Hq'&Ho'&Hk'&Hr'&Hfl'&Hfr'&Ht'&Hn').
    exists s'. split; [done|]. rewrite queueSet_cons_Some.
    replace ({[n]} ∪ queueSet q ∪ P) with (queueSet q ∪ ({[n]} ∪ P)) by set_solver.
    split_and!; try done.
    + congruence.
    + intros m Hm. rewrite Ho', Ho1; [done|set_solver..].
    + intros m a o Hm Hma Ho.
      destruct (Hk1 m a o) as (o1&Ho1'&Hc1); [set_solver|done|done|].
      destruct (Hk' m a o1) as (o2&Ho2&Hc2); [set_solver| |done|].
      { rewrite Ho1; [done|set_solver]. }
      exists o2. split; [done|congruence].
    + intros r Hr. destruct (Hr1 r Hr) as (r1&Hr1'&?&?&?).
      destruct (Hr' r1 Hr1') as (r2&Hr2&?&?&?). exists r2. split_and!; congruence.
    + intros m Hm. destruct (decide (m ∈ queueSet q)) as [Hin|Hnin]; [by apply Hfl'|].
      assert (m = n) as -> by set_solver.
      destruct (Hfr' n Hnin) as (Hx&Hy). split.
      * rewrite Hx, Hf1. set_solver.
      * rewrite Hy, Hl1. apply lookup_insert_eq.
    + intros m Hm. assert (m ≠ n) by set_solver. assert (m ∉ queueSet q) as Hnin by set_solver.
      destruct (Hfr' m Hnin) as (Hx&Hy). split.
      * rewrite Hx, Hf1. set_solver.
      * rewrite Hy, Hl1. by rewrite lookup_insert_ne.
    + intros m Hm. by apply Ht', Ht1.
    + intros m Hm Hnone. destruct (decide (m = n)) as [->|Hmn].
      * by apply Ht', Hn1.
      * apply Hn'; [set_solver|]. by rewrite Ho1.
  - simpl. rewrite queueSet_cons_None. by apply IH.
Qed.


(** ** The sort loop *)

Lemma resorted_nil b o : resorted [] b o o.
Proof.
  split; [apply same_skel_refl|]. split; [done|]. split; [done|].
  rewrite decide_False; [done|]. apply not_elem_of_nil.
Qed.

Lemma sortLoop_ok dl : ∀ h,
  (∀ a, a ∈ dl → is_Some (h !! a)) →
  ∃ h', sortLoop dl h = Some h' ∧ ∀ b, option_Forall2 (resorted dl b) (h !! b) (h' !! b).
Proof.
  induction dl as [|a dl IH]; intros h Hlive.
  - exists h. split; [done|]. intros b. destruct (h !! b); constructor. apply resorted_nil.
  - simpl. destruct (Hlive a) as (o&Ho); [left|]. rewrite Ho. simpl.
    set (o1 := set_sortDirty (set_nodes o (merge_sort Nat.le (nodes o))) false).
    destruct (IH (<[a := o1]> h)) as (h'&Hrun&Hrel).
    { intros b Hb. destruct (decide (a = b)) as [<-|].
      - rewrite lookup_insert_eq. eauto.
      - rewrite lookup_insert_ne by done. apply Hlive. by right. }
    exists h'. split; [done|]. intros b. specialize (Hrel b).
    destruct (decide (a = b)) as [<-|Hab].
    + rewrite lookup_insert_eq in Hrel. rewrite Ho.
      destruct (oF2_fwd _ _ _ _ Hrel eq_refl) as (o'&->&(Hsk&Hn&Hp&Hsd)).
      constructor. split; [eapply same_skel_trans; [|done]; by repeat split|].
      split; [done|]. split.
      * rewrite Hp. unfold o1. simpl. apply merge_sort_Permutation.
      * rewrite decide_True by left. rewrite Hsd. by destruct (decide (a ∈ dl)).
    + rewrite lookup_insert_ne in Hrel by done.
      destruct Hrel as [o0 o' (Hsk&Hn&Hp&Hsd)|]; constructor.
      split; [done|]. split; [done|]. split; [done|]. rewrite Hsd.
      destruct (decide (b ∈ dl)) as [Hin|Hnin].
      * rewrite decide_True; [done|by right].
      * rewrite decide_False; [done|]. intros [?|?]%elem_of_cons; done.
Qed.

Lemma upath_skel h h' box a : heap_rel same_skel h h' → upath h box a → upath h' box a.
Proof.
  intros Hrel. induction 1 as [|a o p po Ha Hp Hpo Hins Hidx _ IH]; [constructor|].
  destruct (heap_rel_fwd _ _ _ _ _ Hrel Ha) as (o'&Ha'&?&?&Hc&?&?&?&Hpar).
  destruct (heap_rel_fwd _ _ _ _ _ Hrel Hpo) as (po'&Hpo'&?&?&Hpc&?&?&_).
  eapply (upath_child h' box a o' p po'); [done|congruence|done| | |done].
  - rewrite <- Hins. by apply insertHere_ext.
  - rewrite Hc, !(ChildIndex_ext po' po) by done. done.
Qed.

Lemma settled_skel h h' m wb n : heap_rel same_skel h h' → settled h m wb n → settled h' m wb n.
Proof.
  intros Hrel (a&o&Hm&Ho&Hcase).
  destruct (heap_rel_fwd _ _ _ _ _ Hrel Ho) as (o'&Ho'&?&?&?&?&?&_).
  exists a, o'. split; [done|]. split; [done|]. destruct Hcase as [Hf|(Hup&ot&Hot&Hins)].
  - left. rewrite <- Hf. by apply fastOK_ext.
  - right. split; [by eapply upath_skel|]. assert (ot = o) as -> by congruence.
    exists o'. split; [done|]. rewrite <- Hins. by apply insertHere_ext.
Qed.

Lemma atTarget_skel h h' m wb n :
  heap_rel same_skel h h' → atTarget h m wb n → atTarget h' m wb n.
Proof.
  intros Hrel (a&Hm&Hup&o&Ho&Hins). exists a. split; [done|].
  split; [by eapply upath_skel|].
  destruct (heap_rel_fwd _ _ _ _ _ Hrel Ho) as (o'&Ho'&?&?&?&?&?&_).
  exists o'. split; [done|]. rewrite <- Hins. by apply insertHere_ext.
Qed.

Lemma counts_off_rel h h' :
  (∀ b, option_Forall2 (λ o o', children o' = children o ∧ numNodes o' = numNodes o ∧
                                 length (nodes o') = length (nodes o)) (h !! b) (h' !! b)) →
  counts_off h None 0 → counts_off h' None 0.
Proof.
  intros Hrel Hc b o' Hb.
  destruct (oF2_bwd _ _ _ _ (Hrel b) Hb) as (o&Ho&Hch&Hn&Hl).
  specialize (Hc b o Ho). rewrite Hch, Hn, Hl.
  rewrite (sumZ_same (childCount h)); [done|]. intros y _.
  apply childCount_same_counts. intros c. specialize (Hrel c).
  destruct Hrel as [? ? (_&Hn'&_)|]; [simpl; by rewrite Hn'|done].
Qed.

Lemma wf_uwf wb s : wf s → uwf wb ∅ s.
Proof.
  intros [Hh Hl Ht (Hd&Hc)]. split; try done.
  - intros a o Ho Hdirty. rewrite (Hc a o Ho) in Hdirty. done.
  - intros a Ha. rewrite Hd in Ha. by apply elem_of_nil in Ha.
Qed.

(** Update keeps the invariant, resolves every object of the queue, and
    leaves the other objects in their octants. *)
Lemma Update_ok wb frame s :
  wf s →
  ∃ s', Update wb frame s = Some s' ∧ wf s' ∧ updateQueue s' = [] ∧
    (∀ n, n ∈ queueSet (updateQueue s) → settled (octants s') (octantOf s') wb n) ∧
    (∀ m, m ∉ queueSet (updateQueue s) → octantOf s' !! m = octantOf s !! m) ∧
    (∀ m a o, m ∉ queueSet (updateQueue s) → octantOf s !! m = Some a →
       octants s !! a = Some o →
       ∃ o', octants s' !! a = Some o' ∧ cullingBox o' = cullingBox o) ∧
    (∀ r, octants s !! ROOT = Some r →
       ∃ r', octants s' !! ROOT = Some r' ∧ cullingBox r' = cullingBox r ∧
             worldBoundingBox r' = worldBoundingBox r ∧ level r' = level r) ∧
    (∀ m, atTarget (octants s) (octantOf s) wb m → atTarget (octants s') (octantOf s') wb m) ∧
    (∀ m, m ∈ queueSet (updateQueue s) → octantOf s !! m = None →
       atTarget (octants s') (octantOf s') wb m).
Proof.
  intros Hwf.
  destruct (updateLoop_ok wb frame (updateQueue s) ∅ s (wf_uwf wb s Hwf))
    as (s1&Hrun&Hu&Hq&Ho&Hk&Hr&_&_&Htg&Hnw).
  destruct Hu as [(Hs1&Hc1&Hne1) (Hl1&Hnd1) Htot1 Hd1 Hd2 Hset1].
  destruct (sortLoop_ok (sortDirtyOctants s1) (octants s1)) as (hS&Hsort&Hrel).
  { intros a Ha. destruct (Hd2 a Ha) as (o&?&?&_). eauto. }
  unfold Update. rewrite Hrun. simpl. rewrite Hsort. simpl.
  assert (Hskel : heap_rel same_skel (octants s1) hS).
  { intros b. destruct (Hrel b) as [? ? (?&_)|]; by constructor. }
  assert (Hnum : ∀ b, numNodes <$> hS !! b = numNodes <$> octants s1 !! b).
  { intros b. destruct (Hrel b) as [? ? (_&Hn'&_)|]; [simpl; by rewrite Hn'|done]. }
  eexists. split; [done|]. split; [|split_and!; try done].
  - split; simpl.
    + split; [by eapply shape_skel|]. split; [|by eapply nonempty_upto_skel].
      eapply counts_off_rel; [|done]. intros b.
      destruct (Hrel b) as [o o' ((?&?&?&?&?&?&?)&?&Hp&_)|]; constructor.
      split; [done|]. split; [done|]. by rewrite Hp.
    + split.
      * intros n a. rewrite Hl1. split.
        -- intros (o&Hoa&Hin). destruct (oF2_fwd _ _ _ _ (Hrel a) Hoa) as (o'&?&(_&_&Hp&_)).
           exists o'. split; [done|]. by rewrite Hp.
        -- intros (o'&Hoa&Hin). destruct (oF2_bwd _ _ _ _ (Hrel a) Hoa) as (o&?&(_&_&Hp&_)).
           exists o. split; [done|]. by rewrite <- Hp.
      * intros a o' Hoa. destruct (oF2_bwd _ _ _ _ (Hrel a) Hoa) as (o&?&(_&_&Hp&_)).
        rewrite Hp. by eapply Hnd1.
    + destruct Htot1 as (r&Hr1&Hk1).
      destruct (oF2_fwd _ _ _ _ (Hrel ROOT) Hr1) as (r'&?&(_&Hn&_)).
      exists r'. split; [done|congruence].
    + split; [done|]. intros a o' Hoa.
      destruct (oF2_bwd _ _ _ _ (Hrel a) Hoa) as (o&Hoa1&(_&_&_&Hsd)).
      rewrite Hsd. destruct (decide (a ∈ sortDirtyOctants s1)) as [|Hnin]; [done|].
      destruct (sortDirty o) eqn:E; [|done]. exfalso. apply Hnin. by eapply Hd1.
  - intros n Hn. eapply settled_skel; [done|]. apply Hset1. set_solver.
  - intros m a o Hm Hma Hoa. destruct (Hk m a o Hm Hma Hoa) as (o1&Ho1&Hc).
    destruct (heap_rel_fwd _ _ _ _ _ Hskel Ho1) as (o2&Ho2&Hk2&_).
    exists o2. split; [done|congruence].
  - intros r Hr0. destruct (Hr r Hr0) as (r1&Hr1&?&?&?).
    destruct (heap_rel_fwd _ _ _ _ _ Hskel Hr1) as (r2&Hr2&?&?&?&?&?&_).
    exists r2. simpl. split_and!; congruence.
  - intros m Hm. by eapply atTarget_skel, Htg.
  - intros m Hm Hnone. by eapply atTarget_skel, Hnw.
Qed.


(** * Resize *)

Lemma elem_of_concat_lookup {A} (x : A) (ls : list (list A)) :
  x ∈ concat ls ↔ ∃ j l, ls !! j = Some l ∧ x ∈ l.
Proof.
  induction ls as [|l ls IH]; simpl.
  - split; [by intros ?%elem_of_nil|]. by intros (j&l&?&_).
  - rewrite elem_of_app, IH. split.
    + intros [?|(j&l'&?&?)]; [by exists 0, l|by exists (S j), l'].
    + intros ([|j]&l'&Hj&?); simpl in Hj; [left; congruence|right; eauto].
Qed.

Lemma NoDup_concat_lookup {A} (ls : list (list A)) :
  (∀ j l, ls !! j = Some l → NoDup l) →
  (∀ i j l l' x, i ≠ j → ls !! i = Some l → ls !! j = Some l' → x ∈ l → x ∉ l') →
  NoDup (concat ls).
Proof.
  induction ls as [|l ls IH]; intros Hnd Hdis; simpl; [constructor|].
  apply NoDup_app. split; [by apply (Hnd 0)|]. split.
  - intros x Hx (j&l'&Hj&Hin)%elem_of_concat_lookup.
    by apply (Hdis 0 (S j) l l' x).
  - apply IH.
    + intros j l' Hj. by apply (Hnd (S j)).
    + intros i j l1 l2 x Hij Hi Hj. apply (Hdis (S i) (S j)); [lia|done..].
Qed.

(** The octants below [a]: [a] itself or below one of its children. *)
Lemma anc_child_cases h b a o ob :
  shape h → h !! a = Some o → h !! b = Some ob → anc h b a →
  b = a ∨ ∃ j c, children o !! j = Some (Some c) ∧ anc h b c.
Proof.
  intros Hs Ha Hb Hanc. revert ob Hb.
  induction Hanc as [|b o' p a Hb' Hp Hanc IH]; intros ob Hb; [by left|]. right.
  assert (o' = ob) as -> by congruence.
  destruct (decide (b = ROOT)) as [->|Hbr].
  { destruct (shape_root _ Hs) as (r&Hr&Hrp). congruence. }
  destruct (shape_parent _ Hs _ _ Hb Hbr) as (p'&po&Hp'&Hpo&Hslot).
  assert (p' = p) as -> by congruence.
  destruct (IH Ha po Hpo) as [->|(j&c&Hj&Hc)].
  - assert (po = o) as -> by congruence. exists (ChildIndex o (center ob)), b.
    split; [done|constructor].
  - exists j, c. split; [done|]. eapply anc_step; eauto.
Qed.

Lemma anc_child h a o j c b :
  shape h → h !! a = Some o → children o !! j = Some (Some c) → anc h b c → anc h b a.
Proof.
  intros Hs Ha Hj Hanc. destruct (shape_child _ Hs _ _ _ _ Ha Hj) as (_&_&co&Hco&Hcp&_).
  eapply anc_trans; [done|]. eapply anc_step; [done|done|constructor].
Qed.

(** The octants below two children of one octant are apart. *)
Lemma subtrees_apart h a o i j c c' b ob :
  shape h → h !! a = Some o → children o !! i = Some (Some c) →
  children o !! j = Some (Some c') → h !! b = Some ob →
  anc h b c → anc h b c' → i = j.
Proof.
  intros Hs Ha Hi Hj Hb Hc Hc'.
  destruct (shape_child _ Hs _ _ _ _ Ha Hi) as (_&_&co&Hco&_&Hl&_).
  destruct (shape_child _ Hs _ _ _ _ Ha Hj) as (_&_&co'&Hco'&_&Hl'&_).
  assert (c = c') as <-.
  { apply (anc_same_level h b c c' co co' ob Hs Hb Hc Hc' Hco Hco'). congruence. }
  apply (shape_slot_unique h a o i j c Hs Ha Hi Hj).
Qed.

Lemma not_anc_self_child h a o j c :
  shape h → h !! a = Some o → children o !! j = Some (Some c) → ¬ anc h a c.
Proof.
  intros Hs Ha Hj Hanc. destruct (shape_child _ Hs _ _ _ _ Ha Hj) as (_&_&co&Hco&_&Hl&_).
  destruct (anc_level _ _ _ _ _ Hs Hanc Ha Hco). lia.
Qed.

(** CollectNodes returns the objects of the octants below [a], each once. *)
Lemma CollectNodes_ok h f : shape h → ∀ a o,
  h !! a = Some o → (Z.to_nat (level o) ≤ f)%nat →
  ∃ l, CollectNodes f h a = Some l ∧
       (∀ n, n ∈ l ↔ ∃ b ob, anc h b a ∧ h !! b = Some ob ∧ n ∈ nodes ob) ∧
       (∀ m, linked h m → NoDup l).
Proof.
  intros Hs. destruct (shape_root _ Hs) as (r&Hr&_).
  induction f as [|f IH]; intros a o Ha Hf.
  { pose proof (shape_level _ Hs _ _ _ Ha Hr). lia. }
  simpl. rewrite Ha. simpl.
  set (G := λ c : option nat, match c with
                              | Some ca => CollectNodes f h ca
                              | None => Some []
                              end).
  assert (Hslots : ∀ j x, children o !! j = Some x →
            ∃ l, G x = Some l ∧
                 (∀ n, n ∈ l ↔ ∃ c b ob, x = Some c ∧ anc h b c ∧ h !! b = Some ob ∧
                                         n ∈ nodes ob) ∧
                 (∀ m, linked h m → NoDup l)).
  { intros j [c|] Hj.
    - destruct (shape_child _ Hs _ _ _ _ Ha Hj) as (_&_&co&Hco&_&Hl&_).
      destruct (IH c co Hco) as (l&Hrun&Hmem&Hnd); [lia|].
      exists l. split; [done|]. split; [|done]. intros n. rewrite Hmem. split.
      + intros (b&ob&?&?&?). by exists c, b, ob.
      + intros (c'&b&ob&[= <-]&?&?&?). by exists b, ob.
    - exists []. split; [done|]. split; [|constructor].
      intros n. split; [by intros ?%elem_of_nil|]. by intros (?&?&?&?&_). }
  assert (∃ rest, mapM G (children o) = Some rest) as (rest&Hrest).
  { apply mapM_is_Some. apply Forall_lookup. intros j x Hj.
    destruct (Hslots j x Hj) as (l&Hl&_). simpl. eauto. }
  rewrite Hrest. simpl. pose proof (mapM_Some_1 _ _ _ Hrest) as HF.
  exists (nodes o ++ concat rest). split; [done|].
  assert (Hrest_mem : ∀ n, n ∈ concat rest ↔
            ∃ j c b ob, children o !! j = Some (Some c) ∧ anc h b c ∧ h !! b = Some ob ∧
                        n ∈ nodes ob).
  { intros n. rewrite elem_of_concat_lookup. split.
    - intros (j&l&Hj&Hin). destruct (Forall2_lookup_r _ _ _ _ _ HF Hj) as (x&Hx&HG).
      destruct (Hslots j x Hx) as (l'&HG'&Hmem&_). assert (l' = l) as -> by congruence.
      destruct (proj1 (Hmem n) Hin) as (c&b&ob&Hxc&?&?&?). rewrite Hxc in Hx.
      by exists j, c, b, ob.
    - intros (j&c&b&ob&Hj&?&?&?). destruct (Forall2_lookup_l _ _ _ _ _ HF Hj) as (l&Hl&HG).
      destruct (Hslots j _ Hj) as (l'&HG'&Hmem&_). assert (l' = l) as -> by congruence.
      exists j, l. split; [done|]. apply Hmem. by exists c, b, ob. }
  split.
  - intros n. rewrite elem_of_app, Hrest_mem. split.
    + intros [Hin|(j&c&b&ob&Hj&Hanc&Hb&Hin)].
      * exists a, o. split; [constructor|done].
      * exists b, ob. split; [by eapply anc_child|done].
    + intros (b&ob&Hanc&Hb&Hin).
      destruct (anc_child_cases _ _ _ _ _ Hs Ha Hb Hanc) as [->|(j&c&Hj&Hc)].
      * left. congruence.
      * right. by exists j, c, b, ob.
  - intros m (Hl&Hnd).
    assert (Huniq : ∀ n b b' ob ob', h !! b = Some ob → h !! b' = Some ob' →
              n ∈ nodes ob → n ∈ nodes ob' → b = b').
    { intros n b b' ob ob' Hb Hb' Hin Hin'.
      assert (m !! n = Some b) by (apply Hl; eauto).
      assert (m !! n = Some b') by (apply Hl; eauto). congruence. }
    apply NoDup_app. split; [by eapply Hnd|]. split.
    + intros n Hin (j&c&b&ob&Hj&Hanc&Hb&Hin')%Hrest_mem.
      assert (a = b) as <- by (by eapply Huniq).
      exact (not_anc_self_child h a o j c Hs Ha Hj Hanc).
    + apply NoDup_concat_lookup.
      * intros j l Hj. destruct (Forall2_lookup_r _ _ _ _ _ HF Hj) as (x&Hx&HG).
        destruct (Hslots j x Hx) as (l'&HG'&_&Hnd'). assert (l' = l) as -> by congruence.
        by eapply Hnd'.
      * intros i j l l' n Hij Hi Hj Hin Hin'.
        destruct (Forall2_lookup_r _ _ _ _ _ HF Hi) as (x&Hx&HG).
        destruct (Forall2_lookup_r _ _ _ _ _ HF Hj) as (x'&Hx'&HG2).
        destruct (Hslots i x Hx) as (l1&HG1&Hmem1&_). assert (l1 = l) as -> by congruence.
        destruct (Hslots j x' Hx') as (l2&HG2'&Hmem2&_). assert (l2 = l') as -> by congruence.
        destruct (proj1 (Hmem1 n) Hin) as (c&b&ob&Hxc&Hanc&Hb&Hnb). rewrite Hxc in Hx.
        destruct (proj1 (Hmem2 n) Hin') as (c'&b'&ob'&Hxc'&Hanc'&Hb'&Hnb'). rewrite Hxc' in Hx'.
        assert (b = b') as <- by (by eapply Huniq).
        apply Hij. by eapply (subtrees_apart h a o i j c c' b).
Qed.

Lemma lookup_foldr_delete (m : gmap nat nat) l n :
  foldr delete m l !! n = if decide (n ∈ l) then None else m !! n.
Proof.
  induction l as [|x l IH].
  - case_decide as Hin; [by apply elem_of_nil in Hin|done].
  - change (foldr delete m (x :: l)) with (delete x (foldr delete m l)).
    destruct (decide (x = n)) as [->|Hne].
    + rewrite lookup_delete_eq. rewrite decide_True; [done|left].
    + rewrite lookup_delete_ne by done. rewrite IH.
      destruct (decide (n ∈ l)) as [Hin|Hnin].
      * rewrite decide_True; [done|by right].
      * rewrite decide_False; [done|]. intros [?|?]%elem_of_cons; [congruence|done].
Qed.

Lemma fading_refl m : fading m m.
Proof. intros n. by right. Qed.

Lemma fading_trans m1 m2 m3 : fading m1 m2 → fading m2 m3 → fading m1 m3.
Proof.
  intros H12 H23 n. destruct (H23 n) as [?|Heq]; [by left|].
  rewrite Heq. apply H12.
Qed.

Lemma fading_None m m' n : fading m m' → m !! n = None → m' !! n = None.
Proof. intros H Hn. destruct (H n) as [?|Heq]; [done|congruence]. Qed.

Lemma replicate_drop_step {A} (x : A) k (l : list A) :
  l !! k = Some x →
  replicate (S k) x ++ drop (S k) l = replicate k x ++ drop k l.
Proof.
  intros Hk. rewrite (drop_S l x k Hk). rewrite replicate_S_end.
  by rewrite <- app_assoc.
Qed.

Lemma replicate_drop_insert {A} (x : A) k (l : list A) :
  (k < length l)%nat →
  <[k := x]> (replicate k x ++ drop k l) = replicate (S k) x ++ drop (S k) l.
Proof.
  intros Hk. destruct (lookup_lt_is_Some_2 l k Hk) as (y&Hy).
  rewrite (drop_S l y k Hy).
  rewrite insert_app_r_alt by (rewrite length_replicate; lia).
  rewrite length_replicate, Nat.sub_diag.
  change (<[0%nat := x]> (y :: drop (S k) l)) with ([x] ++ drop (S k) l).
  by rewrite app_assoc, <- replicate_S_end.
Qed.

Lemma lookup_replicate_drop {A} (x : A) k (l : list A) :
  (replicate k x ++ drop k l) !! k = l !! k.
Proof.
  rewrite lookup_app_r by (rewrite length_replicate; lia).
  rewrite length_replicate, Nat.sub_diag, lookup_drop. f_equal. lia.
Qed.

Section DeleteChildOctants.
Variable h : gmap nat Octant.
Hypothesis Hs : shape h.

Lemma deleteChildren_ok f a o :
  h !! a = Some o →
  (∀ c co s, h !! c = Some co → (Z.to_nat (level co) ≤ f)%nat → intact h s c →
     ∃ s', DeleteChildOctants f c s = Some s' ∧ dco_post h c s s') →
  (Z.to_nat (level o) ≤ S f)%nat →
  ∀ d k s ok, (k + d = NUM_OCTANTS)%nat →
    octants s !! a = Some ok →
    children ok = replicate k None ++ drop k (children o) →
    (∀ j c, (k ≤ j)%nat → children o !! j = Some (Some c) → intact h s c) →
    ∃ s', deleteChildren (DeleteChildOctants f) a (seq k d) s = Some s' ∧
      octants s' !! a = Some (set_children ok (replicate NUM_OCTANTS None)) ∧
      (∀ b, ¬ anc h b a → octants s' !! b = octants s !! b) ∧
      fading (octantOf s) (octantOf s') ∧
      (∀ j c b ob n, (k ≤ j)%nat → children o !! j = Some (Some c) → anc h b c →
         h !! b = Some ob → n ∈ nodes ob → octantOf s' !! n = None) ∧
      updateQueue s' = updateQueue s ∧ sortDirtyOctants s' = sortDirtyOctants s ∧
      lastUpdateFrameNumber s' = lastUpdateFrameNumber s.
Proof.
  intros Ha IHf Hf. pose proof (shape_len _ Hs _ _ Ha) as Hlen.
  induction d as [|d IH]; intros k s ok Hk Hok Hch Hint.
  - assert (k = NUM_OCTANTS) as -> by lia. exists s.
    rewrite drop_ge, app_nil_r in Hch by lia.
    split; [done|]. split; [rewrite <- Hch; by destruct ok|].
    split; [done|]. split; [apply fading_refl|]. split; [|done].
    intros j c b ob n Hj Hcj. apply lookup_lt_Some in Hcj. lia.
  - simpl. rewrite Hok. simpl. rewrite Hch, lookup_replicate_drop.
    assert (k < length (children o))%nat as Hklt by lia.
    destruct (lookup_lt_is_Some_2 _ _ Hklt) as (x&Hx). rewrite Hx.
    destruct x as [c|].
    + (* slot [k] holds a child: delete its branch, then clear the slot *)
      destruct (shape_child _ Hs _ _ _ _ Ha Hx) as (_&_&co&Hco&_&Hl&_).
      destruct (IHf c co s Hco) as (s1&Hrun&Hframe1&Hfade1&Hq1&Hf1);
        [lia|by apply (Hint k)|].
      rewrite Hrun. simpl.
      assert (Hna : ¬ anc h a c) by (by eapply not_anc_self_child).
      rewrite (Hframe1 a Hna), Hok. simpl.
      set (ok2 := set_children ok (<[k := None]> (children ok))).
      set (s2 := set_octants s1 (<[a := ok2]> (octants s1))).
      destruct (IH (S k) s2 ok2) as (s'&Hrun'&Ha'&Hframe'&Hfade'&Hq'&Hf'); [lia| | | |].
      { unfold s2. simpl. by rewrite lookup_insert_eq. }
      { unfold ok2. simpl. rewrite Hch. by apply replicate_drop_insert. }
      { intros j c' Hj Hcj b ob Hb Hob.
        assert (b ≠ a).
        { intros ->. by eapply (not_anc_self_child h a o j c'). }
        assert (¬ anc h b c).
        { intros Hbc. assert (k = j) by (by eapply (subtrees_apart h a o k j c c' b)). lia. }
        unfold s2. simpl. rewrite lookup_insert_ne by done. rewrite Hframe1 by done.
        apply (Hint j c'); [lia|done..]. }
      exists s'. split; [done|]. split; [by rewrite Ha'|]. split; [|split; [|split]].
      * intros b Hb. rewrite Hframe' by done. unfold s2. simpl.
        assert (b ≠ a) by (intros ->; apply Hb; constructor).
        rewrite lookup_insert_ne by done. apply Hframe1.
        intros Hbc. apply Hb. by eapply anc_child.
      * eapply fading_trans; [exact Hfade1|exact Hfade'].
      * intros j c' b ob n Hj Hcj Hb Hob Hin.
        destruct (decide (j = k)) as [->|Hjk].
        -- assert (c' = c) as -> by congruence.
           eapply (fading_None _ _ _ Hfade'). unfold s2. simpl. by eapply Hq1.
        -- eapply (Hq' j c'); eauto. lia.
      * destruct Hf1 as (?&?&?), Hf' as (?&?&?). unfold s2 in *. simpl in *.
        split_and!; congruence.
    + (* slot [k] is empty *)
      destruct (IH (S k) s ok) as (s'&Hrun'&Ha'&Hframe'&Hfade'&Hq'&Hf'); [lia|done| | |].
      { rewrite Hch. symmetry. by apply replicate_drop_step. }
      { intros j c' Hj. apply Hint. lia. }
      exists s'. split; [done|]. split; [done|]. split; [done|]. split; [done|].
      split; [|done]. intros j c' b ob n Hj Hcj.
      destruct (decide (j = k)) as [->|Hjk]; [congruence|]. apply (Hq' j c'); [lia|done].
Qed.

(** DeleteChildOctants clears the back-references of all objects below
    [a] and touches nothing outside. *)
Lemma DeleteChildOctants_ok f : ∀ a o s,
  h !! a = Some o → (Z.to_nat (level o) ≤ f)%nat → intact h s a →
  ∃ s', DeleteChildOctants f a s = Some s' ∧ dco_post h a s s' ∧
        (a = ROOT → ∃ oc, octants s !! ROOT = Some oc ∧
                          octants s' !! ROOT = Some (clearedRoot oc)).
Proof.
  destruct (shape_root _ Hs) as (r&Hr&_).
  induction f as [|f IH]; intros a o s Ha Hf Hint.
  { pose proof (shape_level _ Hs _ _ _ Ha Hr). lia. }
  destruct (Hint a o (anc_refl _ _) Ha) as (oc&Hoc&Hcc&Hnc).
  unfold DeleteChildOctants; fold DeleteChildOctants. rewrite Hoc. cbn [mbind option_bind].
  set (s1 := detachNodes s (nodes oc)).
  set (okc := set_numNodes (set_nodes oc []) 0).
  set (s2 := set_octants s1 (<[a := okc]> (octants s1))).
  destruct (deleteChildren_ok f a o Ha) with (d := NUM_OCTANTS) (k := 0%nat) (s := s2) (ok := okc)
    as (s3&Hrun&Ha3&Hframe3&Hfade3&Hq3&Hf3); [|done|done| |done| |].
  { intros c co s0 Hco Hlc Hic. destruct (IH c co s0 Hco Hlc Hic) as (s'&?&?&_). eauto. }
  { unfold s2. simpl. by rewrite lookup_insert_eq. }
  { intros j c _ Hj b ob Hb Hob.
    assert (b ≠ a).
    { intros ->. by eapply (not_anc_self_child h a o j c). }
    unfold s2. simpl. rewrite lookup_insert_ne by done. apply Hint; [|done].
    by eapply anc_child. }
  fold s1. fold okc. fold s2. rewrite Hrun. cbn [mbind option_bind].
  assert (Hfade : fading (octantOf s) (octantOf s3)).
  { eapply fading_trans; [|exact Hfade3]. intros n. unfold s2, s1. simpl.
    rewrite lookup_foldr_delete. destruct (decide (n ∈ nodes oc)); [by left|by right]. }
  assert (Hq : ∀ b ob n, anc h b a → h !! b = Some ob → n ∈ nodes ob →
               octantOf s3 !! n = None).
  { intros b ob n Hb Hob Hin.
    destruct (anc_child_cases _ _ _ _ _ Hs Ha Hob Hb) as [->|(j&c&Hj&Hc)].
    - assert (ob = o) as -> by congruence.
      eapply (fading_None _ _ _ Hfade3). unfold s2, s1. simpl.
      rewrite lookup_foldr_delete. rewrite decide_True; [done|]. by rewrite Hnc.
    - eapply (Hq3 j c); eauto. lia. }
  assert (Hfr : ∀ b, ¬ anc h b a → octants s3 !! b = octants s !! b).
  { intros b Hb. rewrite Hframe3 by done. unfold s2, s1. simpl.
    rewrite lookup_insert_ne; [done|]. intros <-. apply Hb. constructor. }
  destruct Hf3 as (Hf31&Hf32&Hf33).
  destruct (decide (a = ROOT)) as [->|Har].
  - exists s3. split; [done|]. split; [done|]. intros _. exists oc. done.
  - rewrite Ha3. cbn [mbind option_bind]. eexists. split; [done|]. split; [|done].
    split; [|split_and!; try done].
    intros b Hb. simpl. rewrite lookup_delete_ne; [by apply Hfr|].
    intros <-. apply Hb. constructor.
Qed.
End DeleteChildOctants.


(** * The invariant holds in every state of the Octree *)

(** An Octree that consists of an empty root. *)
Lemma wf_single r q fl fr :
  children r = replicate NUM_OCTANTS None → nodes r = [] → numNodes r = 0%Z →
  parent r = None → sortDirty r = false → (1 ≤ level r)%Z → geomOK r →
  wf (mkOctree {[ ROOT := r ]} q [] ∅ fl fr).
Proof.
  intros Hch Hn Hk Hp Hsd Hl Hg.
  assert (Hlk : ∀ a o, ({[ROOT := r]} : gmap nat Octant) !! a = Some o → a = ROOT ∧ o = r).
  { intros a o H. apply lookup_singleton_Some in H as [? ?]. done. }
  split; simpl.
  - split; [split|split].
    + exists r. by rewrite lookup_singleton_eq.
    + intros a o (->&->)%Hlk. by rewrite Hch.
    + intros a o r' (->&->)%Hlk (_&->)%Hlk. lia.
    + by intros a o (->&->)%Hlk.
    + by intros a o (->&->)%Hlk.
    + intros a o i c (->&->)%Hlk Hi. rewrite Hch in Hi.
      exfalso. exact (replicate_None_lookup NUM_OCTANTS i c Hi).
    + intros a o (->&->)%Hlk. rewrite decide_False by done.
      rewrite Hk, Hn, Hch, sumZ_replicate_None. done.
    + by intros a o (->&->)%Hlk.
  - split.
    + intros n a. rewrite lookup_empty. split; [done|].
      intros (o&(->&->)%Hlk&Hin). rewrite Hn in Hin. by apply elem_of_nil in Hin.
    + intros a o (->&->)%Hlk. rewrite Hn. constructor.
  - exists r. rewrite lookup_singleton_eq. split; [done|]. by rewrite Hk, map_size_empty.
  - split; [done|]. by intros a o (->&->)%Hlk.
Qed.

Lemma wf_new : wf Octree_new.
Proof. apply wf_single; try done; apply Initialize_geomOK. Qed.

Lemma Clamp_range v lo hi : (lo ≤ hi)%Z → (lo ≤ Clamp v lo hi ≤ hi)%Z.
Proof.
  intros H. unfold Clamp. destruct (v <? lo)%Z eqn:E1; [lia|].
  destruct (hi <? v)%Z eqn:E2; [lia|]. apply Z.ltb_ge in E1, E2. lia.
Qed.

(** Resize: the tracked objects are queued, each once, and the tree
    becomes an empty root with the new box and level. *)
Lemma Resize_ok s box lv :
  wf s →
  ∃ s' l r, Resize s box lv = Some s' ∧ octants s !! ROOT = Some r ∧
    CollectNodes (depthFuel (octants s)) (octants s) ROOT = Some l ∧
    NoDup l ∧ (∀ n, n ∈ l ↔ is_Some (octantOf s !! n)) ∧
    octants s' = {[ ROOT := Initialize (clearedRoot r) None box
                              (Clamp lv 1 MAX_OCTREE_LEVELS) ]} ∧
    updateQueue s' = Some <$> l ∧ octantOf s' = ∅ ∧ sortDirtyOctants s' = [] ∧
    lastUpdateFrameNumber s' = lastUpdateFrameNumber s ∧ wf s'.
Proof.
  intros [(Hs&Hc&Hne) Hlk Htot (Hd&Hcl)]. pose proof Hlk as (Hl&Hnd).
  destruct (shape_root _ Hs) as (r&Hr&Hrp).
  pose proof (shape_level _ Hs _ _ _ Hr Hr) as Hlr.
  destruct (CollectNodes_ok (octants s) (depthFuel (octants s)) Hs ROOT r Hr)
    as (l&Hcol&Hmem&Hnodup).
  { unfold depthFuel. rewrite Hr. lia. }
  unfold Resize. rewrite Hcol. simpl.
  set (s1 := mkOctree _ _ _ _ _ _).
  destruct (DeleteChildOctants_ok (octants s) Hs (depthFuel (octants s)) ROOT r s1 Hr)
    as (s2&Hdel&(Hframe&Hfade&Hq&Hf1&Hf2&Hf3)&Hroot).
  { unfold depthFuel. rewrite Hr. lia. }
  { intros b o _ Hb. exists o. done. }
  rewrite Hdel. simpl. destruct (Hroot eq_refl) as (oc&Hoc&Hr2).
  assert (oc = r) as -> by (simpl in Hoc; congruence).
  rewrite Hr2. simpl.
  assert (Hempty : octantOf s2 = ∅).
  { apply map_eq. intros n. rewrite lookup_empty.
    destruct (octantOf s !! n) as [a|] eqn:Hn.
    - apply Hl in Hn as (o&Ho&Hin). eapply (Hq a o n); [|done|done].
      by eapply anc_to_root.
    - by eapply (fading_None _ _ _ Hfade). }
  exists (set_octants s2 {[ROOT := Initialize (clearedRoot r) None box
                                     (Clamp lv 1 MAX_OCTREE_LEVELS)]}), l, r.
  split; [done|]. split; [done|]. split; [done|]. split; [by eapply Hnodup|].
  split.
  { intros n. rewrite Hmem. split.
    - intros (b&ob&_&Hb&Hin). exists b. apply Hl. eauto.
    - intros (a&Ha). apply Hl in Ha as (o&Ho&Hin). exists a, o. split; [|done].
      by eapply anc_to_root. }
  simpl. split; [done|]. split; [by rewrite Hf1|]. split; [done|].
  split; [by rewrite Hf2|]. split; [by rewrite Hf3|].
  unfold set_octants. rewrite Hempty, Hf2. simpl. rewrite Hd.
  apply wf_single; [done|done|done|done| | |apply Initialize_geomOK].
  - simpl. by eapply Hcl.
  - simpl. pose proof (Clamp_range lv 1 MAX_OCTREE_LEVELS). unfold MAX_OCTREE_LEVELS in *. lia.
Qed.

Lemma linked_removed n a h h3 m :
  removed_view n a h h3 → linked h m → m !! n = Some a → linked h3 (delete n m).
Proof.
  intros Hv (Hl&Hnd) Hn. split.
  - intros x b. destruct (decide (x = n)) as [->|Hx].
    + rewrite lookup_delete_eq. split; [done|]. intros (o3&Ho3&Hin). exfalso.
      pose proof (Hv b) as Hb. rewrite Ho3 in Hb. destruct Hb as (o&Ho&_&_&_&_&_&_&_&Hnodes).
      rewrite Hnodes in Hin. destruct (decide (b = a)) as [->|Hba].
      * destruct (eraseFirst_NoDup n (nodes o) (Hnd _ _ Ho)) as [_ Hnot]. done.
      * assert (m !! n = Some b) by (apply Hl; eauto). congruence.
    + rewrite lookup_delete_ne by done. rewrite Hl. split.
      * intros (o&Ho&Hin). pose proof (Hv b) as Hb.
        assert (Hin' : x ∈ (if decide (b = a) then eraseFirst n (nodes o) else nodes o)).
        { destruct (decide (b = a)); [by apply eraseFirst_other|done]. }
        destruct (h3 !! b) as [o3|].
        -- destruct Hb as (o'&Ho'&_&_&_&_&_&_&_&Hnodes). assert (o' = o) as -> by congruence.
           exists o3. split; [done|]. by rewrite Hnodes.
        -- destruct (Hb o Ho) as (_&He). rewrite He in Hin'. by apply elem_of_nil in Hin'.
      * intros (o3&Ho3&Hin). pose proof (Hv b) as Hb. rewrite Ho3 in Hb.
        destruct Hb as (o&Ho&_&_&_&_&_&_&_&Hnodes). exists o. split; [done|].
        rewrite Hnodes in Hin. destruct (decide (b = a)); [by eapply eraseFirst_subset|done].
  - intros b o3 Ho3. pose proof (Hv b) as Hb. rewrite Ho3 in Hb.
    destruct Hb as (o&Ho&_&_&_&_&_&_&_&->).
    destruct (decide (b = a)); [by apply eraseFirst_NoDup, (Hnd b)|by apply (Hnd b)].
Qed.

(** RemoveNode(node) keeps the invariant. *)
Lemma RemoveNode_ok s n :
  wf s → ∃ s', RemoveNode s n = Some s' ∧ wf s' ∧ octantOf s' = delete n (octantOf s) ∧
    (∀ r, octants s !! ROOT = Some r →
       ∃ r', octants s' !! ROOT = Some r' ∧ cullingBox r' = cullingBox r).
Proof.
  intros [Hh Hlk Htot (Hd&Hcl)]. pose proof Hlk as (Hl&Hnd).
  unfold RemoveNode. destruct (octantOf s !! n) as [a|] eqn:Hn.
  - pose proof Hn as Hn'. apply Hl in Hn' as (o&Ho&Hin).
    destruct (RemoveNodeFrom_ok (octants s) n a o _ Hh Ho Hin Htot)
      as (h3&Hrem&Hok3&Hroot3&Hv3&_).
    rewrite Hrem. simpl.
    assert (Hwf : ∀ q fl, wf (mkOctree h3 q (sortDirtyOctants s) (delete n (octantOf s)) fl
                                (lastUpdateFrameNumber s))).
    { intros q fl. split; simpl.
      - done.
      - by eapply linked_removed.
      - rewrite map_size_delete_Some by eauto.
        assert (0 < size (octantOf s))%nat.
        { destruct (size (octantOf s)) eqn:E; [|lia]. apply map_size_empty_inv in E.
          rewrite E in Hn. by rewrite lookup_empty in Hn. }
        replace (Z.of_nat (Nat.pred (size (octantOf s)))) with (Z.of_nat (size (octantOf s)) - 1)%Z
          by lia. done.
      - split; [done|]. intros b o3 Ho3. pose proof (Hv3 b) as Hb. rewrite Ho3 in Hb.
        destruct Hb as (ob&Hob&_&_&_&_&_&_&->&_). by eapply Hcl. }
    assert (Hroot : ∀ r, octants s !! ROOT = Some r →
              ∃ r', h3 !! ROOT = Some r' ∧ cullingBox r' = cullingBox r).
    { intros r Hr. destruct Hok3 as (Hs3&_). destruct (shape_root _ Hs3) as (r3&Hr3&_).
      pose proof (Hv3 ROOT) as Hb. rewrite Hr3 in Hb. destruct Hb as (r0&Hr0&Hc&_).
      exists r3. split; [done|congruence]. }
    case_decide; simpl; (eexists; split; [done|]; split; [apply Hwf|done]).
  - simpl.
    assert (Hwf : ∀ q fl, wf (mkOctree (octants s) q (sortDirtyOctants s) (delete n (octantOf s))
                                fl (lastUpdateFrameNumber s))).
    { intros q fl. rewrite delete_id by done. by split. }
    case_decide; simpl; (eexists; split; [done|]; split; [apply Hwf|]; split; [done|]; eauto).
Qed.

Lemma QueueUpdate_wf s n : wf s → wf (QueueUpdate s n).
Proof. intros [? ? ? ?]. by split. Qed.

Lemma CancelUpdate_wf s n : wf s → wf (CancelUpdate s n).
Proof. intros [? ? ? ?]. by split. Qed.

(** Every call succeeds on a state that satisfies the invariant, and keeps
    the invariant. *)
Lemma exec_wf op s : wf s → ∃ s', exec op s = Some s' ∧ wf s'.
Proof.
  intros Hwf. destruct op as [wb frame|box lv|n|n|n]; simpl.
  - destruct (Update_ok wb frame s Hwf) as (s'&?&?&_). eauto.
  - destruct (Resize_ok s box lv Hwf) as (s'&l&r&?&Hx). exists s'. split; [done|].
    by destruct Hx as (_&_&_&_&_&_&_&_&_&?).
  - destruct (RemoveNode_ok s n Hwf) as (s'&?&?&_). eauto.
  - eexists. split; [done|]. by apply QueueUpdate_wf.
  - eexists. split; [done|]. by apply CancelUpdate_wf.
Qed.

Lemma reachable_wf s : reachable s → wf s.
Proof.
  induction 1 as [|s op s' _ IH Hex]; [apply wf_new|].
  destruct (exec_wf op s IH) as (s''&Hex'&?). congruence.
Qed.


(** * Properties of the Octree *)

(** ** Sequences of calls *)

Lemma run_reachable ops : ∀ s, reachable s → ∃ s', run ops s = Some s' ∧ reachable s'.
Proof.
  induction ops as [|op ops IH]; intros s Hr; simpl.
  - eauto.
  - destruct (exec_wf op s (reachable_wf s Hr)) as (s1&Hex&_). rewrite Hex. simpl.
    apply IH. by eapply reachable_step.
Qed.

Lemma runFrom_reachable ops : reachable (runFrom ops).
Proof.
  unfold runFrom. destruct (run_reachable ops _ reachable_new) as (s'&->&Hr). done.
Qed.

(** ** The count of the root *)

(** With the coordinate arithmetic taken exact, in every state that a
    sequence of Update, Resize, RemoveNode, QueueUpdate and CancelUpdate
    calls reaches, numNodes of the root octant is the number of tracked
    objects, the objects whose back-reference names an octant; that
    octant is live and holds the object.  In binary32 the count can be
    off, see the module F32. *)
Theorem root_numNodes_counts_tracked s :
  reachable s →
  ∃ r, octants s !! ROOT = Some r ∧ numNodes r = Z.of_nat (size (octantOf s)) ∧
       ∀ n a, octantOf s !! n = Some a → ∃ o, octants s !! a = Some o ∧ n ∈ nodes o.
Proof.
  intros Hr. destruct (reachable_wf s Hr) as [_ (Hl&_) (r&Hroot&Hk) _].
  exists r. split; [done|]. split; [done|]. intros n a Hn. by apply Hl.
Qed.

Lemma root_numNodes_counts_tracked_witness :
  reachable (runFrom twoTracked) ∧
  ∃ r, octants (runFrom twoTracked) !! ROOT = Some r ∧
       numNodes r = Z.of_nat (size (octantOf (runFrom twoTracked))) ∧
       ∀ n a, octantOf (runFrom twoTracked) !! n = Some a →
              ∃ o, octants (runFrom twoTracked) !! a = Some o ∧ n ∈ nodes o.
Proof.
  split; [apply runFrom_reachable|].
  apply (root_numNodes_counts_tracked (runFrom twoTracked)), runFrom_reachable.
Defined.

(** ** Pruning *)

Lemma anc_dec h a o : shape h → h !! a = Some o → ∀ b, anc h a b ∨ ¬ anc h a b.
Proof.
  intros Hs Ha. revert a o Ha. apply (live_ind h (λ a, ∀ b, anc h a b ∨ ¬ anc h a b)); [done| |].
  - intros b. destruct (decide (b = ROOT)) as [->|Hb]; [left; constructor|right].
    intros Hx. destruct (shape_root _ Hs) as (r&Hr&Hrp).
    by apply (anc_root_parentless _ _ _ _ Hr Hrp) in Hx.
  - intros a o p Ha Hp _ IH b. destruct (decide (a = b)) as [->|Hab]; [left; constructor|].
    destruct (IH b) as [Hy|Hn]; [left; by eapply anc_step|right].
    intros Hx. by destruct (anc_parent _ _ _ _ _ Ha Hp Hx).
Qed.

(** With the coordinate arithmetic taken exact, in every reachable
    state an octant other than the root holds at
    least one object in its branch, and a child slot names a live octant
    (so an octant with numNodes 0 is in no children array); RemoveNode of
    a tracked object frees the octants from its octant upwards whose
    count was 1, the root excepted, leaves no child slot that names them,
    and keeps every other octant. *)
Theorem empty_octants_are_pruned s :
  reachable s →
  (∀ a o, octants s !! a = Some o → a ≠ ROOT → (1 ≤ numNodes o)%Z) ∧
  (∀ p po i c, octants s !! p = Some po → children po !! i = Some (Some c) →
     ∃ co, octants s !! c = Some co ∧ (1 ≤ numNodes co)%Z) ∧
  (∀ n a, octantOf s !! n = Some a →
     ∃ s', RemoveNode s n = Some s' ∧ is_Some (octants s' !! ROOT) ∧
       (∀ b ob, anc (octants s) a b → octants s !! b = Some ob → numNodes ob = 1%Z →
          b ≠ ROOT →
          octants s' !! b = None ∧
          ∀ p po i, octants s' !! p = Some po → children po !! i ≠ Some (Some b)) ∧
       (∀ b ob, octants s !! b = Some ob →
          ¬ anc (octants s) a b ∨ numNodes ob ≠ 1%Z → is_Some (octants s' !! b))).
Proof.
  intros Hr. pose proof (reachable_wf s Hr) as Hwf.
  destruct Hwf as [Hh (Hl&Hnd) Htot Hcl]. pose proof Hh as (Hs&Hc&Hne).
  assert (Hpos : ∀ a o, octants s !! a = Some o → a ≠ ROOT → (1 ≤ numNodes o)%Z).
  { intros a o Ho Ha. destruct (Hne a o Ho Ha) as [?|(_&t&?&_)]; [done|discriminate]. }
  split; [done|]. split.
  { intros p po i c Hp Hi. destruct (shape_child _ Hs _ _ _ _ Hp Hi) as (Hcr&_&co&Hco&_).
    exists co. split; [done|]. by eapply Hpos. }
  intros n a Hn. pose proof Hn as Hn'. apply Hl in Hn' as (o&Ho&Hin).
  destruct (RemoveNodeFrom_ok (octants s) n a o _ Hh Ho Hin Htot)
    as (h3&Hrem&(Hs3&Hc3&Hne3)&Hroot3&Hv3&Hanc&Hframe).
  assert (Hex : ∃ s', RemoveNode s n = Some s' ∧ octants s' = h3).
  { unfold RemoveNode. rewrite Hn, Hrem. simpl. case_decide; eexists; split; done. }
  destruct Hex as (s'&Hrun&Hh3). exists s'. split; [done|]. rewrite Hh3.
  split; [destruct (shape_root _ Hs3) as (r3&?&_); eauto|]. split.
  - intros b ob Hab Hb Hone Hbr.
    assert (Hdead : h3 !! b = None).
    { pose proof (Hanc b ob Hab Hb) as Hx. destruct (h3 !! b) as [ob'|] eqn:Hb3; [|done].
      destruct (Hne3 b ob' Hb3 Hbr) as [?|(_&t&?&_)]; [lia|discriminate]. }
    split; [done|]. intros p po i Hp Hi.
    destruct (shape_child _ Hs3 _ _ _ _ Hp Hi) as (_&_&co&Hco&_). congruence.
  - intros b ob Hb [Hnot|Hmany].
    + rewrite (Hframe b Hnot). eauto.
    + destruct (anc_dec _ _ _ Hs Ho b) as [Hab|Hnab].
      * pose proof (Hanc b ob Hab Hb) as Hx. destruct (h3 !! b); [eauto|]. by destruct Hx.
      * rewrite (Hframe b Hnab). eauto.
Qed.

Lemma empty_octants_are_pruned_witness :
  reachable (runFrom oneTracked) ∧
  (∀ a o, octants (runFrom oneTracked) !! a = Some o → a ≠ ROOT → (1 ≤ numNodes o)%Z) ∧
  (∀ p po i c, octants (runFrom oneTracked) !! p = Some po →
     children po !! i = Some (Some c) →
     ∃ co, octants (runFrom oneTracked) !! c = Some co ∧ (1 ≤ numNodes co)%Z) ∧
  (∀ n a, octantOf (runFrom oneTracked) !! n = Some a →
     ∃ s', RemoveNode (runFrom oneTracked) n = Some s' ∧ is_Some (octants s' !! ROOT) ∧
       (∀ b ob, anc (octants (runFrom oneTracked)) a b →
          octants (runFrom oneTracked) !! b = Some ob → numNodes ob = 1%Z → b ≠ ROOT →
          octants s' !! b = None ∧
          ∀ p po i, octants s' !! p = Some po → children po !! i ≠ Some (Some b)) ∧
       (∀ b ob, octants (runFrom oneTracked) !! b = Some ob →
          ¬ anc (octants (runFrom oneTracked)) a b ∨ numNodes ob ≠ 1%Z →
          is_Some (octants s' !! b))).
Proof.
  split; [apply runFrom_reachable|].
  apply (empty_octants_are_pruned (runFrom oneTracked)), runFrom_reachable.
Defined.

(** ** The geometry of the octants *)

(** C9: in every state that Update, Resize, RemoveNode, QueueUpdate and
    CancelUpdate calls reach, the cullingBox of every octant is its
    worldBoundingBox expanded by its halfSize, and center and halfSize
    are those of the worldBoundingBox; SetBoundingBoxAttr writes the
    worldBoundingBox of the root and leaves its cullingBox, center and
    halfSize as they were. *)
Theorem cullingBox_is_expanded_box s :
  reachable s →
  (∀ a o, octants s !! a = Some o →
     cullingBox o = expanded (worldBoundingBox o) (halfSize o) ∧
     halfSize o = HalfSize (worldBoundingBox o) ∧ center o = Center (worldBoundingBox o)) ∧
  (∀ box s', SetBoundingBoxAttr s box = Some s' →
     ∃ r r', octants s !! ROOT = Some r ∧ octants s' !! ROOT = Some r' ∧
             worldBoundingBox r' = box ∧ cullingBox r' = cullingBox r ∧
             halfSize r' = halfSize r ∧ center r' = center r).
Proof.
  intros Hr. split.
  - intros a o Ho. destruct (reachable_wf s Hr) as [(Hs&_) _ _ _].
    destruct (shape_geom _ Hs a o Ho) as (?&?&?). done.
  - intros box s'. unfold SetBoundingBoxAttr. destruct (octants s !! ROOT) as [r|]; [|done].
    simpl. intros [= <-]. exists r. eexists. split; [done|]. simpl.
    rewrite lookup_insert_eq. split; [done|]. done.
Qed.

Lemma cullingBox_is_expanded_box_witness :
  reachable (runFrom twoTracked) ∧
  (∀ a o, octants (runFrom twoTracked) !! a = Some o →
     cullingBox o = expanded (worldBoundingBox o) (halfSize o) ∧
     halfSize o = HalfSize (worldBoundingBox o) ∧ center o = Center (worldBoundingBox o)).
Proof.
  split; [apply runFrom_reachable|].
  apply (cullingBox_is_expanded_box (runFrom twoTracked)), runFrom_reachable.
Defined.

(** C9, as stated, fails once the attribute setters are among the calls:
    after SetBoundingBoxAttr on a new Octree the cullingBox of the root
    is still that of the default box. *)
Lemma cullingBox_stale_after_SetBoundingBoxAttr :
  reachableAttr rebounded ∧
  ∃ r, octants rebounded !! ROOT = Some r ∧
       ¬ (vx (bmin (cullingBox r)) ==
          vx (bmin (expanded (worldBoundingBox r) (halfSize r))))%Q.
Proof.
  split.
  - apply (reachableAttr_step Octree_new (OpSetBoundingBoxAttr (cube 0 10)));
      [constructor|]. vm_compute. reflexivity.
  - eexists. split; [vm_compute; reflexivity|]. vm_compute. discriminate.
Qed.

(** ** The fit test *)

Section FitTest.
Local Open Scope Q_scope.

(** With the coordinate arithmetic taken exact, the bound of clause (c)
    is that of the cullingBox of a child: for an octant whose geometry
    derives from its worldBoundingBox
    and a box with min <= max, FitBoundingBox with the size of the box is
    true exactly when (a) the level of the octant is at most 1, or (b)
    the size of the box on some axis is at least the half-size of the
    octant, or (c) the box does not lie strictly inside the cullingBox of
    the child that its centre selects. *)
Theorem FitBoundingBox_fits o box :
  geomOK o → valid_box box →
  (FitBoundingBox o box (Size box) = true ↔
   (level o <= 1)%Z ∨
   (vx (halfSize o) <= vx (Size box) ∨ vy (halfSize o) <= vy (Size box) ∨
    vz (halfSize o) <= vz (Size box)) ∨
   ¬ strictlyInside (cullingBox (wouldBeChild o box)) box).
Proof.
  intros Hg Hv. rewrite FitBoundingBox_true. revert Hg Hv.
  destruct o as [cb [[a1 a2 a3] [b1 b2 b3]] c hs lv ns ch pa nn sd].
  destruct box as [[m1 m2 m3] [M1 M2 M3]].
  unfold geomOK, valid_box, strictlyInside, wouldBeChild. simpl.
  intros (-> & -> & _) (V1 & V2 & V3). simpl.
  unfold ChildIndex, childBox. simpl.
  destruct (Z_le_gt_dec lv 1) as [Hl|Hl]; [split; intros _; by left|].
  repeat match goal with
  | |- context [Qltb ?a ?b] =>
      let E := fresh in destruct (Qltb a b) eqn:E;
      [apply Qltb_lt in E|apply Qltb_ge in E]; simpl in E
  end; simpl;
  (split; (intros [?|[?|?]]; [lia|by (right; left)|]));
  (destruct (Qlt_le_dec (M1 - m1) ((b1 - a1) * (1 # 2))) as [S1|S1];
     [|right; left; lra]);
  (destruct (Qlt_le_dec (M2 - m2) ((b2 - a2) * (1 # 2))) as [S2|S2];
     [|right; left; lra]);
  (destruct (Qlt_le_dec (M3 - m3) ((b3 - a3) * (1 # 2))) as [S3|S3];
     [|right; left; lra]);
  right; right; lra.
Qed.

Lemma FitBoundingBox_fits_witness :
  geomOK octant8 ∧ valid_box boxAtSeam ∧
  (FitBoundingBox octant8 boxAtSeam (Size boxAtSeam) = true ↔
   (level octant8 <= 1)%Z ∨
   (vx (halfSize octant8) <= vx (Size boxAtSeam) ∨
    vy (halfSize octant8) <= vy (Size boxAtSeam) ∨
    vz (halfSize octant8) <= vz (Size boxAtSeam)) ∨
   ¬ strictlyInside (cullingBox (wouldBeChild octant8 boxAtSeam)) boxAtSeam).
Proof.
  assert (Hg : geomOK octant8) by (repeat split).
  assert (Hv : valid_box boxAtSeam) by (unfold valid_box; simpl; lra).
  split; [exact Hg|]. split; [exact Hv|].
  apply (FitBoundingBox_fits octant8 boxAtSeam Hg Hv).
Defined.

(** C5, as stated, fails in its clause (c).  The octant of level 2 with
    box [-8,8]^3 takes a box of size 1 that passes the cullingBox of its
    child by one half, less than the margin of 2; and it does not take a
    box near a corner, which is outside the region of the opposite child
    by more than that margin. *)
Lemma FitBoundingBox_not_by_margin :
  (FitBoundingBox octant8 boxAtSeam (Size boxAtSeam) = true ∧
   FitBoundingBox_spec octant8 boxAtSeam (Size boxAtSeam) = false) ∧
  (FitBoundingBox octant8 boxInCorner (Size boxInCorner) = false ∧
   fitsByMargin octant8 7 boxInCorner = true).
Proof. vm_compute. done. Qed.

End FitTest.

(** ** RemoveNode of an object that no octant holds *)

Lemma tombstone_length n q : length (tombstone n q) = length q.
Proof. induction q as [|x q IH]; simpl; [done|]. case_decide; simpl; congruence. Qed.


Lemma tombstone_other n q i x :
  x ≠ Some n → q !! i = Some x → tombstone n q !! i = Some x.
Proof.
  intros Hx. revert i. induction q as [|y q IH]; intros i; simpl; [done|].
  case_decide as Hy; destruct i as [|i]; simpl; try done.
  - intros [= ->]. done.
  - apply IH.
Qed.

(** RemoveNode of an object whose back-reference is null, or names an
    octant that does not hold it, leaves the octants as they are and
    clears the back-reference; the first queue entry of the object
    becomes null when the queued flag of the object is set. *)
Lemma RemoveNode_untracked s n :
  (octantOf s !! n = None ∨
   ∃ a o, octantOf s !! n = Some a ∧ octants s !! a = Some o ∧ n ∉ nodes o) →
  ∃ s', RemoveNode s n = Some s' ∧ octants s' = octants s ∧
        octantOf s' = delete n (octantOf s) ∧
        sortDirtyOctants s' = sortDirtyOctants s ∧
        lastUpdateFrameNumber s' = lastUpdateFrameNumber s ∧
        queuedFlag s' = queuedFlag s ∖ {[n]} ∧
        updateQueue s' = (if decide (n ∈ queuedFlag s) then tombstone n (updateQueue s)
                          else updateQueue s).
Proof.
  intros Hn.
  assert (Hrem : RemoveNodeFrom (octants s) n (octantOf s !! n) = Some (octants s)).
  { destruct Hn as [->|(a&o&->&Ho&Hnin)]; [done|]. simpl. rewrite Ho. simpl.
    by rewrite decide_False. }
  unfold RemoveNode. rewrite Hrem. simpl. case_decide as Hfl; simpl.
  - eexists. split; [done|]. simpl. split_and!; done.
  - eexists. split; [done|]. simpl. split_and!; try done. set_solver.
Qed.

(** C10: after Resize an object that was in the tree has an entry in
    the queue, a null back-reference and a cleared queued flag.
    RemoveNode of the object leaves the octants as they are, and leaves
    the entry in the queue: the next Update puts the removed object into
    the tree. *)
Theorem RemoveNode_keeps_entry_after_Resize :
  octantOf (runFrom resizedWithObject) !! 5%nat = None ∧
  updateQueue (runFrom resizedWithObject) = [Some 5%nat] ∧
  (5%nat ∉ queuedFlag (runFrom resizedWithObject)) ∧
  ∃ s', RemoveNode (runFrom resizedWithObject) 5%nat = Some s' ∧
        octants s' = octants (runFrom resizedWithObject) ∧
        updateQueue s' = [Some 5%nat] ∧
        ∃ s'', Update atOrigin 2 s' = Some s'' ∧ is_Some (octantOf s'' !! 5%nat).
Proof.
  split; [by vm_compute|]. split; [by vm_compute|]. split; [by vm_compute|].
  eexists. split; [vm_compute; reflexivity|]. split; [by vm_compute|].
  split; [by vm_compute|].
  eexists. split; [vm_compute; reflexivity|]. vm_compute. eauto.
Qed.

(** ** Where Update leaves an object *)

(** An octant on the descent for a box, other than the root, holds the
    box in its cullingBox. *)
Lemma upath_inside h box a o :
  shape h → valid_box box → upath h box a → a ≠ ROOT → h !! a = Some o →
  is_INSIDE (IsInside (cullingBox o) box) = true.
Proof.
  intros Hs Hv Hup Hne Ha. destruct Hup as [|a o' p po Ha' Hp Hpo Hins Hidx _]; [done|].
  assert (o' = o) as -> by congruence.
  destruct (shape_parent _ Hs _ _ Ha Hne) as (p'&po'&Hp'&Hpo'&Hslot).
  assert (p' = p) as -> by congruence. assert (po' = po) as -> by congruence.
  destruct (shape_child _ Hs _ _ _ _ Hpo Hslot) as (_&_&co&Hco&_&_&Hw&_).
  assert (co = o) as -> by congruence.
  apply (child_contains po box o).
  - by eapply shape_geom.
  - done.
  - by eapply insertHere_false_fit.
  - by rewrite Hw, Hidx.
  - by eapply shape_geom.
Qed.

Lemma settled_placed h m wb n a :
  shape h → valid_box (wb n) → settled h m wb n → m !! n = Some a →
  a = ROOT ∨ ∃ o, h !! a = Some o ∧ is_INSIDE (IsInside (cullingBox o) (wb n)) = true.
Proof.
  intros Hs Hv (a'&o&Hm&Ho&Hcase) Ha. assert (a' = a) as -> by congruence.
  destruct (decide (a = ROOT)) as [|Hne]; [by left|right]. exists o. split; [done|].
  destruct Hcase as [Hf|(Hup&_)].
  - unfold fastOK in Hf. by apply andb_true_iff in Hf as [? _].
  - by eapply upath_inside.
Qed.

(** C1: with the coordinate arithmetic taken exact, Update succeeds in
    every reachable state; an object with an entry in the queue is
    tracked afterwards, and when its box has min <= max its octant is
    the root or has a cullingBox that holds the box; an object without
    an entry keeps its octant, so that what held of its octant before
    Update holds after it. *)
Theorem Update_places_queued_objects wb frame s :
  reachable s →
  ∃ s', Update wb frame s = Some s' ∧
    (∀ n, n ∈ queueSet (updateQueue s) →
       is_Some (octantOf s' !! n) ∧ (valid_box (wb n) → placed s' wb n)) ∧
    (∀ n, n ∉ queueSet (updateQueue s) →
       octantOf s' !! n = octantOf s !! n ∧ (placed s wb n → placed s' wb n)).
Proof.
  intros Hr. pose proof (reachable_wf s Hr) as Hwf.
  destruct (Update_ok wb frame s Hwf) as (s'&Hrun&Hwf'&_&Hset&Hsame&Hkeep&_).
  exists s'. split; [done|]. destruct Hwf' as [(Hs'&_) _ _ _]. split.
  - intros n Hn. pose proof (Hset n Hn) as Hst. split.
    + destruct Hst as (a&_&Ha&_). eauto.
    + intros Hv a Ha. eapply settled_placed; eauto.
  - intros n Hn. split; [by apply Hsame|]. intros Hp a Ha. rewrite (Hsame n Hn) in Ha.
    destruct (Hp a Ha) as [->|(o&Ho&Hin)]; [by left|right].
    destruct (Hkeep n a o Hn Ha Ho) as (o'&Ho'&Hc). exists o'. split; [done|]. by rewrite Hc.
Qed.

Lemma Update_places_queued_objects_witness :
  reachable (runFrom queuedMove) ∧
  5%nat ∈ queueSet (updateQueue (runFrom queuedMove)) ∧ valid_box (farAway 5%nat) ∧
  ∃ s', Update farAway 2 (runFrom queuedMove) = Some s' ∧
    (∀ n, n ∈ queueSet (updateQueue (runFrom queuedMove)) →
       is_Some (octantOf s' !! n) ∧ (valid_box (farAway n) → placed s' farAway n)) ∧
    (∀ n, n ∉ queueSet (updateQueue (runFrom queuedMove)) →
       octantOf s' !! n = octantOf (runFrom queuedMove) !! n ∧
       (placed (runFrom queuedMove) farAway n → placed s' farAway n)).
Proof.
  split; [apply runFrom_reachable|]. split; [vm_compute; set_solver|].
  split; [unfold valid_box; simpl; lra|].
  apply (Update_places_queued_objects farAway 2 (runFrom queuedMove)), runFrom_reachable.
Defined.

(** An object whose queue entry was cancelled is not moved by Update:
    object 5 is inserted at the origin, moves far away, is queued, and
    the entry is cancelled; after Update its octant is not the root and
    the cullingBox of the octant does not hold its box. *)
Lemma Update_leaves_cancelled_object :
  reachable (runFrom cancelledMove) ∧
  ∃ s' a o, Update farAway 2 (runFrom cancelledMove) = Some s' ∧
    octantOf s' !! 5%nat = Some a ∧ a ≠ ROOT ∧ octants s' !! a = Some o ∧
    is_INSIDE (IsInside (cullingBox o) (farAway 5%nat)) = false.
Proof.
  split; [apply runFrom_reachable|].
  eexists _, 7%nat, _. split; [vm_compute; reflexivity|].
  split; [vm_compute; reflexivity|]. split; [done|].
  split; [vm_compute; reflexivity|]. vm_compute. reflexivity.
Qed.

(** ** Objects that do not fit the root *)








(** ** Redundant QueueUpdate and CancelUpdate *)








(** ** Resize followed by Update *)








(** * Ray queries *)

(** ** The order of distances *)

Lemma Dltb_irrefl a : Dltb a a = false.
Proof. destruct a as [q|]; simpl; [|done]. apply Qltb_ge. lra. Qed.

Lemma Dltb_total a b : Dltb a b = false ∨ Dltb b a = false.
Proof.
  destruct a as [x|], b as [y|]; simpl; auto.
  destruct (Qlt_le_dec x y) as [H|H].
  - right. apply Qltb_ge. lra.
  - left. by apply Qltb_ge.
Qed.

(** [Dltb a b = false] reads "b is at most a". *)
Lemma Dge_trans a b c : Dltb a b = false → Dltb b c = false → Dltb a c = false.
Proof.
  destruct a as [x|], b as [y|], c as [z|]; simpl; try done.
  rewrite !Qltb_ge. intros. lra.
Qed.

Lemma Dlt_ge_trans a b c : Dltb a b = true → Dltb c b = false → Dltb a c = true.
Proof.
  destruct a as [x|], b as [y|], c as [z|]; simpl; try done.
  rewrite !Qltb_lt, Qltb_ge. intros. lra.
Qed.

Lemma Min_cases a b : (Dltb a b = true ∧ Min a b = a) ∨ (Dltb a b = false ∧ Min a b = b).
Proof. unfold Min. destruct (Dltb a b); auto. Qed.

Global Instance notAfter_results_total : Total (notAfter CompareRaycastResults).
Proof. intros x y. unfold notAfter, CompareRaycastResults. destruct (Dltb_total (distance y) (distance x)); auto. Qed.

Global Instance notAfter_results_trans : Transitive (notAfter CompareRaycastResults).
Proof.
  intros x y z. unfold notAfter, CompareRaycastResults. intros Hxy Hyz.
  by eapply Dge_trans.
Qed.

Global Instance notAfter_distances_total : Total (notAfter CompareNodeDistances).
Proof. intros x y. unfold notAfter, CompareNodeDistances. destruct (Dltb_total (y.2) (x.2)); auto. Qed.

Global Instance notAfter_distances_trans : Transitive (notAfter CompareNodeDistances).
Proof.
  intros x y z. unfold notAfter, CompareNodeDistances. intros Hxy Hyz.
  by eapply Dge_trans.
Qed.

(** ** Sorting *)

Lemma sortBy_elem_of {A} (comp : A → A → bool) l x : x ∈ sortBy comp l ↔ x ∈ l.
Proof. unfold sortBy. by rewrite merge_sort_Permutation. Qed.

Lemma sortBy_nil_inv {A} (comp : A → A → bool) l : sortBy comp l = [] → l = [].
Proof.
  intros H. apply Permutation_nil_r. rewrite <- H. unfold sortBy.
  by rewrite merge_sort_Permutation.
Qed.

Lemma sortBy_front {A} (comp : A → A → bool)
    `{!Transitive (notAfter comp), !Total (notAfter comp)} l front rest :
  sortBy comp l = front :: rest →
  front ∈ l ∧ ∀ x, x ∈ l → comp x front = false.
Proof.
  intros H. pose proof (StronglySorted_merge_sort (notAfter comp) l) as Hs.
  fold (sortBy comp l) in Hs. rewrite H in Hs.
  assert (Hmem : ∀ x, x ∈ l ↔ x ∈ front :: rest).
  { intros x. by rewrite <- H, sortBy_elem_of. }
  split; [apply Hmem; left|]. intros x Hx. apply Hmem in Hx.
  apply StronglySorted_inv in Hs as (_&Hall).
  apply elem_of_cons in Hx as [->|Hx].
  - destruct (total (notAfter comp) front front); done.
  - rewrite Forall_forall in Hall. by apply Hall.
Qed.

(** ** The two traversals visit the same objects *)

Lemma mapM_pair {A B C D} (F : A → option B) (G : A → option C)
    (kF : D → B) (kG : D → C) l :
  Forall (λ x, ∃ d, F x = Some (kF d) ∧ G x = Some (kG d)) l →
  ∃ ds : list D, mapM F l = Some (kF <$> ds) ∧ mapM G l = Some (kG <$> ds).
Proof.
  induction 1 as [|x l (d&HF&HG) _ (ds&HFs&HGs)].
  - by exists [].
  - exists (d :: ds). simpl. rewrite HF, HG. simpl. rewrite HFs, HGs. done.
Qed.

Lemma elem_of_concat {A} (x : A) (ls : list (list A)) :
  x ∈ concat ls ↔ ∃ l, x ∈ l ∧ l ∈ ls.
Proof.
  induction ls as [|l ls IH]; simpl.
  - split; [by intros ?%elem_of_nil|]. by intros (l&_&?%elem_of_nil).
  - rewrite elem_of_app, IH. split.
    + intros [Hx|(l'&Hx&Hl')]; [exists l; split; [done|left]|].
      exists l'. split; [done|by right].
    + intros (l'&Hx&[->|Hl']%elem_of_cons); [by left|]. right. by exists l'.
Qed.

Lemma concat_fmap_concat {A B} (g : A → list B) (ls : list (list A)) :
  concat (g <$> concat ls) = concat ((λ l, concat (g <$> l)) <$> ls).
Proof.
  induction ls as [|l ls IH]; simpl; [done|].
  by rewrite fmap_app, concat_app, IH.
Qed.

Section RayFacts.
Variable HitDistance : BoundingBox → Dist.
Variable Flags : nodeid → Z.
Variable LayerMask : nodeid → Z.
Variable WorldBoundingBox : nodeid → BoundingBox.
Variable OnRaycast : nodeid → Dist → list RaycastResult.
Variable nodeFlags : Z.
Variable maxDistance : Dist.
Variable layerMask : Z.

Local Abbreviation hits :=
  (λ n, raycastNode Flags LayerMask OnRaycast n nodeFlags maxDistance layerMask).
Local Abbreviation bounds :=
  (λ n, distanceNode HitDistance Flags LayerMask WorldBoundingBox n nodeFlags maxDistance
                     layerMask).

(** Both overloads of CollectNodes for a ray return, and what they
    append comes from one list of visited objects. *)
Lemma CollectNodes_ray_ok h f :
  shape h → ∀ a o, h !! a = Some o → (Z.to_nat (level o) ≤ f)%nat →
  ∃ V, CollectNodesRay HitDistance Flags LayerMask OnRaycast f h a nodeFlags maxDistance
                       layerMask = Some (concat (hits <$> V)) ∧
       CollectNodesDist HitDistance Flags LayerMask WorldBoundingBox f h a nodeFlags
                        maxDistance layerMask = Some (concat (bounds <$> V)).
Proof.
  intros Hs. destruct (shape_root _ Hs) as (r&Hr&_).
  induction f as [|f IH]; intros a o Ha Hf.
  { pose proof (shape_level _ Hs _ _ _ Ha Hr). lia. }
  simpl. rewrite Ha. simpl.
  destruct (negb (Dltb (HitDistance (cullingBox o)) maxDistance)); [by exists []|].
  match goal with
  | |- ∃ V, (mapM ?F _ ≫= _) = _ ∧ (mapM ?G _ ≫= _) = _ =>
      destruct (mapM_pair F G (λ V, concat (hits <$> V)) (λ V, concat (bounds <$> V))
                          (children o)) as (Vs&HF&HG)
  end.
  { apply Forall_lookup. intros j [c|] Hj.
    - destruct (shape_child _ Hs _ _ _ _ Ha Hj) as (_&_&co&Hco&_&Hl&_).
      apply (IH c co Hco). lia.
    - by exists []. }
  rewrite HF, HG. simpl. exists (nodes o ++ concat Vs).
  by rewrite !fmap_app, !concat_app, !concat_fmap_concat.
Qed.

(** ** The second phase of RaycastSingle *)

Lemma closestLoop_incl cs : ∀ fin ch r,
  r ∈ fin → r ∈ closestLoop OnRaycast cs fin ch maxDistance.
Proof.
  induction cs as [|it cs IH]; intros fin ch r Hr; simpl; [done|].
  destruct (Dltb (it.2) (Min ch maxDistance)); [|done].
  apply IH. apply elem_of_app. by left.
Qed.

Lemma closestLoop_from cs : ∀ fin ch r,
  r ∈ closestLoop OnRaycast cs fin ch maxDistance →
  r ∈ fin ∨ ∃ c, c ∈ cs ∧ r ∈ OnRaycast (c.1) maxDistance.
Proof.
  induction cs as [|it cs IH]; intros fin ch r Hr; simpl in Hr; [by left|].
  destruct (Dltb (it.2) (Min ch maxDistance)); [|by left].
  apply IH in Hr as [Hr|(c&Hc&Hr)].
  - apply elem_of_app in Hr as [Hr|Hr]; [by left|].
    right. exists it. split; [left|done].
  - right. exists c. split; [by right|done].
Qed.

Lemma closestLoop_closest cs :
  lowerBound HitDistance WorldBoundingBox OnRaycast →
  StronglySorted (notAfter CompareNodeDistances) cs →
  (∀ c, c ∈ cs → c.2 = HitDistance (WorldBoundingBox (c.1)) ∧
                 Dltb (c.2) maxDistance = true) →
  ∀ fin ch, tracksHit maxDistance fin ch →
  ∀ c r, c ∈ cs → r ∈ OnRaycast (c.1) maxDistance →
  ∃ r0, r0 ∈ closestLoop OnRaycast cs fin ch maxDistance ∧
        Dltb (distance r) (distance r0) = false.
Proof.
  intros Hlow. induction cs as [|it cs IH]; intros Hsort Hcs fin ch Htr c r Hc Hr.
  { by apply elem_of_nil in Hc. }
  apply StronglySorted_inv in Hsort as (Hsort&Hall). rewrite Forall_forall in Hall.
  simpl. destruct (Dltb (it.2) (Min ch maxDistance)) eqn:Htest.
  - set (fin1 := fin ++ OnRaycast (it.1) maxDistance).
    match goal with
    | |- ∃ r0, r0 ∈ closestLoop _ _ _ ?c1 _ ∧ _ => set (ch1 := c1)
    end.
    assert (Htr1 : tracksHit maxDistance fin1 ch1).
    { unfold ch1. destruct (length fin <? length fin1)%nat.
      - destruct (last fin1) as [back|] eqn:Hlast.
        + intros Hlt. destruct (Min_cases ch (distance back)) as [(_&Hm)|(_&Hm)];
            rewrite Hm in Hlt |- *.
          * destruct (Htr Hlt) as (r0&Hr0&?). exists r0. split; [|done].
            apply elem_of_app. by left.
          * exists back. split; [|done]. apply last_Some in Hlast as (l'&->).
            apply elem_of_app. right. left.
        + intros Hlt. destruct (Htr Hlt) as (r0&Hr0&?). exists r0. split; [|done].
          apply elem_of_app. by left.
      - intros Hlt. destruct (Htr Hlt) as (r0&Hr0&?). exists r0. split; [|done].
        apply elem_of_app. by left. }
    apply elem_of_cons in Hc as [->|Hc].
    + exists r. split; [|apply Dltb_irrefl]. apply closestLoop_incl.
      apply elem_of_app. by right.
    + apply (IH Hsort) with c; auto. intros c' Hc'. apply Hcs. by right.
  - (* the early-out: the hit found is at most the bound of [it] *)
    destruct (Hcs it) as (_&Hit); [left|].
    destruct (Min_cases ch maxDistance) as [(Hlt&Hm)|(Hge&Hm)]; rewrite Hm in Htest.
    2: { congruence. }
    destruct (Htr Hlt) as (r0&Hr0&Hd). exists r0. split; [done|]. rewrite Hd.
    destruct (Hcs c Hc) as (Hbound&_).
    assert (Hcit : Dltb (c.2) (it.2) = false).
    { apply elem_of_cons in Hc as [->|Hc]; [apply Dltb_irrefl|]. by apply Hall. }
    apply Dge_trans with (c.2).
    { rewrite Hbound. by eapply Hlow. }
    by apply Dge_trans with (it.2).
Qed.

(** What RaycastSingle makes of the objects that Raycast visits. *)
Lemma closest_of_visited V :
  lowerBound HitDistance WorldBoundingBox OnRaycast →
  withinBudget HitDistance WorldBoundingBox OnRaycast →
  let fin := closestLoop OnRaycast (sortBy CompareNodeDistances (concat (bounds <$> V)))
                         [] Infinity maxDistance in
  (∀ r, r ∈ fin → r ∈ concat (hits <$> V)) ∧
  (∀ r, r ∈ concat (hits <$> V) → ∃ r0, r0 ∈ fin ∧ Dltb (distance r) (distance r0) = false).
Proof.
  intros Hlow Hbud fin.
  assert (Hcand : ∀ c, c ∈ concat (bounds <$> V) ↔
            c.1 ∈ V ∧ matchesMasks Flags LayerMask (c.1) nodeFlags layerMask = true ∧
            c.2 = HitDistance (WorldBoundingBox (c.1)) ∧ Dltb (c.2) maxDistance = true).
  { intros [n d]. rewrite elem_of_concat. simpl. split.
    - intros (l&Hin&Hl). apply list_elem_of_fmap in Hl as (m&->&Hm).
      unfold distanceNode in Hin. destruct (matchesMasks _ _ m _ _) eqn:Hmm.
      + destruct (Dltb _ maxDistance) eqn:Hd.
        * apply list_elem_of_singleton in Hin as [= -> ->]. done.
        * by apply elem_of_nil in Hin.
      + by apply elem_of_nil in Hin.
    - intros (Hn&Hmm&->&Hd). eexists. split; [|apply list_elem_of_fmap; by exists n].
      unfold distanceNode. rewrite Hmm. simpl. rewrite Hd. left. }
  assert (Hhit : ∀ r, r ∈ concat (hits <$> V) ↔
            ∃ n, n ∈ V ∧ matchesMasks Flags LayerMask n nodeFlags layerMask = true ∧
                 r ∈ OnRaycast n maxDistance).
  { intros r. rewrite elem_of_concat. split.
    - intros (l&Hin&Hl). apply list_elem_of_fmap in Hl as (m&->&Hm).
      unfold raycastNode in Hin. destruct (matchesMasks _ _ m _ _) eqn:Hmm.
      + by exists m.
      + by apply elem_of_nil in Hin.
    - intros (n&Hn&Hmm&Hr). eexists. split; [|apply list_elem_of_fmap; by exists n].
      unfold raycastNode. by rewrite Hmm. }
  split.
  - intros r Hr. apply closestLoop_from in Hr as [Hr|(c&Hc&Hr)].
    { by apply elem_of_nil in Hr. }
    apply sortBy_elem_of, Hcand in Hc as (?&?&_). apply Hhit. by exists (c.1).
  - intros r (n&Hn&Hmm&Hr)%Hhit.
    apply (closestLoop_closest _ Hlow) with (c := (n, HitDistance (WorldBoundingBox n))).
    + apply StronglySorted_merge_sort; apply _.
    + intros c Hc. apply sortBy_elem_of, Hcand in Hc as (_&_&?&?). done.
    + intros Hlt. done.
    + apply sortBy_elem_of, Hcand. simpl. split_and!; try done. by eapply Hbud.
    + done.
Qed.
End RayFacts.

(** C4: in a reachable state, for objects whose OnRaycast reports hits
    only within the budget of their bounding box and not below its
    distance, Raycast and RaycastSingle return; when the result list of
    Raycast is empty RaycastSingle returns the no-hit result (infinite
    distance, null object), and otherwise it returns a result of that
    list such that no result of the list has a smaller distance, so that
    its distance is that of the first result of the sorted list. *)
Theorem RaycastSingle_is_closest_of_Raycast
    HitDistance Flags LayerMask WorldBoundingBox OnRaycast s nodeFlags maxDistance layerMask :
  reachable s →
  lowerBound HitDistance WorldBoundingBox OnRaycast →
  withinBudget HitDistance WorldBoundingBox OnRaycast →
  ∃ results res,
    Raycast HitDistance Flags LayerMask OnRaycast s nodeFlags maxDistance layerMask
      = Some results ∧
    RaycastSingle HitDistance Flags LayerMask WorldBoundingBox OnRaycast s nodeFlags
                  maxDistance layerMask = Some res ∧
    match results with
    | [] => res = emptyRes
    | first :: _ =>
        closestOf res results ∧
        Dltb (distance first) (distance res) = false ∧
        Dltb (distance res) (distance first) = false
    end.
Proof.
  intros Hreach Hlow Hbud. destruct (reachable_wf s Hreach) as [(Hs&_) _ _ _].
  destruct (shape_root _ Hs) as (r&Hr&_).
  destruct (CollectNodes_ray_ok HitDistance Flags LayerMask WorldBoundingBox OnRaycast
              nodeFlags maxDistance layerMask (octants s) (depthFuel (octants s)) Hs ROOT r Hr)
    as (V&HRay&HDist).
  { unfold depthFuel. rewrite Hr. lia. }
  destruct (closest_of_visited HitDistance Flags LayerMask WorldBoundingBox OnRaycast
              nodeFlags maxDistance layerMask V Hlow Hbud) as (Hsub&Hbest).
  unfold Raycast, RaycastSingle. rewrite HRay, HDist. simpl.
  match goal with
  | |- ∃ results res, Some (sortBy _ ?H) = _ ∧
         match sortBy _ ?F with _ => _ end = _ ∧ _ => set (hitsV := H); set (fin := F)
  end.
  fold hitsV in Hsub, Hbest. fold fin in Hsub, Hbest.
  eexists. destruct (sortBy CompareRaycastResults fin) as [|front rest] eqn:Hfin.
  - exists emptyRes. split; [done|]. split; [done|].
    apply sortBy_nil_inv in Hfin.
    destruct (sortBy CompareRaycastResults hitsV) as [|first rest] eqn:Hres; [done|].
    exfalso. destruct (sortBy_front _ _ _ _ Hres) as (Hin&_).
    destruct (Hbest first Hin) as (r0&Hr0&_). rewrite Hfin in Hr0. by apply elem_of_nil in Hr0.
  - exists front. split; [done|]. split; [done|].
    destruct (sortBy_front _ _ _ _ Hfin) as (Hfront&Hmin).
    assert (Hclosest : ∀ x, x ∈ hitsV → Dltb (distance x) (distance front) = false).
    { intros x Hx. destruct (Hbest x Hx) as (r0&Hr0&Hle).
      apply Dge_trans with (distance r0); [done|]. by apply Hmin. }
    destruct (sortBy CompareRaycastResults hitsV) as [|first rest'] eqn:Hres.
    { apply sortBy_nil_inv in Hres. apply Hsub in Hfront. rewrite Hres in Hfront.
      by apply elem_of_nil in Hfront. }
    destruct (sortBy_front _ _ _ _ Hres) as (Hfirst&Hmin').
    split; [|split].
    + split.
      * rewrite <- Hres. apply sortBy_elem_of. by apply Hsub.
      * intros x Hx. apply Hclosest. by rewrite <- sortBy_elem_of, Hres.
    + by apply Hclosest.
    + apply Hmin'. by apply Hsub.
Qed.

Lemma RaycastSingle_is_closest_of_Raycast_witness :
  reachable (runFrom twoTracked) ∧
  lowerBound hitAtOne atOrigin reportBoxHit ∧
  withinBudget hitAtOne atOrigin reportBoxHit ∧
  ∃ results res,
    Raycast hitAtOne allFlags allFlags reportBoxHit (runFrom twoTracked) 1 (Finite 10) 1
      = Some results ∧
    RaycastSingle hitAtOne allFlags allFlags atOrigin reportBoxHit (runFrom twoTracked) 1
                  (Finite 10) 1 = Some res ∧
    match results with
    | [] => res = emptyRes
    | first :: _ =>
        closestOf res results ∧
        Dltb (distance first) (distance res) = false ∧
        Dltb (distance res) (distance first) = false
    end.
Proof.
  assert (Hlow : lowerBound hitAtOne atOrigin reportBoxHit).
  { intros n maxD r. unfold reportBoxHit. destruct (Dltb (Finite 1) maxD).
    - intros ->%list_elem_of_singleton. reflexivity.
    - by intros ?%elem_of_nil. }
  assert (Hbud : withinBudget hitAtOne atOrigin reportBoxHit).
  { intros n maxD r. unfold reportBoxHit, hitAtOne. destruct (Dltb (Finite 1) maxD).
    - reflexivity.
    - by intros ?%elem_of_nil. }
  split; [apply runFrom_reachable|]. split; [exact Hlow|]. split; [exact Hbud|].
  apply (RaycastSingle_is_closest_of_Raycast hitAtOne allFlags allFlags atOrigin reportBoxHit
           (runFrom twoTracked) 1 (Finite 10) 1 (runFrom_reachable twoTracked) Hlow Hbud).
Defined.

(** C4, as stated, fails for objects whose OnRaycast does not keep to
    their bounding box.  With a hit of object 7 at distance 1/2, before
    its bounding box at distance 3, Raycast returns that hit first and
    RaycastSingle returns the hit of object 5 at distance 5/2: it stops
    at the candidate whose bounding box is beyond the closest hit so
    far.  With objects that report a hit although their bounding box is
    at the budget or beyond it, Raycast returns hits and RaycastSingle
    the no-hit result. *)
Lemma RaycastSingle_relies_on_bounding_boxes :
  (∃ results res nearer,
     Raycast alongX allFlags allFlags hitBeforeBox (runFrom twoOnRay) 1 (Finite 10) 1
       = Some results ∧
     RaycastSingle alongX allFlags allFlags boxesOnRay hitBeforeBox (runFrom twoOnRay) 1
                   (Finite 10) 1 = Some res ∧
     nearer ∈ results ∧ node nearer = Some 7%nat ∧ node res = Some 5%nat ∧
     Dltb (distance nearer) (distance res) = true ∧ ¬ closestOf res results) ∧
  (∃ results first,
     Raycast alongX allFlags allFlags hitAnyway (runFrom twoOnRay) 1 (Finite 1) 1
       = Some results ∧
     first ∈ results ∧
     RaycastSingle alongX allFlags allFlags boxesOnRay hitAnyway (runFrom twoOnRay) 1
                   (Finite 1) 1 = Some emptyRes ∧
     ¬ closestOf emptyRes results).
Proof.
  split.
  - eexists. eexists. eexists. split; [vm_compute; reflexivity|].
    split; [vm_compute; reflexivity|]. split; [left|]. split; [reflexivity|].
    split; [reflexivity|]. split; [reflexivity|].
    intros (_&Hmin). specialize (Hmin _ ltac:(left)). discriminate Hmin.
  - eexists. eexists. split; [vm_compute; reflexivity|]. split; [left|].
    split; [vm_compute; reflexivity|].
    intros (Hin&_). apply elem_of_cons in Hin as [Heq|Hin]; [discriminate Heq|].
    apply elem_of_cons in Hin as [Heq|Hin]; [discriminate Heq|]. by apply elem_of_nil in Hin.
Qed.


(** * More invariants of the Octree *)

(** ** Predicates kept by the queue loop of Update *)

(** A predicate on states that every iteration keeps is kept by the
    loop. *)
Lemma updateLoop_inv wb frame (I : Octree → Prop) :
  (∀ P s n s', uwf wb P s → I s → updateNode wb frame s n = Some s' → I s') →
  ∀ q P s s', uwf wb P s → I s → updateLoop wb frame q s = Some s' → I s'.
Proof.
  intros Hstep. induction q as [|[n|] q IH]; intros P s s' Hu HI Hrun; simpl in Hrun.
  - by injection Hrun as <-.
  - destruct (updateNode_ok wb frame P s n Hu) as (s1&Hs1&Hu1&_).
    rewrite Hs1 in Hrun. simpl in Hrun.
    eapply (IH _ s1); [exact Hu1| |exact Hrun]. exact (Hstep P s n s1 Hu HI Hs1).
  - by eapply IH.
Qed.

Lemma updateNode_stepView wb frame P s n s' :
  uwf wb P s → updateNode wb frame s n = Some s' → stepView n (octants s) (octants s').
Proof.
  intros Hu Hrun. destruct (updateNode_ok wb frame P s n Hu) as (s1&Hs1&Hrest).
  assert (s1 = s') as -> by congruence.
  by destruct Hrest as (_&_&_&_&_&_&_&_&_&_&?).
Qed.

(** What Update is made of: the queue loop, then the sort loop. *)
Lemma Update_parts wb frame s :
  wf s →
  ∃ s1 hS, updateLoop wb frame (updateQueue s) s = Some s1 ∧
    uwf wb (queueSet (updateQueue s) ∪ ∅) s1 ∧
    sortLoop (sortDirtyOctants s1) (octants s1) = Some hS ∧
    Update wb frame s = Some (mkOctree hS [] [] (octantOf s1) (queuedFlag s1)
                                       (lastUpdateFrameNumber s1)).
Proof.
  intros Hwf.
  destruct (updateLoop_ok wb frame (updateQueue s) ∅ s (wf_uwf wb s Hwf)) as (s1&Hrun&Hu&_).
  destruct (sortLoop_ok (sortDirtyOctants s1) (octants s1)) as (hS&Hsort&_).
  { intros a Ha. destruct (uwf_dirty2 _ _ _ Hu a Ha) as (o&?&?&_). eauto. }
  exists s1, hS. split; [done|]. split; [done|]. split; [done|].
  unfold Update. rewrite Hrun. simpl. by rewrite Hsort.
Qed.

(** RemoveNode(node) as one step on the octants: it creates no octant,
    and an octant that stays keeps its geometry, its sortDirty mark and
    its objects, but for the removed one. *)
Lemma RemoveNode_view s n :
  wf s →
  ∃ s', RemoveNode s n = Some s' ∧
    ∀ b o', octants s' !! b = Some o' →
      ∃ o, octants s !! b = Some o ∧ same_geom o o' ∧ sortDirty o' = sortDirty o ∧
           (nodes o' = nodes o ∨ nodes o' = eraseFirst n (nodes o)).
Proof.
  intros [Hh (Hl&Hnd) Htot Hcl]. destruct (octantOf s !! n) as [a|] eqn:Hn.
  - pose proof Hn as Hn'. apply Hl in Hn' as (o&Ho&Hin).
    destruct (RemoveNodeFrom_ok (octants s) n a o _ Hh Ho Hin Htot) as (h3&Hrem&_&_&Hv3&_).
    assert (Hex : ∃ s', RemoveNode s n = Some s' ∧ octants s' = h3).
    { unfold RemoveNode. rewrite Hn, Hrem. simpl. case_decide; eexists; split; done. }
    destruct Hex as (s'&Hrun&Hh3). exists s'. split; [done|]. rewrite Hh3.
    intros b o' Hb. pose proof (Hv3 b) as Hvb. rewrite Hb in Hvb.
    destruct Hvb as (ob&Hob&?&?&?&?&?&?&?&Hnodes). exists ob. split; [done|].
    split; [by repeat split|]. split; [done|]. rewrite Hnodes. case_decide; auto.
  - destruct (RemoveNode_untracked s n) as (s'&Hrun&Ho&_); [by left|].
    exists s'. split; [done|]. rewrite Ho. intros b o' Hb. exists o'.
    split; [done|]. split; [by repeat split|]. auto.
Qed.

(** ** Object lists are sorted *)

Lemma Sorted_eraseFirst n l : Sorted Nat.le l → Sorted Nat.le (eraseFirst n l).
Proof.
  intros Hs. apply Sorted_StronglySorted in Hs; [|intros x y z; apply Nat.le_trans].
  apply StronglySorted_Sorted. induction Hs as [|x l Hl IH Hx]; simpl; [constructor|].
  case_decide; [done|]. constructor; [done|].
  rewrite Forall_forall in Hx |- *. intros y Hy. apply Hx. by eapply eraseFirst_subset.
Qed.

Lemma sortedLists_step n h h' : sortedLists h → stepView n h h' → sortedLists h'.
Proof.
  intros Hsorted Hview b o' Hb Hd. pose proof (Hview b o' Hb) as Hvb.
  destruct (h !! b) as [o|] eqn:Ho.
  - destruct Hvb as (_&Hx). destruct (Hx Hd) as (Hdo&[->| ->]).
    + by eapply Hsorted.
    + apply Sorted_eraseFirst. by eapply Hsorted.
  - rewrite (Hvb Hd). constructor.
Qed.

(** The sort loop sorts the lists of the octants it visits and leaves
    the other lists as they are. *)
Lemma sortLoop_sorted dl : ∀ h hS,
  sortLoop dl h = Some hS →
  ∀ b o', hS !! b = Some o' →
    ∃ o, h !! b = Some o ∧
         (b ∈ dl → Sorted Nat.le (nodes o')) ∧
         (b ∉ dl → nodes o' = nodes o ∧ sortDirty o' = sortDirty o).
Proof.
  induction dl as [|a dl IH]; intros h hS Hrun b o' Hb; simpl in Hrun.
  - injection Hrun as <-. exists o'. split; [done|]. split; [by intros ?%elem_of_nil|done].
  - destruct (h !! a) as [oa|] eqn:Ha; simpl in Hrun; [|done].
    destruct (IH _ _ Hrun b o' Hb) as (o1&Ho1&Hin&Hout).
    destruct (decide (a = b)) as [<-|Hab].
    + rewrite lookup_insert_eq in Ho1. injection Ho1 as <-. exists oa. split; [done|].
      split; [|intros Hx; exfalso; apply Hx; left].
      intros _. destruct (decide (a ∈ dl)) as [Hadl|Hadl]; [by apply Hin|].
      destruct (Hout Hadl) as (->&_). simpl. apply Sorted_merge_sort. apply _.
    + rewrite lookup_insert_ne in Ho1 by done. exists o1. split; [done|]. split.
      * intros [?|?]%elem_of_cons; [congruence|by apply Hin].
      * intros Hx. apply Hout. intros ?. apply Hx. by right.
Qed.

Lemma Update_sortedLists wb frame s s' :
  wf s → sortedLists (octants s) → Update wb frame s = Some s' → sortedLists (octants s').
Proof.
  intros Hwf Hsorted Hrun.
  destruct (Update_parts wb frame s Hwf) as (s1&hS&Hloop&Hu&Hsort&HU).
  rewrite HU in Hrun. injection Hrun as <-. simpl.
  assert (H1 : sortedLists (octants s1)).
  { apply (updateLoop_inv wb frame (λ s, sortedLists (octants s)))
      with (q := updateQueue s) (P := ∅) (s := s); [|by apply wf_uwf|done|done].
    intros P s0 n s0' Hu0 HI Hstep. eapply sortedLists_step; [exact HI|].
    by eapply updateNode_stepView. }
  intros b o' Hb Hd. destruct (sortLoop_sorted _ _ _ Hsort b o' Hb) as (o&Ho&Hin&Hout).
  destruct (decide (b ∈ sortDirtyOctants s1)) as [Hbd|Hbd]; [by apply Hin|].
  destruct (Hout Hbd) as (->&Hsd). apply (H1 b o Ho). congruence.
Qed.

Lemma reachable_sortedLists s : reachable s → sortedLists (octants s).
Proof.
  induction 1 as [|s op s' Hr IH Hex].
  - intros a o Ha _. simpl in Ha. apply lookup_singleton_Some in Ha as (_&<-). constructor.
  - pose proof (reachable_wf s Hr) as Hwf. destruct op as [wb frame|box lv|n|n|n]; simpl in Hex.
    + by eapply Update_sortedLists.
    + destruct (Resize_ok s box lv Hwf) as (s1&l&r&Hres&_&_&_&_&Hh1&_).
      assert (s1 = s') as -> by congruence. rewrite Hh1.
      intros a o Ha _. apply lookup_singleton_Some in Ha as (_&<-). constructor.
    + destruct (RemoveNode_view s n Hwf) as (s1&Hrun&Hview).
      assert (s1 = s') as -> by congruence.
      intros b o' Hb Hd. destruct (Hview b o' Hb) as (o&Ho&_&Hsd&[->| ->]).
      * apply (IH b o Ho). congruence.
      * apply Sorted_eraseFirst, (IH b o Ho). congruence.
    + injection Hex as <-. exact IH.
    + injection Hex as <-. exact IH.
Qed.

(** X1: in every reachable state no octant is marked sortDirty,
    sortDirtyOctants is empty, and the object list of every octant is in
    ascending order of address without duplicates. *)
Theorem node_lists_are_sorted s :
  reachable s →
  sortDirtyOctants s = [] ∧
  ∀ a o, octants s !! a = Some o →
    sortDirty o = false ∧ Sorted Nat.le (nodes o) ∧ NoDup (nodes o).
Proof.
  intros Hr. destruct (reachable_wf s Hr) as [_ (_&Hnd) _ (Hd&Hcl)].
  split; [done|]. intros a o Ha. split; [by eapply Hcl|]. split; [|by eapply Hnd].
  eapply reachable_sortedLists; eauto.
Qed.

Lemma node_lists_are_sorted_witness :
  reachable (runFrom twoTracked) ∧
  sortDirtyOctants (runFrom twoTracked) = [] ∧
  ∀ a o, octants (runFrom twoTracked) !! a = Some o →
    sortDirty o = false ∧ Sorted Nat.le (nodes o) ∧ NoDup (nodes o).
Proof.
  split; [apply runFrom_reachable|].
  apply (node_lists_are_sorted (runFrom twoTracked)), runFrom_reachable.
Defined.

(** ** Levels *)





(** * The structure of the tree *)



(** X4: in every reachable state an object that is in the object
    list of an octant is there once, is in the list of no other octant,
    and its back-reference names that octant. *)
Theorem objects_are_in_one_octant s :
  reachable s →
  ∀ n a o, octants s !! a = Some o → n ∈ nodes o →
    octantOf s !! n = Some a ∧ NoDup (nodes o) ∧
    ∀ b ob, octants s !! b = Some ob → n ∈ nodes ob → b = a.
Proof.
  intros Hr n a o Ha Hin. destruct (reachable_wf s Hr) as [_ (Hl&Hnd) _ _].
  assert (Hn : octantOf s !! n = Some a) by (apply Hl; eauto).
  split; [done|]. split; [by eapply Hnd|]. intros b ob Hb Hinb.
  assert (octantOf s !! n = Some b) by (apply Hl; eauto). congruence.
Qed.

Lemma objects_are_in_one_octant_witness :
  reachable (runFrom twoTracked) ∧
  octants (runFrom twoTracked) !! leafAddr = Some leafOctant ∧
  5%nat ∈ nodes leafOctant ∧
  octantOf (runFrom twoTracked) !! 5%nat = Some leafAddr ∧ NoDup (nodes leafOctant) ∧
  ∀ b ob, octants (runFrom twoTracked) !! b = Some ob → 5%nat ∈ nodes ob → b = leafAddr.
Proof.
  assert (Ha : octants (runFrom twoTracked) !! leafAddr = Some leafOctant)
    by (vm_compute; reflexivity).
  assert (Hin : 5%nat ∈ nodes leafOctant) by (vm_compute; left).
  split; [apply runFrom_reachable|]. split; [exact Ha|]. split; [exact Hin|].
  apply (objects_are_in_one_octant (runFrom twoTracked) (runFrom_reachable twoTracked)
           5%nat leafAddr leafOctant Ha Hin).
Defined.

(** ** Creating and deleting a child octant *)

(** X7: for a live octant with an empty child slot,
    CreateChildOctant fills the slot with an octant at an address that
    was not live; a second call returns the same octant and changes
    nothing; and DeleteChildOctant for the slot gives back the heap as
    it was. *)
Theorem CreateChildOctant_then_Delete h a o i :
  h !! a = Some o → children o !! i = Some None →
  ∃ h1 c, CreateChildOctant h a i = Some (h1, c) ∧ h !! c = None ∧
    CreateChildOctant h1 a i = Some (h1, c) ∧
    DeleteChildOctant h1 a i = Some h.
Proof.
  intros Ha Hi. unfold CreateChildOctant at 1. rewrite Ha. simpl. rewrite Hi.
  set (c := Allocate h).
  set (child := Initialize Octant_new (Some a) (childBox o i) (level o - 1)).
  set (o1 := set_children o (<[i := Some c]> (children o))).
  assert (Hfresh : h !! c = None) by apply Allocate_fresh.
  assert (Hca : c ≠ a) by (intros ->; congruence).
  assert (Hlt : (i < length (children o))%nat) by (by eapply lookup_lt_Some).
  assert (Hslot : children o1 !! i = Some (Some c)) by (by apply list_lookup_insert_eq).
  exists (<[a := o1]> (<[c := child]> h)), c. split; [done|]. split; [done|]. split.
  - unfold CreateChildOctant. rewrite lookup_insert_eq. simpl.
    by rewrite list_lookup_insert_eq.
  - unfold DeleteChildOctant. rewrite lookup_insert_eq. simpl.
    rewrite list_lookup_insert_eq by done.
    rewrite lookup_insert_ne by done. rewrite lookup_insert_eq. simpl.
    rewrite delete_insert_ne by done. rewrite delete_insert_eq, delete_id by done.
    rewrite lookup_insert_eq. simpl. rewrite insert_insert_eq. f_equal.
    apply insert_id. rewrite Ha. f_equal. destruct o. simpl in *.
    rewrite list_insert_insert_eq. unfold o1, set_children. simpl.
    f_equal. symmetry. by apply list_insert_id.
Qed.

Lemma CreateChildOctant_then_Delete_witness :
  octants Octree_new !! ROOT = Some defaultRoot ∧ children defaultRoot !! 3%nat = Some None ∧
  ∃ h1 c, CreateChildOctant (octants Octree_new) ROOT 3 = Some (h1, c) ∧
    octants Octree_new !! c = None ∧
    CreateChildOctant h1 ROOT 3 = Some (h1, c) ∧
    DeleteChildOctant h1 ROOT 3 = Some (octants Octree_new).
Proof.
  assert (Ha : octants Octree_new !! ROOT = Some defaultRoot) by reflexivity.
  assert (Hi : children defaultRoot !! 3%nat = Some None) by reflexivity.
  split; [exact Ha|]. split; [exact Hi|].
  apply (CreateChildOctant_then_Delete (octants Octree_new) ROOT defaultRoot 3 Ha Hi).
Defined.


(** * More on the operations *)

(** ** RemoveNode *)




(** ** Update *)






(** ** CancelUpdate *)

Lemma tombstone_first n q : ∀ i,
  q !! i = Some (Some n) → (∀ j, (j < i)%nat → q !! j ≠ Some (Some n)) →
  tombstone n q = <[i := None]> q.
Proof.
  induction q as [|x q IH]; intros i Hi Hfirst; [done|]. simpl.
  destruct i as [|i]; simpl in *.
  - injection Hi as ->. by rewrite decide_True.
  - rewrite decide_False.
    + f_equal. apply IH; [done|]. intros j Hj. apply (Hfirst (S j)). lia.
    + intros ->. apply (Hfirst 0%nat); [lia|done].
Qed.

(** X11: CancelUpdate keeps the length of the queue and every
    entry that is not the object at its index; the first entry of the
    object becomes null and every other index keeps its entry (later
    entries of the object too); the queued flag of the object is
    cleared; octants and back-references are not touched. *)
Theorem CancelUpdate_nulls_the_first_entry s n :
  length (updateQueue (CancelUpdate s n)) = length (updateQueue s) ∧
  (n ∉ queuedFlag (CancelUpdate s n)) ∧
  octants (CancelUpdate s n) = octants s ∧ octantOf (CancelUpdate s n) = octantOf s ∧
  (∀ i x, updateQueue s !! i = Some x → x ≠ Some n →
     updateQueue (CancelUpdate s n) !! i = Some x) ∧
  (∀ i, updateQueue s !! i = Some (Some n) →
     (∀ j, (j < i)%nat → updateQueue s !! j ≠ Some (Some n)) →
     updateQueue (CancelUpdate s n) !! i = Some None ∧
     ∀ j, j ≠ i → updateQueue (CancelUpdate s n) !! j = updateQueue s !! j).
Proof.
  unfold CancelUpdate. simpl. split; [apply tombstone_length|]. split; [set_solver|].
  split; [done|]. split; [done|]. split.
  - intros i x Hi Hx. by apply tombstone_other.
  - intros i Hi Hfirst. rewrite (tombstone_first n _ i Hi Hfirst). split.
    + apply list_lookup_insert_eq. by eapply lookup_lt_Some.
    + intros j Hj. by apply list_lookup_insert_ne.
Qed.





(** * Resize, and where Update puts an object *)

(** ** Resize *)





(** ** Where Update puts an object *)




(** * The masked query and the attribute setters *)


Lemma mapM_ext_eq {A B} (F G : A → option B) l :
  (∀ x, F x = G x) → mapM F l = mapM G l.
Proof. intros H. induction l as [|x l IH]; simpl; [done|]. by rewrite H, IH. Qed.


(** ** CollectNodes with masks *)




(** ** The attribute setters *)

Lemma lookup_rootBox box (h : gmap nat Octant) a :
  alter (λ r, set_worldBoundingBox r box) ROOT h !! a
  = (λ o, if decide (a = ROOT) then set_worldBoundingBox o box else o) <$> h !! a.
Proof.
  destruct (decide (a = ROOT)) as [->|Hne].
  - by rewrite lookup_alter_eq.
  - rewrite lookup_alter_ne by done. by destruct (h !! a).
Qed.

Lemma insert_rootBox box (h : gmap nat Octant) a o :
  alter (λ r, set_worldBoundingBox r box) ROOT (<[a := o]> h)
  = <[a := if decide (a = ROOT) then set_worldBoundingBox o box else o]>
      (alter (λ r, set_worldBoundingBox r box) ROOT h).
Proof.
  apply map_eq. intros b. rewrite lookup_rootBox.
  destruct (decide (b = a)) as [->|Hne].
  - by rewrite !lookup_insert_eq.
  - rewrite !lookup_insert_ne by done. by rewrite lookup_rootBox.
Qed.

Lemma delete_rootBox box (h : gmap nat Octant) a :
  alter (λ r, set_worldBoundingBox r box) ROOT (delete a h)
  = delete a (alter (λ r, set_worldBoundingBox r box) ROOT h).
Proof.
  apply map_eq. intros b. rewrite lookup_rootBox.
  destruct (decide (b = a)) as [->|Hne].
  - by rewrite !lookup_delete_eq.
  - rewrite !lookup_delete_ne by done. by rewrite lookup_rootBox.
Qed.

Lemma octants_withRootBox box s :
  octants (withRootBox box s) = alter (λ r, set_worldBoundingBox r box) ROOT (octants s).
Proof. done. Qed.

Lemma deleteChildren_cons rec a i rest s :
  deleteChildren rec a (i :: rest) s
  = (o ← octants s !! a;
     match children o !! i with
     | Some (Some c) =>
         s1 ← rec c s;
         o1 ← octants s1 !! a;
         deleteChildren rec a rest
           (set_octants s1 (<[a := set_children o1 (<[i := None]> (children o1))]> (octants s1)))
     | Some None => deleteChildren rec a rest s
     | None => None
     end).
Proof. done. Qed.

Lemma deleteChildren_rootBox box rec a idx :
  (∀ c s, rec c (withRootBox box s) = withRootBox box <$> rec c s) →
  ∀ s, deleteChildren rec a idx (withRootBox box s)
       = withRootBox box <$> deleteChildren rec a idx s.
Proof.
  intros Hrec. induction idx as [|i idx IH]; intros s; [done|].
  rewrite !deleteChildren_cons, octants_withRootBox, lookup_rootBox.
  destruct (octants s !! a) as [o|]; simpl; [|done].
  assert (children (if decide (a = ROOT) then set_worldBoundingBox o box else o) = children o)
    as -> by (by destruct (decide (a = ROOT))).
  destruct (children o !! i) as [[c|]|]; [|apply IH|done].
  rewrite Hrec. destruct (rec c s) as [s1|]; simpl; [|done].
  rewrite lookup_rootBox. destruct (octants s1 !! a) as [o1|]; simpl; [|done].
  rewrite <- IH. f_equal. unfold withRootBox, set_octants. simpl. f_equal.
  rewrite insert_rootBox. f_equal. by destruct (decide (a = ROOT)).
Qed.

Lemma DeleteChildOctants_S f a s :
  DeleteChildOctants (S f) a s
  = (o ← octants s !! a;
     let s1 := detachNodes s (nodes o) in
     let s2 := set_octants s1 (<[a := set_numNodes (set_nodes o []) 0]> (octants s1)) in
     s3 ← deleteChildren (DeleteChildOctants f) a (seq 0 NUM_OCTANTS) s2;
     if decide (a = ROOT) then Some s3
     else
       _ ← octants s3 !! a;
       Some (set_octants s3 (delete a (octants s3)))).
Proof. done. Qed.

Lemma DeleteChildOctants_rootBox box f : ∀ a s,
  DeleteChildOctants f a (withRootBox box s) = withRootBox box <$> DeleteChildOctants f a s.
Proof.
  induction f as [|f IH]; intros a s; [done|].
  rewrite !DeleteChildOctants_S, octants_withRootBox, lookup_rootBox.
  destruct (octants s !! a) as [o|]; [|done]. cbv zeta. cbn [fmap option_fmap option_map mbind option_bind].
  assert (nodes (if decide (a = ROOT) then set_worldBoundingBox o box else o) = nodes o)
    as -> by (by destruct (decide (a = ROOT))).
  match goal with
  | |- (deleteChildren _ _ _ ?X ≫= _) = _ =>
      assert (X = withRootBox box
                    (set_octants (detachNodes s (nodes o))
                       (<[a := set_numNodes (set_nodes o []) 0]>
                          (octants (detachNodes s (nodes o)))))) as ->
  end.
  { unfold withRootBox, set_octants, detachNodes. simpl. f_equal.
    rewrite insert_rootBox. f_equal. by destruct (decide (a = ROOT)). }
  rewrite (deleteChildren_rootBox box _ a _ (IH)).
  destruct (deleteChildren _ _ _ _) as [s3|]; simpl; [|done].
  destruct (decide (a = ROOT)); [done|].
  rewrite lookup_rootBox. destruct (octants s3 !! a) as [o3|]; simpl; [|done].
  f_equal. unfold withRootBox, set_octants. simpl. f_equal. by rewrite delete_rootBox.
Qed.

Lemma CollectNodes_rootBox box h f : ∀ a,
  CollectNodes f (alter (λ r, set_worldBoundingBox r box) ROOT h) a = CollectNodes f h a.
Proof.
  induction f as [|f IH]; intros a; simpl; [done|].
  rewrite lookup_rootBox. destruct (h !! a) as [o|]; simpl; [|done].
  assert (children (if decide (a = ROOT) then set_worldBoundingBox o box else o) = children o)
    as -> by (by destruct (decide (a = ROOT))).
  assert (nodes (if decide (a = ROOT) then set_worldBoundingBox o box else o) = nodes o)
    as -> by (by destruct (decide (a = ROOT))).
  rewrite (mapM_ext_eq _ (λ c : option nat, match c with
                                            | Some ca => CollectNodes f h ca
                                            | None => Some []
                                            end)); [done|].
  intros [c|]; [apply IH|done].
Qed.

Lemma depthFuel_rootBox box h :
  depthFuel (alter (λ r, set_worldBoundingBox r box) ROOT h) = depthFuel h.
Proof.
  unfold depthFuel. rewrite lookup_rootBox. destruct (h !! ROOT) as [r|]; simpl; [|done].
  by destruct (decide (ROOT = ROOT)).
Qed.

(** Resize does not read the root's worldBoundingBox. *)
Lemma Resize_rootBox box s boundingBox numLevels :
  Resize (withRootBox box s) boundingBox numLevels = Resize s boundingBox numLevels.
Proof.
  unfold Resize. rewrite octants_withRootBox, depthFuel_rootBox, CollectNodes_rootBox.
  destruct (CollectNodes _ (octants s) ROOT) as [collected|]; simpl; [|done].
  match goal with
  | |- (DeleteChildOctants _ _ ?X ≫= _) = (DeleteChildOctants _ _ ?Y ≫= _) =>
      change X with (withRootBox box Y)
  end.
  rewrite DeleteChildOctants_rootBox, ?depthFuel_rootBox.
  destruct (DeleteChildOctants _ ROOT _) as [s2|]; simpl; [|done].
  rewrite lookup_rootBox. destruct (octants s2 !! ROOT) as [r|]; simpl; [|done].
  by destruct (decide (ROOT = ROOT)).
Qed.

Lemma SetBoundingBoxAttr_withRootBox s box r :
  octants s !! ROOT = Some r → SetBoundingBoxAttr s box = Some (withRootBox box s).
Proof.
  intros Hr. unfold SetBoundingBoxAttr, withRootBox. rewrite Hr. simpl. do 2 f_equal.
  apply map_eq. intros b. rewrite lookup_rootBox. destruct (decide (b = ROOT)) as [->|Hne].
  - by rewrite lookup_insert_eq, Hr.
  - rewrite lookup_insert_ne by done. by destruct (octants s !! b).
Qed.

(** X19: in a reachable state SetBoundingBoxAttr followed by
    SetNumLevelsAttr, the order in which an Octree is deserialized,
    returns the state that Resize returns for that box and level count.
    Between the two calls BoundingBoxAttr returns the new box and
    NumLevelsAttr the old level count, and the objects are where they
    were. *)
Theorem attribute_setters_resize_the_tree s box lv :
  reachable s →
  ∃ s1 s2, SetBoundingBoxAttr s box = Some s1 ∧ SetNumLevelsAttr s1 lv = Some s2 ∧
    Resize s box lv = Some s2 ∧
    BoundingBoxAttr s1 = Some box ∧ NumLevelsAttr s1 = NumLevelsAttr s ∧
    octantOf s1 = octantOf s ∧ updateQueue s1 = updateQueue s ∧
    BoundingBoxAttr s2 = Some box ∧
    NumLevelsAttr s2 = Some (Clamp lv 1 MAX_OCTREE_LEVELS).
Proof.
  intros Hr. pose proof (reachable_wf s Hr) as Hwf.
  destruct (Resize_ok s box lv Hwf) as (s2&l&r&Hres&Hroot&_&_&_&Hh&_).
  exists (withRootBox box s), s2.
  assert (Hr1 : octants (withRootBox box s) !! ROOT = Some (set_worldBoundingBox r box)).
  { rewrite octants_withRootBox, lookup_rootBox, Hroot. simpl.
    by destruct (decide (ROOT = ROOT)). }
  split; [by eapply SetBoundingBoxAttr_withRootBox|]. split_and!; try done.
  - unfold SetNumLevelsAttr. rewrite Hr1. simpl. by rewrite Resize_rootBox.
  - unfold BoundingBoxAttr. by rewrite Hr1.
  - unfold NumLevelsAttr. by rewrite Hr1, Hroot.
  - unfold BoundingBoxAttr. by rewrite Hh, lookup_singleton_eq.
  - unfold NumLevelsAttr. by rewrite Hh, lookup_singleton_eq.
Qed.

Lemma attribute_setters_resize_the_tree_witness :
  reachable (runFrom twoTracked) ∧
  ∃ s1 s2, SetBoundingBoxAttr (runFrom twoTracked) (cube (-10) 10) = Some s1 ∧
    SetNumLevelsAttr s1 3 = Some s2 ∧
    Resize (runFrom twoTracked) (cube (-10) 10) 3 = Some s2 ∧
    BoundingBoxAttr s1 = Some (cube (-10) 10) ∧
    NumLevelsAttr s1 = NumLevelsAttr (runFrom twoTracked) ∧
    octantOf s1 = octantOf (runFrom twoTracked) ∧
    updateQueue s1 = updateQueue (runFrom twoTracked) ∧
    BoundingBoxAttr s2 = Some (cube (-10) 10) ∧
    NumLevelsAttr s2 = Some (Clamp 3 1 MAX_OCTREE_LEVELS).
Proof.
  split; [apply runFrom_reachable|].
  apply (attribute_setters_resize_the_tree (runFrom twoTracked) (cube (-10) 10) 3),
    runFrom_reachable.
Defined.


(** * What a ray query visits *)




Section RayVisits.
Variable HitDistance : BoundingBox → Dist.
Variable Flags : nodeid → Z.
Variable LayerMask : nodeid → Z.
Variable WorldBoundingBox : nodeid → BoundingBox.
Variable OnRaycast : nodeid → Dist → list RaycastResult.
Variable nodeFlags : Z.
Variable maxDistance : Dist.
Variable layerMask : Z.

Local Abbreviation hits :=
  (λ n, raycastNode Flags LayerMask OnRaycast n nodeFlags maxDistance layerMask).
Local Abbreviation bounds :=
  (λ n, distanceNode HitDistance Flags LayerMask WorldBoundingBox n nodeFlags maxDistance
                     layerMask).




End RayVisits.






(** * The operations in single precision *)

(** ** FitBoundingBox *)

(** C5: for every octant, box and box size in binary32, FitBoundingBox
    returns true exactly when the octant's level is at most 1, or the
    box size is at least the octant's halfSize on some axis, or the box
    reaches or passes, on some axis, a side of the octant's
    worldBoundingBox grown by half of its halfSize (bounds rounded as the
    source computes them); otherwise it returns false. *)
Theorem FitBoundingBox_fits_in_binary32 o box boxSize :
  (F32.FitBoundingBox o box boxSize = true ↔ F32.FitBoundingBox_spec o box boxSize) ∧
  (F32.FitBoundingBox o box boxSize = false ↔ ¬ F32.FitBoundingBox_spec o box boxSize).
Proof.
  assert (H : F32.FitBoundingBox o box boxSize = true ↔ F32.FitBoundingBox_spec o box boxSize).
  { unfold F32.FitBoundingBox, F32.FitBoundingBox_spec, F32.minimumLevel,
      F32.atLeastHalfSize, F32.reachesMargin, F32.marginBox. cbn [F32.bmin F32.bmax F32.vx F32.vy F32.vz].
    rewrite <- Z.leb_le.
    destruct (F32.level o <=? 1)%Z; [cbn [orb]; intuition|].
    repeat match goal with
           | |- context [F32.fleb ?a ?b] =>
               destruct (F32.fleb a b); [cbn [orb]; intuition|]
           end.
    cbn [orb]. intuition discriminate. }
  split; [exact H|]. rewrite <- H. by destruct (F32.FitBoundingBox o box boxSize).
Qed.

(** ** An emptied octant whose center equals its parent's *)

(** C2: in binary32, in the tree over [16777218, 16777222]^3 with two
    levels, Update puts object 5 into the child in slot 0 and object 7
    into the child in slot 7, and the root counts two objects; the
    centers of both children round to the center of the root, for which
    ChildIndex gives slot 7.  RemoveNode of object 5 then returns with a
    root whose numNodes is 1 while CollectNodes finds no object in the
    tree: the only back-reference left, that of object 7, names an
    octant that was freed. *)
Theorem root_numNodes_miscounts_in_binary32 :
  (∃ r c0 c7,
     F32.octants (F32.runFrom F32.twoCorners) !! ROOT = Some r ∧ F32.numNodes r = 2%Z ∧
     F32.children r = [Some 1%nat; None; None; None; None; None; None; Some 2%nat] ∧
     F32.octants (F32.runFrom F32.twoCorners) !! 1%nat = Some c0 ∧
     F32.octants (F32.runFrom F32.twoCorners) !! 2%nat = Some c7 ∧
     F32.nodes c0 = [5%nat] ∧ F32.nodes c7 = [7%nat] ∧
     F32.center c0 = F32.center r ∧ F32.center c7 = F32.center r ∧
     F32.ChildIndex r (F32.center c0) = 7%nat) ∧
  F32.octantOf (F32.runFrom F32.twoCorners) = {[ 5%nat := 1%nat; 7%nat := 2%nat ]} ∧
  ∃ s, F32.RemoveNode (F32.runFrom F32.twoCorners) 5%nat = Some s ∧
    (∃ r, F32.octants s !! ROOT = Some r ∧ F32.numNodes r = 1%Z) ∧
    F32.CollectNodes (F32.depthFuel (F32.octants s)) (F32.octants s) ROOT = Some [] ∧
    F32.octantOf s = {[ 7%nat := 2%nat ]} ∧
    F32.octants s !! 2%nat = None.
Proof.
  split.
  { do 3 eexists. split; [vm_compute; reflexivity|]. split; [reflexivity|].
    split; [reflexivity|]. split; [vm_compute; reflexivity|].
    split; [vm_compute; reflexivity|]. split; [reflexivity|]. split; [reflexivity|].
    split; [reflexivity|]. split; [reflexivity|]. vm_compute. reflexivity. }
  split; [vm_compute; reflexivity|].
  eexists. split; [vm_compute; reflexivity|].
  split; [eexists; split; [vm_compute; reflexivity|reflexivity]|].
  split; [vm_compute; reflexivity|]. split; vm_compute; reflexivity.
Qed.

(** C3: in the same tree RemoveNode of object 5 empties the child in
    slot 0 of the root and erases the child in slot 7: afterwards slot 0
    still names the emptied octant, which is live with numNodes 0, and
    the octant that holds object 7 is freed and its slot null. *)
Theorem empty_octant_is_kept_in_binary32 :
  ∃ s, F32.RemoveNode (F32.runFrom F32.twoCorners) 5%nat = Some s ∧
    ∃ r c0 c7,
      F32.octants s !! ROOT = Some r ∧
      F32.children r = [Some 1%nat; None; None; None; None; None; None; None] ∧
      F32.octants s !! 1%nat = Some c0 ∧ F32.parent c0 = Some ROOT ∧
      F32.numNodes c0 = 0%Z ∧ F32.nodes c0 = [] ∧
      F32.octants (F32.runFrom F32.twoCorners) !! 2%nat = Some c7 ∧
      F32.numNodes c7 = 1%Z ∧ F32.nodes c7 = [7%nat] ∧
      F32.octants s !! 2%nat = None.
Proof.
  eexists. split; [vm_compute; reflexivity|].
  do 3 eexists. split; [vm_compute; reflexivity|]. split; [reflexivity|].
  split; [vm_compute; reflexivity|]. split; [reflexivity|]. split; [reflexivity|].
  split; [reflexivity|]. split; [vm_compute; reflexivity|]. split; [reflexivity|].
  split; [reflexivity|]. vm_compute. reflexivity.
Qed.

(** ** A box placed next to a rounded bound *)

(** In binary32, in the tree over [0.1f, 1000.3f]^3 with eight levels,
    Update puts the object with the box [988.57892, 996.39294]^3 into an
    octant of level 1 that is not the root and whose cullingBox does not
    hold the box: the minimum of the cullingBox is the binary32 number
    next above the minimum of the box. *)
Lemma Update_misses_the_cullingBox_in_binary32 :
  ∃ a o, F32.octantOf (F32.runFrom F32.offGrid) !! 5%nat = Some a ∧ a ≠ ROOT ∧
    F32.octants (F32.runFrom F32.offGrid) !! a = Some o ∧ F32.level o = 1%Z ∧
    F32.IsInside (F32.cullingBox o) F32.nearSeam = INTERSECTS ∧
    F32.vx (F32.bmin (F32.cullingBox o)) = F32.dyadic 16196878 (-14) ∧
    F32.vx (F32.bmin F32.nearSeam) = F32.dyadic 16196877 (-14).
Proof.
  exists 7%nat. eexists. split; [vm_compute; reflexivity|]. split; [done|].
  split; [vm_compute; reflexivity|]. split; [reflexivity|].
  split; [vm_compute; reflexivity|]. split; vm_compute; reflexivity.
Qed.

(** C1, as stated, fails in two ways.  An object whose queue entry was
    cancelled is left where it is: its octant is not the root and the
    cullingBox of the octant does not hold its box (all numbers of this
    run are binary32 numbers and no operation rounds).  And in binary32
    an object with an entry in the queue and a box with min <= max can
    be put into an octant, not the root, whose cullingBox misses the box
    by a rounding step. *)
Lemma Update_leaves_objects_outside_the_cullingBox :
  (reachable (runFrom cancelledMove) ∧
   ∃ s' a o, Update farAway 2 (runFrom cancelledMove) = Some s' ∧
     octantOf s' !! 5%nat = Some a ∧ a ≠ ROOT ∧ octants s' !! a = Some o ∧
     is_INSIDE (IsInside (cullingBox o) (farAway 5%nat)) = false) ∧
  (∃ a o, F32.octantOf (F32.runFrom F32.offGrid) !! 5%nat = Some a ∧ a ≠ ROOT ∧
     F32.octants (F32.runFrom F32.offGrid) !! a = Some o ∧ F32.level o = 1%Z ∧
     F32.IsInside (F32.cullingBox o) F32.nearSeam = INTERSECTS ∧
     F32.vx (F32.bmin (F32.cullingBox o)) = F32.dyadic 16196878 (-14) ∧
     F32.vx (F32.bmin F32.nearSeam) = F32.dyadic 16196877 (-14)).
Proof.
  split; [exact Update_leaves_cancelled_object|exact Update_misses_the_cullingBox_in_binary32].
Qed.

